(** * ECDSA over secp256k1 with the stealth-nonce timestamping extension

    A shallow embedding of [src/secp256k1/src/ecdsa_impl.h]: the strict DER
    codec, signing, verification and the three stealth-nonce operations,
    together with the properties the specification states about them and
    further properties of the code; and of the loop of
    [src/wallet/rpc/timestampdata.cpp] that reads the file. *)

From Stdlib Require Import ZArith Zdivisibility Zcong List Lia Bool.
From Stdlib Require Import Morphisms Setoid.
From Stdlib Require Strings.String Numbers.DecimalString.
From Stdlib.Strings Require Import Byte.
Import ListNotations.
Open Scope Z_scope.

(** ** Bytes and buffers *)

(** An [unsigned char] read as an integer. *)
Definition u8 (b : byte) : Z := Z.of_N (Byte.to_N b).

(** Conversion of an integer to [unsigned char] (truncation to 8 bits). *)
Definition byte_of_Z (z : Z) : byte :=
  match Byte.of_N (Z.to_N (z mod 256)) with
  | Some b => b
  | None => x00
  end.

(** [p[i]] for a pointer [p] into a buffer, the buffer being the list of the
    bytes from [p] to its end. *)
Definition byte_at (p : list byte) (i : nat) : byte := nth i p x00.

(** [memcpy(dst + off, src, len)]. *)
Definition memcpy (dst : list byte) (off : nat) (src : list byte) (len : nat)
  : list byte :=
  firstn off dst ++ firstn len src ++ skipn (off + len) dst.

(** [dst[i] = b]. *)
Definition store (dst : list byte) (i : nat) (b : byte) : list byte :=
  memcpy dst i [b] 1.

(** Big-endian value of a byte string. *)
Definition be_decode (bs : list byte) : Z :=
  fold_left (fun acc b => acc * 256 + u8 b) bs 0.

(** Big-endian encoding of [v] on [len] bytes. *)
Fixpoint be_encode (len : nat) (v : Z) : list byte :=
  match len with
  | O => []
  | S k => byte_of_Z (v / 256 ^ Z.of_nat k) :: be_encode k v
  end.

(** ** Scalars and field elements *)

(** The group order, the value of [secp256k1_ecdsa_const_order_as_fe]. *)
Definition secp256k1_ecdsa_const_order_as_fe : Z :=
  0xFFFFFFFFFFFFFFFFFFFFFFFFFFFFFFFEBAAEDCE6AF48A03BBFD25E8CD0364141.

(** The difference between the field prime and the group order. *)
Definition secp256k1_ecdsa_const_p_minus_order : Z :=
  0x14551231950B75FC4402DA1722FC9BAEE.

Definition order_n : Z := secp256k1_ecdsa_const_order_as_fe.
Definition field_p : Z :=
  secp256k1_ecdsa_const_order_as_fe + secp256k1_ecdsa_const_p_minus_order.

(** Modelled from the spec: [scalar.h] is not part of the sources.  A scalar
    is a 256-bit integer kept as its canonical representative modulo the
    group order; [secp256k1_scalar_set_b32] reads 32 big-endian bytes,
    reduces, and reports whether the value read was at least the order. *)
Definition scalar := Z.

Definition secp256k1_scalar_set_b32 (b32 : list byte) : scalar * bool :=
  let v := be_decode (firstn 32 b32) in
  (v mod order_n, order_n <=? v).

Definition secp256k1_scalar_get_b32 (a : scalar) : list byte := be_encode 32 a.

Definition secp256k1_scalar_set_int (v : Z) : scalar := v.

Definition secp256k1_scalar_is_zero (a : scalar) : bool := a =? 0.

Definition secp256k1_scalar_eq (a b : scalar) : bool := a =? b.

Definition secp256k1_scalar_add (a b : scalar) : scalar := (a + b) mod order_n.

Definition secp256k1_scalar_mul (a b : scalar) : scalar := (a * b) mod order_n.

Definition secp256k1_scalar_negate (a : scalar) : scalar := (- a) mod order_n.

(** [a] lies above [n/2]. *)
Definition secp256k1_scalar_is_high (a : scalar) : bool := order_n / 2 <? a.

Definition secp256k1_scalar_cond_negate (a : scalar) (flag : bool) : scalar :=
  if flag then secp256k1_scalar_negate a else a.

(** Modular exponentiation by squaring, along the binary digits of the
    exponent. *)
Fixpoint modpow_pos (a : Z) (e : positive) (m : Z) : Z :=
  match e with
  | xH => a mod m
  | xO e' => let h := modpow_pos a e' m in (h * h) mod m
  | xI e' => let h := modpow_pos a e' m in ((h * h) mod m * a) mod m
  end.

Definition modpow (a e m : Z) : Z :=
  match e with
  | Zpos e' => modpow_pos a e' m
  | _ => 1 mod m
  end.

(** Inversion modulo the group order; the constant-time and the
    variable-time routine compute the same value. *)
Definition secp256k1_scalar_inverse (a : scalar) : scalar :=
  Z.invmod a order_n.

Definition secp256k1_scalar_inverse_var (a : scalar) : scalar :=
  secp256k1_scalar_inverse a.

(** ** The DER codec *)

(** [sizeof(size_t)] and the modulus of [size_t] arithmetic. *)
Definition sizeof_size_t : Z := 8.
Definition size_t_modulus : Z := 2 ^ 64.

(** The loop [while (lenleft > 0)] of [secp256k1_der_read_len]. *)
Fixpoint der_read_len_loop (lenleft : nat) (len : Z) (sigp : list byte)
  : Z * list byte :=
  match lenleft with
  | O => (len, sigp)
  | S k =>
      der_read_len_loop k
        (Z.lor ((Z.shiftl len 8) mod size_t_modulus) (u8 (byte_at sigp 0)))
        (tl sigp)
  end.

(** A pointer [*sigp] is the list of the bytes from it to [sigend]; a
    successful call returns [*len] and the advanced pointer. *)
Definition secp256k1_der_read_len (sigp : list byte) : option (Z * list byte) :=
  match sigp with
  | [] => None
  | b1 :: sigp1 =>
      if u8 b1 =? 0xFF then None
      else if Z.land (u8 b1) 0x80 =? 0 then Some (u8 b1, sigp1)
      else if u8 b1 =? 0x80 then None
      else
        let lenleft := Z.land (u8 b1) 0x7F in
        if lenleft >? Z.of_nat (length sigp1) then None
        else if u8 (byte_at sigp1 0) =? 0 then None
        else if lenleft >? sizeof_size_t then None
        else
          let '(len, sigp2) := der_read_len_loop (Z.to_nat lenleft) 0 sigp1 in
          if len >? Z.of_nat (length sigp2) then None
          else if len <? 128 then None
          else Some (len, sigp2)
  end.

(** The return value of the two parsing functions and what a return of 1
    leaves behind: [None] for a return of 0, otherwise the scalars written
    and, for [secp256k1_der_parse_integer], the advanced pointer.  The
    stores that precede a return of 0 are the subject of [OutParams]
    below. *)
Definition secp256k1_der_parse_integer (sig : list byte)
  : option (scalar * list byte) :=
  match sig with
  | [] => None
  | tag :: sig1 =>
      if negb (u8 tag =? 0x02) then None
      else
        match secp256k1_der_read_len sig1 with
        | None => None
        | Some (rlen, sig2) =>
            if (rlen =? 0) || (rlen >? Z.of_nat (length sig2)) then None
            else if (u8 (byte_at sig2 0) =? 0x00) && (rlen >? 1)
                    && (Z.land (u8 (byte_at sig2 1)) 0x80 =? 0x00) then None
            else if (u8 (byte_at sig2 0) =? 0xFF) && (rlen >? 1)
                    && (Z.land (u8 (byte_at sig2 1)) 0x80 =? 0x80) then None
            else
              let overflow := Z.land (u8 (byte_at sig2 0)) 0x80 =? 0x80 in
              let '(rlen, sig3) :=
                if (rlen >? 0) && (u8 (byte_at sig2 0) =? 0)
                then (rlen - 1, tl sig2) else (rlen, sig2) in
              let overflow := overflow || (rlen >? 32) in
              let '(r, overflow) :=
                if negb overflow then
                  let ra :=
                    if rlen =? 0 then repeat x00 32
                    else memcpy (repeat x00 32) (Z.to_nat (32 - rlen))
                           sig3 (Z.to_nat rlen) in
                  secp256k1_scalar_set_b32 ra
                else (secp256k1_scalar_set_int 0, overflow) in
              let r := if overflow then secp256k1_scalar_set_int 0 else r in
              Some (r, skipn (Z.to_nat rlen) sig3)
        end
  end.

Definition secp256k1_ecdsa_sig_parse (sig : list byte)
  : option (scalar * scalar) :=
  match sig with
  | [] => None
  | b :: sig1 =>
      if negb (u8 b =? 0x30) then None
      else
        match secp256k1_der_read_len sig1 with
        | None => None
        | Some (rlen, sig2) =>
            if negb (rlen =? Z.of_nat (length sig2)) then None
            else
              match secp256k1_der_parse_integer sig2 with
              | None => None
              | Some (rr, sig3) =>
                  match secp256k1_der_parse_integer sig3 with
                  | None => None
                  | Some (rs, sig4) =>
                      match sig4 with
                      | [] => Some (rr, rs)
                      | _ :: _ => None
                      end
                  end
              end
        end
  end.

(** The loop [while (len > 1 && p[0] == 0 && p[1] < 0x80) { len--; p++; }];
    [len] never exceeds the number of bytes left behind [p]. *)
Fixpoint der_strip_loop (len : Z) (p : list byte) : Z * list byte :=
  match p with
  | b0 :: ((b1 :: _) as p') =>
      if (len >? 1) && (u8 b0 =? 0) && (u8 b1 <? 0x80)
      then der_strip_loop (len - 1) p'
      else (len, p)
  | _ => (len, p)
  end.

(** [sig] is the caller's buffer and [size] the capacity the caller announces
    in [*size]; the result is the return value, the buffer and [*size]. *)
Definition secp256k1_ecdsa_sig_serialize (sig : list byte) (size : Z)
    (ar as_ : scalar) : bool * list byte * Z :=
  let r := memcpy (repeat x00 33) 1 (secp256k1_scalar_get_b32 ar) 32 in
  let s := memcpy (repeat x00 33) 1 (secp256k1_scalar_get_b32 as_) 32 in
  let '(lenR, rp) := der_strip_loop 33 r in
  let '(lenS, sp) := der_strip_loop 33 s in
  if size <? 6 + lenS + lenR then (false, sig, 6 + lenS + lenR)
  else
    let nR := Z.to_nat lenR in
    let nS := Z.to_nat lenS in
    let sig := store sig 0 (byte_of_Z 0x30) in
    let sig := store sig 1 (byte_of_Z (4 + lenS + lenR)) in
    let sig := store sig 2 (byte_of_Z 0x02) in
    let sig := store sig 3 (byte_of_Z lenR) in
    let sig := memcpy sig 4 rp nR in
    let sig := store sig (4 + nR) (byte_of_Z 0x02) in
    let sig := store sig (5 + nR) (byte_of_Z lenS) in
    let sig := memcpy sig (nR + 6) sp nS in
    (true, sig, 6 + lenS + lenR).

(** ** The parser with its output parameters *)

(** [secp256k1_der_parse_integer] and [secp256k1_ecdsa_sig_parse] once more,
    with the scalars that they write through [r], [rr] and [rs] threaded as
    state: the arguments are the values these scalars hold before the call,
    the results the values they hold after it, together with the return
    value.  A call of [secp256k1_der_parse_integer] that returns 1 gives the
    pointer [*sig] behind the field; after a return of 0 its caller returns
    at once and reads the pointer no more, which is [None] here. *)
Module OutParams.

Definition secp256k1_der_parse_integer (r : scalar) (sig : list byte)
  : scalar * option (list byte) :=
  match sig with
  | [] => (r, None)
  | tag :: sig1 =>
      if negb (u8 tag =? 0x02) then (r, None)
      else
        match secp256k1_der_read_len sig1 with
        | None => (r, None)
        | Some (rlen, sig2) =>
            if (rlen =? 0) || (rlen >? Z.of_nat (length sig2)) then (r, None)
            else if (u8 (byte_at sig2 0) =? 0x00) && (rlen >? 1)
                    && (Z.land (u8 (byte_at sig2 1)) 0x80 =? 0x00)
            then (r, None)
            else if (u8 (byte_at sig2 0) =? 0xFF) && (rlen >? 1)
                    && (Z.land (u8 (byte_at sig2 1)) 0x80 =? 0x80)
            then (r, None)
            else
              let overflow := Z.land (u8 (byte_at sig2 0)) 0x80 =? 0x80 in
              let '(rlen, sig3) :=
                if (rlen >? 0) && (u8 (byte_at sig2 0) =? 0)
                then (rlen - 1, tl sig2) else (rlen, sig2) in
              let overflow := overflow || (rlen >? 32) in
              let '(r, overflow) :=
                if negb overflow then
                  let ra :=
                    if rlen =? 0 then repeat x00 32
                    else memcpy (repeat x00 32) (Z.to_nat (32 - rlen))
                           sig3 (Z.to_nat rlen) in
                  secp256k1_scalar_set_b32 ra
                else (r, overflow) in
              let r := if overflow then secp256k1_scalar_set_int 0 else r in
              (r, Some (skipn (Z.to_nat rlen) sig3))
        end
  end.

(** The result is the return value and the scalars behind [rr] and [rs]
    after the call. *)
Definition secp256k1_ecdsa_sig_parse (rr rs : scalar) (sig : list byte)
  : bool * scalar * scalar :=
  match sig with
  | [] => (false, rr, rs)
  | b :: sig1 =>
      if negb (u8 b =? 0x30) then (false, rr, rs)
      else
        match secp256k1_der_read_len sig1 with
        | None => (false, rr, rs)
        | Some (rlen, sig2) =>
            if negb (rlen =? Z.of_nat (length sig2)) then (false, rr, rs)
            else
              match secp256k1_der_parse_integer rr sig2 with
              | (rr, None) => (false, rr, rs)
              | (rr, Some sig3) =>
                  match secp256k1_der_parse_integer rs sig3 with
                  | (rs, None) => (false, rr, rs)
                  | (rs, Some sig4) =>
                      match sig4 with
                      | [] => (true, rr, rs)
                      | _ :: _ => (false, rr, rs)
                      end
                  end
              end
        end
  end.

End OutParams.

(** ** Field elements and group elements *)

(** Modelled from the spec: [field.h] is not part of the sources.  A field
    element is an integer modulo the field prime; the model keeps the
    canonical representative, so normalisation is reduction modulo [p]. *)
Definition fe := Z.

Definition secp256k1_fe_normalize (a : fe) : fe := a mod field_p.

Definition secp256k1_fe_get_b32 (a : fe) : list byte := be_encode 32 a.

(** Returns the element read and whether the value read was below [p]. *)
Definition secp256k1_fe_set_b32_limit (b32 : list byte) : fe * bool :=
  let v := be_decode (firstn 32 b32) in
  (v mod field_p, v <? field_p).

Definition secp256k1_fe_cmp_var (a b : fe) : Z :=
  match a ?= b with
  | Lt => -1
  | Eq => 0
  | Gt => 1
  end.

Definition secp256k1_fe_add (a b : fe) : fe := (a + b) mod field_p.

Definition secp256k1_fe_mul (a b : fe) : fe := (a * b) mod field_p.

Definition secp256k1_fe_is_odd (a : fe) : bool := Z.odd a.

(** Modelled from the spec: [group.h] is not part of the sources.  A group
    element is a curve point in affine or in Jacobian coordinates, with a
    flag for the point at infinity. *)
Record secp256k1_ge : Type := mk_ge {
  ge_x : fe;
  ge_y : fe;
  ge_infinity : bool
}.

Record secp256k1_gej : Type := mk_gej {
  gej_x : fe;
  gej_y : fe;
  gej_z : fe;
  gej_infinity : bool
}.

Definition secp256k1_gej_is_infinity (a : secp256k1_gej) : bool :=
  gej_infinity a.

(** The test [x * a.z^2 mod p == a.x] that the comment in
    [secp256k1_ecdsa_sig_verify] ascribes to [secp256k1_gej_eq_x_var]. *)
Definition secp256k1_gej_eq_x_var (x : fe) (a : secp256k1_gej) : bool :=
  secp256k1_fe_mul x (secp256k1_fe_mul (gej_z a) (gej_z a))
  =? secp256k1_fe_normalize (gej_x a).

(** ** SHA-256 *)

(** Modelled from the spec: [hash.h] is not part of the sources.  The hash
    primitive is SHA-256 (FIPS 180-4) with an exposed state: the eight
    chaining words, the bytes not yet compressed and the byte count. *)
Definition w32 (x : Z) : Z := x mod 2 ^ 32.

Definition rotr (k x : Z) : Z :=
  Z.lor (Z.shiftr x k) (w32 (Z.shiftl x (32 - k))).

Definition sha_Ch (x y z : Z) : Z :=
  Z.lxor (Z.land x y) (Z.land (Z.lxor x 0xFFFFFFFF) z).
Definition sha_Maj (x y z : Z) : Z :=
  Z.lxor (Z.lxor (Z.land x y) (Z.land x z)) (Z.land y z).
Definition sha_Sigma0 (x : Z) : Z :=
  Z.lxor (Z.lxor (rotr 2 x) (rotr 13 x)) (rotr 22 x).
Definition sha_Sigma1 (x : Z) : Z :=
  Z.lxor (Z.lxor (rotr 6 x) (rotr 11 x)) (rotr 25 x).
Definition sha_sigma0 (x : Z) : Z :=
  Z.lxor (Z.lxor (rotr 7 x) (rotr 18 x)) (Z.shiftr x 3).
Definition sha_sigma1 (x : Z) : Z :=
  Z.lxor (Z.lxor (rotr 17 x) (rotr 19 x)) (Z.shiftr x 10).

Definition sha_K : list Z :=
  (* the first 32 fractional bits of the cube roots of the first 64 primes *)
  [
   1116352408; 1899447441; 3049323471; 3921009573; 961987163;
   1508970993; 2453635748; 2870763221; 3624381080; 310598401;
   607225278; 1426881987; 1925078388; 2162078206; 2614888103;
   3248222580; 3835390401; 4022224774; 264347078; 604807628;
   770255983; 1249150122; 1555081692; 1996064986; 2554220882;
   2821834349; 2952996808; 3210313671; 3336571891; 3584528711;
   113926993; 338241895; 666307205; 773529912; 1294757372;
   1396182291; 1695183700; 1986661051; 2177026350; 2456956037;
   2730485921; 2820302411; 3259730800; 3345764771; 3516065817;
   3600352804; 4094571909; 275423344; 430227734; 506948616;
   659060556; 883997877; 958139571; 1322822218; 1537002063;
   1747873779; 1955562222; 2024104815; 2227730452; 2361852424;
   2428436474; 2756734187; 3204031479; 3329325298
  ].

(** The message schedule, most recent word first. *)
Fixpoint sha_schedule (k : nat) (w : list Z) : list Z :=
  match k with
  | O => w
  | S k' =>
      let x := w32 (sha_sigma1 (nth 1 w 0) + nth 6 w 0
                    + sha_sigma0 (nth 14 w 0) + nth 15 w 0) in
      sha_schedule k' (x :: w)
  end.

Fixpoint sha_words (n : nat) (bs : list byte) : list Z :=
  match n with
  | O => []
  | S k => be_decode (firstn 4 bs) :: sha_words k (skipn 4 bs)
  end.

Definition sha_round (st : list Z) (kw : Z * Z) : list Z :=
  match st with
  | [a; b; c; d; e; f; g; h] =>
      let t1 := h + sha_Sigma1 e + sha_Ch e f g + fst kw + snd kw in
      let t2 := sha_Sigma0 a + sha_Maj a b c in
      [w32 (t1 + t2); a; b; c; w32 (d + t1); e; f; g]
  | _ => st
  end.

Definition secp256k1_sha256_transform (s : list Z) (block : list byte)
  : list Z :=
  let w := rev (sha_schedule 48 (rev (sha_words 16 block))) in
  let st := fold_left sha_round (combine sha_K w) s in
  map (fun xy => w32 (fst xy + snd xy)) (combine s st).

Record secp256k1_sha256 : Type := mk_sha256 {
  sha_s : list Z;
  sha_buf : list byte;
  sha_bytes : Z
}.

Definition secp256k1_sha256_initialize : secp256k1_sha256 :=
  mk_sha256
    (* the first 32 fractional bits of the square roots of 2, 3, 5, 7, 11,
       13, 17 and 19 *)
    [1779033703; 3144134277; 1013904242; 2773480762;
     1359893119; 2600822924; 528734635; 1541459225]
    [] 0.

(** Compression of every full 64-byte block of the pending bytes. *)
Fixpoint sha_absorb (fuel : nat) (s : list Z) (pending : list byte)
  : list Z * list byte :=
  match fuel with
  | O => (s, pending)
  | S k =>
      if (64 <=? length pending)%nat
      then sha_absorb k (secp256k1_sha256_transform s (firstn 64 pending))
             (skipn 64 pending)
      else (s, pending)
  end.

Definition secp256k1_sha256_write (hash : secp256k1_sha256)
    (data : list byte) (len : nat) : secp256k1_sha256 :=
  let pending := sha_buf hash ++ firstn len data in
  let '(s, rest) := sha_absorb (length pending) (sha_s hash) pending in
  mk_sha256 s rest (sha_bytes hash + Z.of_nat len).

Definition secp256k1_sha256_finalize (hash : secp256k1_sha256) : list byte :=
  let sizedesc := be_encode 8 (Z.shiftl (sha_bytes hash) 3) in
  let padlen := Z.to_nat (1 + (119 - sha_bytes hash mod 64) mod 64) in
  let hash := secp256k1_sha256_write hash (x80 :: repeat x00 63) padlen in
  let hash := secp256k1_sha256_write hash sizedesc 8 in
  flat_map (be_encode 4) (sha_s hash).

(** ** ECDSA and the stealth-nonce operations *)

Section Ecdsa.

(** The curve arithmetic of [group.h], [ecmult.h] and [ecmult_gen.h], which
    the sources only call: multiplication of the generator by a scalar,
    the double multiplication [na * A + ng * G], and the two conversions
    between affine and Jacobian coordinates. *)
Variable secp256k1_ecmult_gen : scalar -> secp256k1_gej.
Variable secp256k1_ecmult :
  secp256k1_gej -> scalar -> scalar -> secp256k1_gej.
Variable secp256k1_ge_set_gej : secp256k1_gej -> secp256k1_ge.
Variable secp256k1_gej_set_ge : secp256k1_ge -> secp256k1_gej.

Definition secp256k1_ecdsa_sig_verify (sigr sigs : scalar)
    (pubkey : secp256k1_ge) (message : scalar) : bool :=
  if secp256k1_scalar_is_zero sigr || secp256k1_scalar_is_zero sigs
  then false
  else
    let sn := secp256k1_scalar_inverse_var sigs in
    let u1 := secp256k1_scalar_mul sn message in
    let u2 := secp256k1_scalar_mul sn sigr in
    let pubkeyj := secp256k1_gej_set_ge pubkey in
    let pr := secp256k1_ecmult pubkeyj u2 u1 in
    if secp256k1_gej_is_infinity pr then false
    else
      let c := secp256k1_scalar_get_b32 sigr in
      let xr := fst (secp256k1_fe_set_b32_limit c) in
      if secp256k1_gej_eq_x_var xr pr then true
      else if secp256k1_fe_cmp_var xr secp256k1_ecdsa_const_p_minus_order
              >=? 0 then false
      else
        let xr := secp256k1_fe_add xr secp256k1_ecdsa_const_order_as_fe in
        if secp256k1_gej_eq_x_var xr pr then true
        else false.

(** The tagged hash of both stealth operations: SHA-256 restarted from a
    fixed midstate with 64 bytes counted as absorbed, then fed the stealth
    factor and the data hash. *)
Definition stealth_midstate : list Z :=
  [0x9cecba11; 0x23925381; 0x11679112; 0xd1627e0f;
   0x97c87550; 0x003cc765; 0x90f61164; 0x33e9b66a].

Definition stealth_hash (stealthFactor dataHashPointer : list byte)
  : list byte :=
  let sha := secp256k1_sha256_initialize in
  let sha := mk_sha256 stealth_midstate (sha_buf sha) (sha_bytes sha) in
  let sha := mk_sha256 (sha_s sha) (sha_buf sha) 64 in
  let sha := secp256k1_sha256_write sha stealthFactor 32 in
  let sha := secp256k1_sha256_write sha dataHashPointer 32 in
  secp256k1_sha256_finalize sha.

(** The result is the return value and the bytes written to
    [stealthResult]. *)
Definition secp256k1_generate_stealth_J (stealthFactor : list byte)
  : Z * list byte :=
  let '(stealthResultScalar, overflow) :=
    secp256k1_scalar_set_b32 stealthFactor in
  let rp := secp256k1_ecmult_gen stealthResultScalar in
  let stealthPoint := secp256k1_ge_set_gej rp in
  let x := secp256k1_fe_normalize (ge_x stealthPoint) in
  let y := secp256k1_fe_normalize (ge_y stealthPoint) in
  let stealthResult := secp256k1_fe_get_b32 x in
  (1, stealthResult).

Definition secp256k1_ecdsa_verify_timestamped_r
    (dataHashPointer stealthFactor : list byte) (expectedR : scalar)
  : bool :=
  let hash := stealth_hash stealthFactor dataHashPointer in
  let '(hashResult, overflow) := secp256k1_scalar_set_b32 hash in
  let rp := secp256k1_ecmult_gen hashResult in
  let resultPoint := secp256k1_ge_set_gej rp in
  let x := secp256k1_fe_normalize (ge_x resultPoint) in
  let y := secp256k1_fe_normalize (ge_y resultPoint) in
  let bytes := secp256k1_fe_get_b32 x in
  let '(visibleResult, overflow) := secp256k1_scalar_set_b32 bytes in
  let '(stealthFactorScalar, overflow) :=
    secp256k1_scalar_set_b32 stealthFactor in
  let sigr := secp256k1_scalar_add stealthFactorScalar visibleResult in
  secp256k1_scalar_eq sigr expectedR.

(** The result is the return value, the bytes written to [stealthFactor]
    and the bytes written to [k]. *)
Definition secp256k1_generate_secure_k (j dataHashPointer : list byte)
  : Z * list byte * list byte :=
  let '(jScalar, overflow) := secp256k1_scalar_set_b32 j in
  let rp := secp256k1_ecmult_gen jScalar in
  let stealthPoint := secp256k1_ge_set_gej rp in
  let x := secp256k1_fe_normalize (ge_x stealthPoint) in
  let y := secp256k1_fe_normalize (ge_y stealthPoint) in
  let stealthFactor := secp256k1_fe_get_b32 x in
  let hash := stealth_hash stealthFactor dataHashPointer in
  let '(hashResult, overflow) := secp256k1_scalar_set_b32 hash in
  let secureK := secp256k1_scalar_add jScalar hashResult in
  let k := secp256k1_scalar_get_b32 secureK in
  (1, stealthFactor, k).

(** [want_recid] tells whether the caller passes a non-null [recid]; the
    result is the return value, [sigr], [sigs] and [*recid]. *)
Definition secp256k1_ecdsa_sig_sign (seckey message nonce : scalar)
    (want_recid : bool) : bool * scalar * scalar * option Z :=
  let rp := secp256k1_ecmult_gen nonce in
  let r := secp256k1_ge_set_gej rp in
  let rx := secp256k1_fe_normalize (ge_x r) in
  let ry := secp256k1_fe_normalize (ge_y r) in
  let b := secp256k1_fe_get_b32 rx in
  let '(sigr, overflow) := secp256k1_scalar_set_b32 b in
  let recid :=
    if want_recid
    then Some (Z.lor (Z.shiftl (Z.b2z overflow) 1)
                 (Z.b2z (secp256k1_fe_is_odd ry)))
    else None in
  let n := secp256k1_scalar_mul sigr seckey in
  let n := secp256k1_scalar_add n message in
  let sigs := secp256k1_scalar_inverse nonce in
  let sigs := secp256k1_scalar_mul sigs n in
  let high := secp256k1_scalar_is_high sigs in
  let sigs := secp256k1_scalar_cond_negate sigs high in
  let recid := option_map (fun v => Z.lxor v (Z.b2z high)) recid in
  (negb (secp256k1_scalar_is_zero sigr)
   && negb (secp256k1_scalar_is_zero sigs), sigr, sigs, recid).

End Ecdsa.

(** ** The curve secp256k1 *)

(** Modelled from the spec: the arithmetic substrate is not part of the
    sources.  The curve is [y^2 = x^3 + 7] over the field of [field_p]
    elements, in Jacobian coordinates [(X, Y, Z)] standing for the affine
    point [(X / Z^2, Y / Z^3)]; scalar multiplication is double-and-add. *)
Module Curve.

(** Reduction modulo [p = 2^256 - 0x1000003D1] of a product of two field
    elements, by folding the high half onto the low half twice. *)
Definition fe_fold (x : Z) : Z :=
  Z.land x (2 ^ 256 - 1) + 0x1000003D1 * Z.shiftr x 256.

Definition fe_reduce (x : Z) : fe :=
  let y := fe_fold (fe_fold x) in
  if field_p <=? y then y - field_p else y.

Definition fmul (a b : fe) : fe := fe_reduce (a * b).
Definition fsub (a b : fe) : fe :=
  let d := a - b in if d <? 0 then d + field_p else d.

(** Inversion in the field. *)
Definition finv (a : fe) : fe := Z.invmod a field_p.

Definition infinity_gej : secp256k1_gej := mk_gej 0 0 0 true.

Definition gej_double (a : secp256k1_gej) : secp256k1_gej :=
  if gej_infinity a || (gej_y a =? 0) then infinity_gej
  else
    let '(x, y, z) := (gej_x a, gej_y a, gej_z a) in
    let yy := fmul y y in
    let s := fmul 4 (fmul x yy) in
    let m := fmul 3 (fmul x x) in
    let x3 := fsub (fmul m m) (fmul 2 s) in
    let y3 := fsub (fmul m (fsub s x3)) (fmul 8 (fmul yy yy)) in
    mk_gej x3 y3 (fmul 2 (fmul y z)) false.

Definition gej_add (a b : secp256k1_gej) : secp256k1_gej :=
  if gej_infinity a then b
  else if gej_infinity b then a
  else
    let z1z1 := fmul (gej_z a) (gej_z a) in
    let z2z2 := fmul (gej_z b) (gej_z b) in
    let u1 := fmul (gej_x a) z2z2 in
    let u2 := fmul (gej_x b) z1z1 in
    let s1 := fmul (gej_y a) (fmul (gej_z b) z2z2) in
    let s2 := fmul (gej_y b) (fmul (gej_z a) z1z1) in
    let h := fsub u2 u1 in
    let r := fsub s2 s1 in
    if h =? 0 then (if r =? 0 then gej_double a else infinity_gej)
    else
      let hh := fmul h h in
      let hhh := fmul h hh in
      let v := fmul u1 hh in
      let x3 := fsub (fsub (fmul r r) hhh) (fmul 2 v) in
      let y3 := fsub (fmul r (fsub v x3)) (fmul s1 hhh) in
      mk_gej x3 y3 (fmul h (fmul (gej_z a) (gej_z b))) false.

Fixpoint gej_mul_pos (a : secp256k1_gej) (k : positive) : secp256k1_gej :=
  match k with
  | xH => a
  | xO k' => gej_double (gej_mul_pos a k')
  | xI k' => gej_add (gej_double (gej_mul_pos a k')) a
  end.

Definition gej_mul (a : secp256k1_gej) (k : scalar) : secp256k1_gej :=
  match k with
  | Zpos k' => gej_mul_pos a k'
  | _ => infinity_gej
  end.

Definition generator_x : fe :=
  0x79BE667EF9DCBBAC55A06295CE870B07029BFCDB2DCE28D959F2815B16F81798.
Definition generator_y : fe :=
  0x483ADA7726A3C4655DA4FBFC0E1108A8FD17B448A68554199C47D08FFB10D4B8.

Definition generator : secp256k1_gej :=
  mk_gej generator_x generator_y 1 false.

Definition secp256k1_ecmult_gen (gn : scalar) : secp256k1_gej :=
  gej_mul generator gn.

Definition secp256k1_ecmult (a : secp256k1_gej) (na ng : scalar)
  : secp256k1_gej :=
  gej_add (gej_mul a na) (gej_mul generator ng).

Definition secp256k1_ge_set_gej (a : secp256k1_gej) : secp256k1_ge :=
  if gej_infinity a then mk_ge 0 0 true
  else
    let zi := finv (gej_z a) in
    let zi2 := fmul zi zi in
    mk_ge (fmul (gej_x a) zi2) (fmul (gej_y a) (fmul zi zi2)) false.

Definition secp256k1_gej_set_ge (a : secp256k1_ge) : secp256k1_gej :=
  mk_gej (ge_x a) (ge_y a) 1 (ge_infinity a).

Definition ecdsa_sig_sign :=
  secp256k1_ecdsa_sig_sign secp256k1_ecmult_gen secp256k1_ge_set_gej.
Definition ecdsa_sig_verify :=
  secp256k1_ecdsa_sig_verify secp256k1_ecmult secp256k1_gej_set_ge.
Definition generate_stealth_J :=
  secp256k1_generate_stealth_J secp256k1_ecmult_gen secp256k1_ge_set_gej.
Definition generate_secure_k :=
  secp256k1_generate_secure_k secp256k1_ecmult_gen secp256k1_ge_set_gej.
Definition ecdsa_verify_timestamped_r :=
  secp256k1_ecdsa_verify_timestamped_r
    secp256k1_ecmult_gen secp256k1_ge_set_gej.

End Curve.

(** ** DER encodings, as X.690 states them *)

(** The shortest length octets for a content of [L] bytes: one byte below
    128, otherwise the count of length bytes with the top bit set, followed
    by the length in big-endian without leading zero byte. *)
Definition der_length_octets (L : Z) : list byte :=
  if L <? 128 then [byte_of_Z L]
  else
    let k := Z.to_nat (Z.log2 L / 8 + 1) in
    byte_of_Z (0x80 + Z.of_nat k) :: be_encode k L.

(** Number of binary digits of a non-negative integer. *)
Definition int_bits (v : Z) : Z := if v =? 0 then 0 else Z.log2 v + 1.

(** The shortest two's-complement content octets of a non-negative integer:
    its digits and one sign bit, rounded up to whole bytes. *)
Definition der_integer_octets (v : Z) : list byte :=
  be_encode (Z.to_nat (int_bits v / 8 + 1)) v.

(** A primitive INTEGER with the given content octets. *)
Definition der_integer (content : list byte) : list byte :=
  x02 :: der_length_octets (Z.of_nat (length content)) ++ content.

(** The SEQUENCE of the two INTEGERs of a signature. *)
Definition der_signature (r s : Z) : list byte :=
  let body := der_integer (der_integer_octets r)
              ++ der_integer (der_integer_octets s) in
  x30 :: der_length_octets (Z.of_nat (length body)) ++ body.

(** A length field that X.690 forbids in DER: the octet [0xFF], the
    indefinite form [0x80], or a long form that starts with a zero byte or
    that encodes a length below 128. *)
Definition der_length_violation (bs : list byte) : Prop :=
  match bs with
  | [] => False
  | b1 :: rest =>
      u8 b1 = 0xFF \/ u8 b1 = 0x80
      \/ (0x80 < u8 b1 < 0xFF
          /\ (u8 (byte_at rest 0) = 0
              \/ be_decode (firstn (Z.to_nat (u8 b1 - 0x80)) rest) < 128))
  end.

(** Content octets with excessive padding: [0x00] before a byte with a clear
    top bit, or [0xFF] before a byte with the top bit set. *)
Definition der_excess_padding (content : list byte) : Prop :=
  match content with
  | b0 :: b1 :: _ =>
      (u8 b0 = 0x00 /\ u8 b1 < 0x80) \/ (u8 b0 = 0xFF /\ 0x80 <= u8 b1)
  | _ => False
  end.

(** An INTEGER field that strict DER forbids: its length field is forbidden,
    or its content octets, as many as the length field announces, have
    excessive padding. *)
Definition der_integer_violation (field : list byte) : Prop :=
  match field with
  | [] => False
  | _ :: lenf =>
      der_length_violation lenf
      \/ exists rlen cr,
           secp256k1_der_read_len lenf = Some (rlen, cr)
           /\ der_excess_padding (firstn (Z.to_nat rlen) cr)
  end.

(** What the content octets of an INTEGER field stand for in this codec: the
    value 0 when the top bit of the first octet is set, when more than 32
    octets remain behind one leading zero octet, or when the value reaches
    the group order, and the big-endian value otherwise. *)
Definition der_integer_value (content : list byte) : scalar :=
  let body := if u8 (byte_at content 0) =? 0 then tl content else content in
  if (0x80 <=? u8 (byte_at content 0)) || (32 <? Z.of_nat (length body))
     || (order_n <=? be_decode body)
  then 0 else be_decode body.

(** The SEQUENCE of two INTEGERs with the given content octets. *)
Definition der_sequence (cr cs : list byte) : list byte :=
  let body := der_integer cr ++ der_integer cs in
  x30 :: der_length_octets (Z.of_nat (length body)) ++ body.

(** Content octets that an INTEGER of strict DER may carry: at least one
    octet, a count that fits [size_t], and no excessive padding. *)
Definition der_content (c : list byte) : Prop :=
  c <> [] /\ Z.of_nat (length c) < size_t_modulus /\ ~ der_excess_padding c.

(** Content octets that do not fit a scalar: the top bit of the first octet
    is set, more than 32 octets remain behind one leading zero octet, or the
    value is at least the group order. *)
Definition der_overflows (content : list byte) : Prop :=
  0x80 <= u8 (byte_at content 0)
  \/ 32 < Z.of_nat (length (if u8 (byte_at content 0) =? 0
                            then tl content else content))
  \/ order_n <= be_decode content.

(** ** Concrete inputs on secp256k1 *)

(** The curve equation [y^2 = x^3 + 7] for an affine point. *)
Definition ge_on_curve (a : secp256k1_ge) : bool :=
  (ge_y a * ge_y a) mod field_p
  =? (ge_x a * ge_x a * ge_x a + 7) mod field_p.


(** A curve point whose x-coordinate is [n + 2], and that point multiplied
    by the inverse of 2 modulo [n]. *)
Definition point_x_above_order : secp256k1_ge :=
  mk_ge (order_n + 2)
    0x36b1aa62eb77c1973025cbcbea9740eed8eacdab8772268b395064453269d1d3
    false.

Definition half_point_x_above_order : secp256k1_ge :=
  mk_ge 0xad802f2145df548ce1fc418b851cb32669c5a6bb939e6caf744de90310f8f1ff
    0xa34b75cbb285ea8c575dab37565ef61d056fb6d6ffc0abe7f8da8d9aebb3d023
    false.

(** The message for which signing with secret key 1 and nonce 1 computes
    the raw value [s = n - 1]. *)
Definition high_s_message : Z := order_n - 1 - Curve.generator_x.

(** The signature of the message 5 under the secret key 3 and the nonce 7 in
    the model of the curve contract. *)
Definition log_sig_r : Z :=
  0xfffffffffffffffffffffffffffffff71ac80a4ecafc61a23ec095dfb17bdf7c.
Definition log_sig_s : Z :=
  0x4924924924924924924924924924924c0c272ba793ec489c00684c726d3aced4.

(** The secret [j = 1] and the all-zero data hash, each on 32 bytes. *)
Definition stealth_secret_one : list byte := be_encode 32 1.
Definition data_hash_zero : list byte := repeat x00 32.

(** ** The tagged hash of the stealth operations *)

(** SHA-256 of a whole message: [secp256k1_sha256_initialize], one
    [secp256k1_sha256_write] and [secp256k1_sha256_finalize]. *)
Definition sha256 (msg : list byte) : list byte :=
  secp256k1_sha256_finalize
    (secp256k1_sha256_write secp256k1_sha256_initialize msg (length msg)).

(** The ASCII string [BIP0340/challenge]. *)
Definition bip340_challenge_tag : list byte :=
  [x42; x49; x50; x30; x33; x34; x30; x2f; x63; x68; x61; x6c; x6c; x65;
   x6e; x67; x65].

(** ** The file text of the [timestampdata] call *)

(** The part of [wallet/rpc/timestampdata.cpp] that turns the file into the
    text given to [ParseHex]: an input stream over the bytes of the file,
    read with [get] as long as the stream is good, each result written to a
    string stream as an [int].  The wallet, the hash and the transaction
    are behind interfaces that the sources only call. *)
Module Rpc.

Import String DecimalString.

(** A [std::ifstream]: the bytes not yet read and whether the stream is
    good; a file that cannot be opened gives a stream that is not good. *)
Record ifstream : Type := mk_ifstream {
  remaining : list byte;
  good : bool
}.

Definition ifstream_open (content : option (list byte)) : ifstream :=
  match content with
  | Some bs => mk_ifstream bs true
  | None => mk_ifstream [] false
  end.

(** [file.get()]: on a good stream the next byte as a non-negative [int],
    and otherwise, or when no byte is left, the end-of-file value [-1] with
    the stream no longer good. *)
Definition ifstream_get (file : ifstream) : Z * ifstream :=
  if good file then
    match remaining file with
    | b :: rest => (u8 b, mk_ifstream rest true)
    | [] => (-1, mk_ifstream [] false)
    end
  else (-1, mk_ifstream (remaining file) false).

(** [data << v] for an [int], in the classic locale: the decimal numeral is
    appended. *)
Definition ostream_put_int (data : string) (v : Z) : string :=
  data ++ NilZero.string_of_int (Z.to_int v).

(** The loop [while (file) { data << file.get(); }], for at most [fuel]
    turns. *)
Fixpoint while_file (fuel : nat) (file : ifstream) (data : string)
  : string :=
  match fuel with
  | O => data
  | S k =>
      if good file
      then let '(c, file') := ifstream_get file in
           while_file k file' (ostream_put_int data c)
      else data
  end.

(** The string [data.str()] for a file with the given content, [None] for a
    file that cannot be opened. *)
Definition file_text (fuel : nat) (content : option (list byte))
  : string :=
  let file := ifstream_open content in
  if good file then while_file fuel file EmptyString else EmptyString.

(** The decimal numerals of the bytes, one after the other. *)
Definition numerals (bs : list byte) : string :=
  concat EmptyString
    (map (fun b => NilZero.string_of_int (Z.to_int (u8 b))) bs).

End Rpc.

(** ** Primality certificates *)

(** A Lucas certificate of a number [N] is a base [g] and the prime factors
    of [N - 1] with their multiplicity: [g ^ (N - 1) = 1] modulo [N], and
    [g ^ ((N - 1) / q) <> 1] for each factor [q].  The factors are 2 or
    numbers certified further along the list. *)
Definition lucas_check_entry (known : list Z) (e : Z * Z * list Z) : bool :=
  let '(N, g, fs) := e in
  (1 <? N) && (fold_right Z.mul 1 fs =? N - 1) && (modpow g (N - 1) N =? 1)
  && forallb (fun q => existsb (Z.eqb q) known
                       && negb (modpow g ((N - 1) / q) N =? 1))
       (nodup Z.eq_dec fs).

Fixpoint lucas_check (cs : list (Z * Z * list Z)) : bool :=
  match cs with
  | [] => true
  | e :: cs' =>
      lucas_check cs'
      && lucas_check_entry (2 :: map (fun c => fst (fst c)) cs') e
  end.

(** The certificate of the group order. *)
Definition order_n_certificate : list (Z * Z * list Z) :=
  [
   (order_n,
    7, [2; 2; 2; 2; 2; 2; 3; 149; 631; 107361793816595537;
         174723607534414371449; 341948486974166000522343609283189]);
   (341948486974166000522343609283189, 2, [2; 2; 3; 3; 3; 109;
         29047611873442575647497758179]);
   (29047611873442575647497758179, 2, [2; 293; 305873; 545358713;
         297159362677]);
   (297159362677, 2, [2; 2; 3; 3; 11; 461; 1627771]);
   (1627771, 3, [2; 3; 5; 29; 1871]);
   (1871, 14, [2; 5; 11; 17]);
   (461, 2, [2; 2; 5; 23]);
   (545358713, 5, [2; 2; 2; 41; 59; 28181]);
   (28181, 2, [2; 2; 5; 1409]);
   (1409, 3, [2; 2; 2; 2; 2; 2; 2; 11]);
   (305873, 3, [2; 2; 2; 2; 7; 2731]);
   (2731, 3, [2; 3; 5; 7; 13]);
   (293, 2, [2; 2; 73]);
   (73, 5, [2; 2; 2; 3; 3]);
   (109, 6, [2; 2; 3; 3; 3]);
   (174723607534414371449, 3, [2; 2; 2; 17; 59; 4051; 120233; 44706919]);
   (44706919, 6, [2; 3; 797; 9349]);
   (9349, 2, [2; 2; 3; 19; 41]);
   (41, 6, [2; 2; 2; 5]);
   (797, 2, [2; 2; 199]);
   (199, 3, [2; 3; 3; 11]);
   (120233, 3, [2; 2; 2; 7; 19; 113]);
   (113, 3, [2; 2; 2; 2; 7]);
   (19, 2, [2; 3; 3]);
   (4051, 10, [2; 3; 3; 3; 3; 5; 5]);
   (59, 2, [2; 29]);
   (29, 2, [2; 2; 7]);
   (17, 3, [2; 2; 2; 2]);
   (107361793816595537, 3, [2; 2; 2; 2; 16699; 85831; 4681609]);
   (4681609, 23, [2; 2; 2; 3; 97; 2011]);
   (2011, 3, [2; 3; 5; 67]);
   (67, 2, [2; 3; 11]);
   (97, 5, [2; 2; 2; 2; 2; 3]);
   (85831, 3, [2; 3; 5; 2861]);
   (2861, 2, [2; 2; 5; 11; 13]);
   (13, 2, [2; 2; 3]);
   (16699, 3, [2; 3; 11; 11; 23]);
   (23, 5, [2; 11]);
   (11, 2, [2; 5]);
   (631, 3, [2; 3; 3; 5; 7]);
   (7, 3, [2; 3]);
   (5, 2, [2; 2]);
   (149, 2, [2; 2; 37]);
   (37, 2, [2; 2; 3; 3]);
   (3, 2, [2])
  ].

(** ** A model of the curve contract *)

(** The group generated by [G] is cyclic of order [n]; in this model a point
    [k * G] is represented by [k] itself, kept in the y-coordinate, with an
    x-coordinate that is the same for [k] and [n - k].  It shows that the
    contract of the curve arithmetic stated below can be met; it is not the
    curve secp256k1. *)
Module LogModel.

Definition point_x (k : scalar) : fe := (k * (order_n - k)) mod field_p.

Definition secp256k1_ecmult_gen (gn : scalar) : secp256k1_gej :=
  mk_gej (point_x gn) gn 1 (gn =? 0).

Definition secp256k1_ecmult (a : secp256k1_gej) (na ng : scalar)
  : secp256k1_gej :=
  secp256k1_ecmult_gen ((na * gej_y a + ng) mod order_n).

Definition secp256k1_ge_set_gej (a : secp256k1_gej) : secp256k1_ge :=
  mk_ge (gej_x a) (gej_y a) (gej_infinity a).

Definition secp256k1_gej_set_ge (a : secp256k1_ge) : secp256k1_gej :=
  mk_gej (ge_x a) (ge_y a) 1 (ge_infinity a).

Definition ge_is (a : secp256k1_ge) (k : scalar) : Prop :=
  a = mk_ge (point_x k) k false.

Definition gej_is (a : secp256k1_gej) (k : scalar) : Prop :=
  a = secp256k1_ecmult_gen k.

Definition ecdsa_sig_sign :=
  secp256k1_ecdsa_sig_sign secp256k1_ecmult_gen secp256k1_ge_set_gej.
Definition ecdsa_sig_verify :=
  secp256k1_ecdsa_sig_verify secp256k1_ecmult secp256k1_gej_set_ge.

End LogModel.

(** ** Bytes: basic facts *)

(** Boolean tests in hypotheses, turned into the propositions they decide. *)
Ltac zbool :=
  repeat match goal with
  | H : (_ && _) = true |- _ => apply andb_prop in H; destruct H
  | H : (_ || _) = false |- _ => apply orb_false_elim in H; destruct H
  | H : negb _ = true |- _ => apply negb_true_iff in H
  | H : negb _ = false |- _ => apply negb_false_iff in H
  | H : (_ >? _) = _ |- _ => rewrite Z.gtb_ltb in H
  | H : (_ >=? _) = _ |- _ => rewrite Z.geb_leb in H
  | H : (_ =? _) = true |- _ => apply Z.eqb_eq in H
  | H : (_ =? _) = false |- _ => apply Z.eqb_neq in H
  | H : (_ <? _) = true |- _ => apply Z.ltb_lt in H
  | H : (_ <? _) = false |- _ => apply Z.ltb_ge in H
  | H : (_ <=? _) = true |- _ => apply Z.leb_le in H
  | H : (_ <=? _) = false |- _ => apply Z.leb_gt in H
  end.

Lemma u8_range (b : byte) : 0 <= u8 b < 256.
Proof.
  unfold u8. pose proof (Byte.to_N_bounded b) as H. lia.
Qed.

Lemma u8_byte_of_Z (z : Z) : u8 (byte_of_Z z) = z mod 256.
Proof.
  unfold u8, byte_of_Z.
  assert (Hr : 0 <= z mod 256 < 256) by (apply Z.mod_pos_bound; lia).
  destruct (Byte.of_N (Z.to_N (z mod 256))) as [b|] eqn:E.
  - apply Byte.to_of_N in E. rewrite E. rewrite Z2N.id; lia.
  - apply Byte.of_N_None_iff in E. lia.
Qed.

Lemma byte_of_Z_u8 (b : byte) : byte_of_Z (u8 b) = b.
Proof.
  unfold byte_of_Z. rewrite Z.mod_small by apply u8_range.
  unfold u8. rewrite N2Z.id, Byte.of_to_N. reflexivity.
Qed.

Lemma u8_inj (a b : byte) : u8 a = u8 b -> a = b.
Proof.
  intros H. rewrite <- (byte_of_Z_u8 a), <- (byte_of_Z_u8 b), H. reflexivity.
Qed.

(** ** Big-endian strings *)

Lemma be_fold_acc (bs : list byte) (acc : Z) :
  fold_left (fun a b => a * 256 + u8 b) bs acc
  = acc * 256 ^ Z.of_nat (length bs) + be_decode bs.
Proof.
  unfold be_decode. revert acc.
  induction bs as [|b bs IH]; intros acc.
  - simpl. lia.
  - cbn [fold_left length]. rewrite IH, (IH (0 * 256 + u8 b)).
    rewrite Nat2Z.inj_succ, Z.pow_succ_r by lia. ring.
Qed.

Lemma be_decode_cons (b : byte) (bs : list byte) :
  be_decode (b :: bs) = u8 b * 256 ^ Z.of_nat (length bs) + be_decode bs.
Proof.
  unfold be_decode at 1. cbn [fold_left]. rewrite be_fold_acc. ring.
Qed.

Lemma be_decode_app (a b : list byte) :
  be_decode (a ++ b)
  = be_decode a * 256 ^ Z.of_nat (length b) + be_decode b.
Proof.
  unfold be_decode at 1. rewrite fold_left_app.
  fold (be_decode a). apply be_fold_acc.
Qed.

Lemma be_decode_range (bs : list byte) :
  0 <= be_decode bs < 256 ^ Z.of_nat (length bs).
Proof.
  induction bs as [|b bs IH].
  - cbn. lia.
  - rewrite be_decode_cons. cbn [length].
    rewrite Nat2Z.inj_succ, Z.pow_succ_r by lia.
    pose proof (u8_range b). nia.
Qed.

Lemma be_decode_zeros (k : nat) (bs : list byte) :
  be_decode (repeat x00 k ++ bs) = be_decode bs.
Proof.
  induction k as [|k IH]; [reflexivity|].
  cbn [repeat app]. rewrite be_decode_cons, IH. cbn. lia.
Qed.

Lemma be_encode_length (len : nat) (v : Z) : length (be_encode len v) = len.
Proof. induction len; cbn; congruence. Qed.

Lemma be_decode_encode (len : nat) (v : Z) :
  be_decode (be_encode len v) = v mod 256 ^ Z.of_nat len.
Proof.
  induction len as [|k IH].
  - cbn. now rewrite Z.mod_1_r.
  - cbn [be_encode]. rewrite be_decode_cons, IH, be_encode_length, u8_byte_of_Z.
    rewrite Nat2Z.inj_succ, Z.pow_succ_r by lia.
    assert (Hk : 0 < 256 ^ Z.of_nat k) by (apply Z.pow_pos_nonneg; lia).
    rewrite (Z.mul_comm 256), Z.rem_mul_r by lia. lia.
Qed.

Lemma be_decode_encode_small (len : nat) (v : Z) :
  0 <= v < 256 ^ Z.of_nat len -> be_decode (be_encode len v) = v.
Proof. intros H. rewrite be_decode_encode. now apply Z.mod_small. Qed.

(** ** Serialisation *)

Lemma memcpy_at_end (pre buf src : list byte) (len : nat) :
  memcpy (pre ++ skipn (length pre) buf) (length pre) src len
  = (pre ++ firstn len src) ++ skipn (length pre + len) buf.
Proof.
  unfold memcpy.
  rewrite firstn_app, firstn_all, Nat.sub_diag, firstn_O, app_nil_r.
  rewrite skipn_app, skipn_all2 by lia.
  replace (length pre + len - length pre)%nat with len by lia.
  rewrite skipn_skipn, <- app_assoc. cbn [app].
  now rewrite (Nat.add_comm len).
Qed.

Lemma store_at_end (pre buf : list byte) (b : byte) :
  store (pre ++ skipn (length pre) buf) (length pre) b
  = (pre ++ [b]) ++ skipn (length pre + 1) buf.
Proof. unfold store. now rewrite memcpy_at_end. Qed.

(** A write at the end of the part of the buffer written so far. *)
Lemma write_step (sig B pre src : list byte) (k idx len : nat) :
  B = pre ++ skipn k sig /\ length pre = k ->
  idx = k -> (len <= length src)%nat ->
  memcpy B idx src len = (pre ++ firstn len src) ++ skipn (k + len) sig
  /\ length (pre ++ firstn len src) = (k + len)%nat.
Proof.
  intros [-> <-] -> Hlen. split.
  - apply memcpy_at_end.
  - rewrite length_app, firstn_length_le; lia.
Qed.

Lemma scalar_buffer (a : scalar) :
  memcpy (repeat x00 33) 1 (secp256k1_scalar_get_b32 a) 32
  = x00 :: secp256k1_scalar_get_b32 a.
Proof.
  unfold memcpy, secp256k1_scalar_get_b32.
  rewrite (firstn_all2 (n := 32)) by (rewrite be_encode_length; lia).
  cbn [repeat firstn skipn Nat.add app]. now rewrite app_nil_r.
Qed.

Lemma der_strip_loop_step (len : Z) (b0 b1 : byte) (l : list byte) :
  der_strip_loop len (b0 :: b1 :: l)
  = if (len >? 1) && (u8 b0 =? 0) && (u8 b1 <? 0x80)
    then der_strip_loop (len - 1) (b1 :: l)
    else (len, b0 :: b1 :: l).
Proof. reflexivity. Qed.

Lemma der_strip_loop_spec (l : list byte) :
  l <> [] -> u8 (byte_at l 0) < 128 ->
  exists (k : nat) (p : list byte),
    der_strip_loop (Z.of_nat (length l)) l = (Z.of_nat (length p), p)
    /\ l = repeat x00 k ++ p
    /\ p <> []
    /\ u8 (byte_at p 0) < 128
    /\ ((1 < length p)%nat -> u8 (byte_at p 0) = 0 -> 128 <= u8 (byte_at p 1)).
Proof.
  induction l as [|b0 l IH]; intros Hne Hhd; [congruence|].
  destruct l as [|b1 l].
  - exists O, [b0]. cbn. repeat split; try congruence; try lia. exact Hhd.
  - rewrite der_strip_loop_step.
    destruct ((Z.of_nat (length (b0 :: b1 :: l)) >? 1) && (u8 b0 =? 0)
              && (u8 b1 <? 128)) eqn:C.
    + apply andb_prop in C as [C C3]. apply andb_prop in C as [C1 C2].
      apply Z.eqb_eq in C2. apply Z.ltb_lt in C3.
      destruct IH as (k & p & E & El & Hp & Hh & Hm);
        [congruence | exact C3 |].
      exists (S k), p.
      replace (Z.of_nat (length (b0 :: b1 :: l)) - 1)
        with (Z.of_nat (length (b1 :: l))) by (cbn [length]; lia).
      rewrite E. repeat split; auto.
      cbn [repeat app]. rewrite <- El. f_equal.
      apply u8_inj. rewrite C2. reflexivity.
    + exists O, (b0 :: b1 :: l). cbn [repeat app].
      repeat split; auto.
      intros _ H0. cbn [byte_at nth] in *.
      apply andb_false_iff in C as [C|C];
        [apply andb_false_iff in C as [C|C]|]; zbool;
        cbn [length] in *; lia.
Qed.

(** ** Length fields *)

Lemma land_shift_byte (a b : Z) :
  0 <= b < 256 -> Z.land (a * 256) b = 0.
Proof.
  intros Hb. apply Z.bits_inj'; intros i Hi.
  rewrite Z.land_spec, Z.bits_0.
  destruct (Z.lt_ge_cases i 8) as [Hlt|Hge].
  - change 256 with (2 ^ 8). rewrite Z.mul_pow2_bits_low by lia. reflexivity.
  - rewrite (Z.bits_above_log2 b i), andb_false_r; [reflexivity|lia|].
    destruct (Z.eq_dec b 0) as [->|Hn]; [cbn; lia|].
    apply Z.lt_le_trans with 8; [|lia]. apply Z.log2_lt_pow2; lia.
Qed.

Lemma lor_shift_byte (a b : Z) :
  0 <= a -> 0 <= b < 256 -> Z.lor (Z.shiftl a 8) b = a * 256 + b.
Proof.
  intros Ha Hb. rewrite Z.shiftl_mul_pow2 by lia. change (2 ^ 8) with 256.
  rewrite <- Z.lxor_lor, <- Z.add_nocarry_lxor; try reflexivity;
    now apply land_shift_byte.
Qed.

Lemma der_read_len_loop_spec (bs tail : list byte) (acc : Z) :
  0 <= acc ->
  acc * 256 ^ Z.of_nat (length bs) + be_decode bs < size_t_modulus ->
  der_read_len_loop (length bs) acc (bs ++ tail)
  = (acc * 256 ^ Z.of_nat (length bs) + be_decode bs, tail).
Proof.
  revert acc. induction bs as [|b bs IH]; intros acc Hacc Hlt.
  - cbn. f_equal. lia.
  - cbn [length der_read_len_loop app byte_at nth tl].
    pose proof (u8_range b) as Hb.
    pose proof (be_decode_range bs) as Hr.
    rewrite be_decode_cons in Hlt. cbn [length] in Hlt.
    rewrite Nat2Z.inj_succ, Z.pow_succ_r in Hlt by lia.
    assert (Hp : 0 < 256 ^ Z.of_nat (length bs))
      by (apply Z.pow_pos_nonneg; lia).
    assert (Hs : acc * 256 < size_t_modulus) by nia.
    assert (E : Z.lor (Z.shiftl acc 8 mod size_t_modulus) (u8 b)
                = acc * 256 + u8 b).
    { rewrite <- lor_shift_byte by lia. f_equal.
      apply Z.mod_small. rewrite Z.shiftl_mul_pow2 by lia.
      change (2 ^ 8) with 256. lia. }
    rewrite E, IH by nia.
    rewrite be_decode_cons, Nat2Z.inj_succ, Z.pow_succ_r by lia.
    f_equal. ring.
Qed.

Lemma u8_land_0x80 (b : byte) :
  Z.land (u8 b) 0x80 = if u8 b <? 0x80 then 0 else 0x80.
Proof. destruct b; reflexivity. Qed.

Lemma u8_land_0x7F (b : byte) :
  Z.land (u8 b) 0x7F = if u8 b <? 0x80 then u8 b else u8 b - 0x80.
Proof. destruct b; reflexivity. Qed.

Lemma pow256 (k : Z) : 0 <= k -> 256 ^ k = 2 ^ (8 * k).
Proof. intros Hk. rewrite Z.pow_mul_r by lia. reflexivity. Qed.

(** The number of length bytes of the long form brackets the length. *)
Lemma long_form_bounds (L : Z) :
  0 < L ->
  let k := Z.log2 L / 8 + 1 in
  1 <= k /\ 256 ^ (k - 1) <= L < 256 ^ k.
Proof.
  intros HL k. subst k.
  pose proof (Z.log2_nonneg L) as Hn.
  pose proof (Z.log2_spec L HL) as [Hlo Hhi].
  pose proof (Z.div_mod (Z.log2 L) 8 ltac:(lia)) as Hdm.
  pose proof (Z.mod_pos_bound (Z.log2 L) 8 ltac:(lia)) as Hm.
  assert (Hq : 0 <= Z.log2 L / 8) by (apply Z.div_pos; lia).
  split; [lia|]. rewrite !pow256 by lia. split.
  - apply Z.le_trans with (2 ^ Z.log2 L); [|exact Hlo].
    apply Z.pow_le_mono_r; lia.
  - apply Z.lt_le_trans with (2 ^ Z.succ (Z.log2 L)); [exact Hhi|].
    apply Z.pow_le_mono_r; lia.
Qed.

Lemma der_read_len_octets (L : Z) (tail : list byte) :
  0 <= L <= Z.of_nat (length tail) -> L < size_t_modulus ->
  secp256k1_der_read_len (der_length_octets L ++ tail) = Some (L, tail).
Proof.
  intros HL Hmax. unfold der_length_octets.
  destruct (L <? 128) eqn:Hs; zbool.
  - cbn [app secp256k1_der_read_len].
    rewrite u8_land_0x80, u8_byte_of_Z, Z.mod_small by lia.
    destruct (L =? 255) eqn:E1; zbool; [lia|].
    destruct (L <? 128) eqn:E2; zbool; [reflexivity|lia].
  - destruct (long_form_bounds L ltac:(lia)) as (Hk1 & Hlo & Hhi).
    set (k := Z.log2 L / 8 + 1) in *.
    assert (Hk8 : k <= 8).
    { destruct (Z.le_gt_cases k 8) as [|Hgt]; [assumption|exfalso].
      assert (256 ^ 8 <= 256 ^ (k - 1)) by (apply Z.pow_le_mono_r; lia).
      change (256 ^ 8) with size_t_modulus in *. lia. }
    rewrite Z2Nat.id by lia.
    cbn [app secp256k1_der_read_len].
    rewrite u8_land_0x80, u8_land_0x7F, u8_byte_of_Z, Z.mod_small by lia.
    destruct (128 + k =? 255) eqn:E1; zbool; [lia|].
    destruct (128 + k <? 128) eqn:E2; zbool; [lia|].
    cbn [Z.eqb]. destruct (128 + k =? 128) eqn:E3; zbool; [lia|].
    replace (128 + k - 128) with k by lia.
    rewrite length_app, be_encode_length.
    destruct (k >? Z.of_nat (Z.to_nat k + length tail)) eqn:E4; zbool;
      [lia|].
    destruct (Z.to_nat k) as [|k'] eqn:Ek; [lia|].
    cbn [be_encode app byte_at nth]. rewrite u8_byte_of_Z.
    assert (Hk' : Z.of_nat k' = k - 1) by lia.
    rewrite Hk'.
    assert (Hp : 0 < 256 ^ (k - 1)) by (apply Z.pow_pos_nonneg; lia).
    assert (Hd : 1 <= L / 256 ^ (k - 1) < 256).
    { split.
      - apply Z.div_le_lower_bound; lia.
      - apply Z.div_lt_upper_bound; [lia|].
        replace k with (Z.succ (k - 1)) in Hhi at 1 by lia.
        rewrite Z.pow_succ_r in Hhi by lia. lia. }
    rewrite Z.mod_small by lia.
    destruct (L / 256 ^ (k - 1) =? 0) eqn:E5; zbool; [lia|].
    destruct (k >? sizeof_size_t) eqn:E6; zbool;
      [unfold sizeof_size_t in *; lia|].
    rewrite <- Hk'.
    change (byte_of_Z (L / 256 ^ Z.of_nat k') :: be_encode k' L ++ tail)
      with (be_encode (S k') L ++ tail).
    rewrite <- (be_encode_length (S k') L) at 1.
    assert (Hdec : be_decode (be_encode (S k') L) = L).
    { apply be_decode_encode_small. rewrite <- Ek, Z2Nat.id by lia. lia. }
    rewrite der_read_len_loop_spec; rewrite ?Hdec; try lia.
    cbn [Z.mul Z.add].
    destruct (L >? Z.of_nat (length tail)) eqn:E7; zbool; [lia|].
    destruct (L <? 128) eqn:E8; zbool; [lia|reflexivity].
Qed.

(** ** INTEGER fields *)

Lemma memcpy_right_aligned (body rest : list byte) :
  (length body <= 32)%nat ->
  memcpy (repeat x00 32) (32 - length body) (body ++ rest) (length body)
  = repeat x00 (32 - length body) ++ body.
Proof.
  intros Hle. unfold memcpy.
  replace (32 - length body + length body)%nat with 32%nat by lia.
  rewrite (skipn_all2 (n := 32)) by (rewrite repeat_length; lia).
  rewrite firstn_app, firstn_all, Nat.sub_diag, firstn_O, !app_nil_r.
  f_equal.
  replace 32%nat with ((32 - length body) + length body)%nat at 2 by lia.
  rewrite repeat_app, firstn_app, repeat_length, Nat.sub_diag, firstn_O.
  rewrite app_nil_r. apply firstn_all2. rewrite repeat_length. lia.
Qed.

Lemma scalar_set_b32_right_aligned (body : list byte) :
  (length body <= 32)%nat ->
  secp256k1_scalar_set_b32 (repeat x00 (32 - length body) ++ body)
  = (be_decode body mod order_n, order_n <=? be_decode body).
Proof.
  intros Hle. unfold secp256k1_scalar_set_b32.
  rewrite firstn_all2
    by (rewrite length_app, repeat_length; lia).
  now rewrite be_decode_zeros.
Qed.

Lemma der_parse_integer_wellformed (content rest : list byte) :
  content <> [] ->
  Z.of_nat (length content) < size_t_modulus ->
  ~ der_excess_padding content ->
  secp256k1_der_parse_integer (der_integer content ++ rest)
  = Some (der_integer_value content, rest).
Proof.
  intros Hne Hmax Hpad.
  destruct content as [|b0 content]; [congruence|clear Hne].
  unfold der_integer. cbn [app secp256k1_der_parse_integer].
  change (u8 x02 =? 2) with true. cbn [negb].
  rewrite <- app_assoc, der_read_len_octets;
    [|rewrite length_app; lia|assumption].
  set (c := b0 :: content) in *.
  assert (Hlen : Z.of_nat (length c) = Z.of_nat (length content) + 1)
    by (subst c; cbn [length]; lia).
  destruct ((Z.of_nat (length c) =? 0)
            || (Z.of_nat (length c) >? Z.of_nat (length (c ++ rest))))
    eqn:E1.
  { apply orb_prop in E1 as [E1|E1]; zbool; rewrite ?length_app in *; lia. }
  clear E1.
  assert (H0 : byte_at (c ++ rest) 0 = b0) by reflexivity.
  rewrite !H0, !u8_land_0x80.
  assert (H1 : (Z.of_nat (length c) >? 1) = true ->
               exists b1 content', content = b1 :: content'
                                   /\ byte_at (c ++ rest) 1 = b1).
  { intros H. zbool. destruct content as [|b1 content'];
      [cbn [length] in *; lia|]. exists b1, content'; split; reflexivity. }
  destruct ((u8 b0 =? 0) && (Z.of_nat (length c) >? 1)
            && ((if u8 (byte_at (c ++ rest) 1) <? 128 then 0 else 128) =? 0))
    eqn:E2.
  { exfalso. apply andb_prop in E2 as [E2 E2c].
    apply andb_prop in E2 as [E2a E2b].
    destruct (H1 E2b) as (b1 & content' & -> & Hb1). rewrite Hb1 in E2c.
    apply Hpad. subst c. cbn [der_excess_padding]. left.
    destruct (u8 b1 <? 128) eqn:E; zbool; [lia|discriminate]. }
  destruct ((u8 b0 =? 255) && (Z.of_nat (length c) >? 1)
            && ((if u8 (byte_at (c ++ rest) 1) <? 128 then 0 else 128)
                =? 128)) eqn:E3.
  { exfalso. apply andb_prop in E3 as [E3 E3c].
    apply andb_prop in E3 as [E3a E3b].
    destruct (H1 E3b) as (b1 & content' & -> & Hb1). rewrite Hb1 in E3c.
    apply Hpad. subst c. cbn [der_excess_padding]. right.
    destruct (u8 b1 <? 128) eqn:E; zbool; [discriminate|lia]. }
  clear E2 E3 H1.
  unfold der_integer_value. cbn [byte_at nth] in H0 |- *.
  subst c. cbn [byte_at nth tl app length].
  replace ((if u8 b0 <? 128 then 0 else 128) =? 128) with (128 <=? u8 b0)
    by (destruct (u8 b0 <? 128) eqn:E, (128 <=? u8 b0) eqn:E'; zbool;
        try reflexivity; lia).
  assert (Hgt : (Z.of_nat (S (length content)) >? 0) = true)
    by (rewrite Z.gtb_ltb; apply Z.ltb_lt; lia).
  rewrite Hgt. cbn [andb].
  set (body := if u8 b0 =? 0 then content else b0 :: content).
  assert (Hsplit :
    (if u8 b0 =? 0
     then (Z.of_nat (S (length content)) - 1, content ++ rest)
     else (Z.of_nat (S (length content)), b0 :: content ++ rest))
    = (Z.of_nat (length body), body ++ rest)).
  { subst body. destruct (u8 b0 =? 0); cbn [length app]; f_equal; lia. }
  rewrite Hsplit. clear Hsplit Hgt.
  rewrite Nat2Z.id, (Z.gtb_ltb _ 32).
  rewrite skipn_app, skipn_all, Nat.sub_diag. cbn [app skipn].
  destruct ((128 <=? u8 b0) || (32 <? Z.of_nat (length body))) eqn:Eo.
  - cbn [negb orb]. reflexivity.
  - cbn [negb orb]. zbool.
    assert (Hra :
      (if Z.of_nat (length body) =? 0 then repeat x00 32
       else memcpy (repeat x00 32) (Z.to_nat (32 - Z.of_nat (length body)))
              (body ++ rest) (length body))
      = repeat x00 (32 - length body) ++ body).
    { destruct (Z.of_nat (length body) =? 0) eqn:Ez; zbool.
      - destruct body; [|cbn [length] in Ez; lia].
        cbn [length]. now rewrite app_nil_r.
      - replace (Z.to_nat (32 - Z.of_nat (length body)))
          with (32 - length body)%nat by lia.
        apply memcpy_right_aligned. lia. }
    rewrite Hra, scalar_set_b32_right_aligned by lia.
    destruct (order_n <=? be_decode body) eqn:En.
    + reflexivity.
    + zbool. pose proof (be_decode_range body).
      rewrite Z.mod_small by lia. reflexivity.
Qed.

(** ** Shortest INTEGER contents *)

Lemma byte_of_Z_add_256 (x a : Z) : byte_of_Z (x + a * 256) = byte_of_Z x.
Proof. unfold byte_of_Z. now rewrite Z.mod_add by lia. Qed.

Lemma be_encode_add (k : nat) (v a : Z) :
  be_encode k (v + a * 256 ^ Z.of_nat k) = be_encode k v.
Proof.
  revert a. induction k as [|k IH]; intros a; [reflexivity|].
  cbn [be_encode].
  assert (Hp : 0 < 256 ^ Z.of_nat k) by (apply Z.pow_pos_nonneg; lia).
  rewrite Nat2Z.inj_succ, Z.pow_succ_r by lia.
  replace (v + a * (256 * 256 ^ Z.of_nat k))
    with (v + (a * 256) * 256 ^ Z.of_nat k) by ring.
  rewrite Z.div_add, byte_of_Z_add_256, IH by lia. reflexivity.
Qed.

Lemma be_encode_decode (p : list byte) :
  be_encode (length p) (be_decode p) = p.
Proof.
  induction p as [|b p IH]; [reflexivity|].
  cbn [length be_encode]. rewrite be_decode_cons.
  pose proof (be_decode_range p) as Hr.
  assert (Hp : 0 < 256 ^ Z.of_nat (length p))
    by (apply Z.pow_pos_nonneg; lia).
  rewrite (Z.add_comm (u8 b * _)), be_encode_add, IH.
  rewrite Z.div_add, Z.div_small, Z.add_0_l, byte_of_Z_u8 by lia.
  reflexivity.
Qed.

Lemma int_bits_bracket (v m : Z) :
  0 < v -> 1 <= m -> 2 ^ (8 * (m - 1)) <= 2 * v -> v < 2 ^ (8 * m - 1) ->
  int_bits v / 8 + 1 = m.
Proof.
  intros Hv Hm Hlo Hhi. unfold int_bits.
  destruct (v =? 0) eqn:E; zbool; [lia|].
  replace (Z.log2 v + 1) with (Z.log2 (2 * v))
    by (rewrite Z.log2_double by lia; lia).
  assert (H1 : 8 * (m - 1) <= Z.log2 (2 * v))
    by (apply Z.log2_le_pow2; lia).
  assert (H2 : Z.log2 (2 * v) < 8 * m).
  { apply Z.log2_lt_pow2; [lia|].
    replace (8 * m) with (Z.succ (8 * m - 1)) by lia.
    rewrite Z.pow_succ_r by lia. lia. }
  assert (Z.log2 (2 * v) / 8 = m - 1); [|lia].
  symmetry. apply (Z.div_unique _ 8 (m - 1) (Z.log2 (2 * v) - 8 * (m - 1)));
    lia.
Qed.

Lemma shortest_length (p : list byte) :
  p <> [] -> u8 (byte_at p 0) < 128 ->
  ((1 < length p)%nat -> u8 (byte_at p 0) = 0 -> 128 <= u8 (byte_at p 1)) ->
  int_bits (be_decode p) / 8 + 1 = Z.of_nat (length p).
Proof.
  intros Hne Hhd Hmin.
  destruct p as [|b0 p]; [congruence|clear Hne].
  cbn [byte_at nth] in *. rewrite be_decode_cons.
  pose proof (u8_range b0) as Hb0.
  pose proof (be_decode_range p) as Hr.
  set (m := Z.of_nat (length (b0 :: p))).
  assert (Hm : Z.of_nat (length p) = m - 1) by (subst m; cbn [length]; lia).
  rewrite Hm, pow256 in * by lia.
  assert (Hpos : 0 < 2 ^ (8 * (m - 1))) by (apply Z.pow_pos_nonneg; lia).
  assert (Hmul : 2 ^ (8 * m - 1) = 128 * 2 ^ (8 * (m - 1))).
  { replace (8 * m - 1) with (7 + 8 * (m - 1)) by lia.
    rewrite Z.pow_add_r by lia. reflexivity. }
  destruct (Z.eq_dec (u8 b0) 0) as [Hz|Hnz].
  - rewrite Hz, Z.mul_0_l, Z.add_0_l.
    destruct p as [|b1 p].
    + subst m. reflexivity.
    + specialize (Hmin ltac:(cbn [length]; lia) Hz). cbn [nth] in Hmin.
      rewrite be_decode_cons in *.
      pose proof (u8_range b1) as Hb1.
      pose proof (be_decode_range p) as Hr1.
      cbn [length] in Hm.
      assert (Hm2 : Z.of_nat (length p) = m - 2) by lia.
      rewrite Hm2, pow256 in * by lia.
      assert (Hpos2 : 0 < 2 ^ (8 * (m - 2)))
        by (apply Z.pow_pos_nonneg; lia).
      assert (Hmul2 : 2 ^ (8 * (m - 1)) = 256 * 2 ^ (8 * (m - 2))).
      { replace (8 * (m - 1)) with (8 + 8 * (m - 2)) by lia.
        rewrite Z.pow_add_r by lia. reflexivity. }
      apply int_bits_bracket; nia.
  - apply int_bits_bracket; nia.
Qed.

Lemma der_integer_octets_spec (v : Z) :
  0 <= v < 2 ^ 256 ->
  let p := der_integer_octets v in
  der_strip_loop 33 (x00 :: be_encode 32 v) = (Z.of_nat (length p), p)
  /\ p <> []
  /\ u8 (byte_at p 0) < 128
  /\ ((1 < length p)%nat -> u8 (byte_at p 0) = 0 -> 128 <= u8 (byte_at p 1))
  /\ be_decode p = v.
Proof.
  intros Hv.
  destruct (der_strip_loop_spec (x00 :: be_encode 32 v))
    as (k & p & E & El & Hp & Hh & Hm); [discriminate|cbn; lia|].
  cbn [length] in E. rewrite be_encode_length in E.
  change (Z.of_nat 33) with 33 in E. rewrite E.
  assert (Hd : be_decode p = v).
  { rewrite <- (be_decode_zeros k), <- El, be_decode_cons.
    change (u8 x00) with 0.
    rewrite Z.mul_0_l, Z.add_0_l. apply be_decode_encode_small.
    change (256 ^ Z.of_nat 32) with (2 ^ 256). exact Hv. }
  assert (Ho : der_integer_octets v = p).
  { unfold der_integer_octets. rewrite <- Hd at 1.
    rewrite (shortest_length p Hp Hh Hm), Nat2Z.id, <- Hd.
    apply be_encode_decode. }
  rewrite Ho. cbv zeta. repeat split; assumption.
Qed.

Lemma der_strip_loop_shortest (v : Z) :
  0 <= v < 2 ^ 256 ->
  der_strip_loop 33 (x00 :: be_encode 32 v)
  = (Z.of_nat (length (der_integer_octets v)), der_integer_octets v).
Proof. intros Hv. apply (der_integer_octets_spec v Hv). Qed.

Lemma der_integer_octets_length (v : Z) :
  0 <= v < 2 ^ 256 -> (1 <= length (der_integer_octets v) <= 33)%nat.
Proof.
  intros Hv. unfold der_integer_octets. rewrite be_encode_length.
  assert (0 <= int_bits v <= 256).
  { unfold int_bits. destruct (v =? 0) eqn:E; zbool; [lia|].
    pose proof (Z.log2_nonneg v).
    assert (Z.log2 v < 256) by (apply Z.log2_lt_pow2; lia). lia. }
  assert (0 <= int_bits v / 8 <= 32).
  { split; [apply Z.div_pos; lia|].
    apply Z.div_le_upper_bound; lia. }
  lia.
Qed.

Lemma der_length_octets_short (L : Z) :
  L < 128 -> der_length_octets L = [byte_of_Z L].
Proof.
  intros H. unfold der_length_octets.
  destruct (L <? 128) eqn:E; zbool; [reflexivity|lia].
Qed.

(** The bytes [30 LL 02 Lr R 02 Ls S] that the serialiser stores are the DER
    encoding. *)
Lemma der_signature_layout (r s : Z) :
  0 <= r < 2 ^ 256 -> 0 <= s < 2 ^ 256 ->
  let R := der_integer_octets r in
  let S := der_integer_octets s in
  let lenR := Z.of_nat (length R) in
  let lenS := Z.of_nat (length S) in
  der_signature r s
  = [byte_of_Z 0x30; byte_of_Z (4 + lenS + lenR); byte_of_Z 0x02;
     byte_of_Z lenR] ++ R ++ [byte_of_Z 0x02; byte_of_Z lenS] ++ S
  /\ Z.of_nat (length (der_signature r s)) = 6 + lenS + lenR.
Proof.
  intros Hr Hs R S lenR lenS.
  pose proof (der_integer_octets_length r Hr) as HR.
  pose proof (der_integer_octets_length s Hs) as HS.
  fold R in HR. fold S in HS.
  assert (Hbody : Z.of_nat (length (der_integer R ++ der_integer S))
                  = 4 + lenS + lenR).
  { unfold der_integer. rewrite !der_length_octets_short by lia.
    rewrite length_app. cbn [length app]. lia. }
  unfold der_signature. fold R S. rewrite Hbody.
  rewrite der_length_octets_short by lia.
  unfold der_integer. rewrite !der_length_octets_short by lia.
  fold lenR lenS. split.
  - cbn [app]. reflexivity.
  - cbn [app length]. rewrite length_app. cbn [length].
    rewrite !Nat2Z.inj_succ, Nat2Z.inj_add, !Nat2Z.inj_succ. lia.
Qed.

Lemma sig_serialize_refines (sig : list byte) (size : Z) (r s : scalar) :
  0 <= r < 2 ^ 256 -> 0 <= s < 2 ^ 256 ->
  secp256k1_ecdsa_sig_serialize sig size r s
  = let enc := der_signature r s in
    if size <? Z.of_nat (length enc)
    then (false, sig, Z.of_nat (length enc))
    else (true, enc ++ skipn (length enc) sig, Z.of_nat (length enc)).
Proof.
  intros Hr Hs.
  destruct (der_signature_layout r s Hr Hs) as [Hlay Hlen].
  cbv zeta in Hlay, Hlen |- *. rewrite Hlen.
  unfold secp256k1_ecdsa_sig_serialize.
  rewrite !scalar_buffer. unfold secp256k1_scalar_get_b32.
  rewrite !der_strip_loop_shortest by assumption.
  set (R := der_integer_octets r) in *.
  set (S := der_integer_octets s) in *.
  destruct (size <? 6 + Z.of_nat (length S) + Z.of_nat (length R));
    [reflexivity|].
  rewrite !Nat2Z.id. f_equal. f_equal.
  assert (Hn : length (der_signature r s) = (6 + length R + length S)%nat)
    by lia.
  rewrite Hn, Hlay. unfold store.
  assert (P0 : sig = [] ++ skipn 0 sig /\ length (@nil byte) = 0%nat)
    by (split; reflexivity).
  pose proof (write_step _ _ _ [byte_of_Z 48] _ 0 1 P0 eq_refl
                ltac:(cbn; lia)) as P1.
  pose proof (write_step _ _ _
                [byte_of_Z (4 + Z.of_nat (length S) + Z.of_nat (length R))]
                _ 1 1 P1 eq_refl ltac:(cbn; lia)) as P2.
  pose proof (write_step _ _ _ [byte_of_Z 2] _ 2 1 P2 eq_refl
                ltac:(cbn; lia)) as P3.
  pose proof (write_step _ _ _ [byte_of_Z (Z.of_nat (length R))] _ 3 1 P3
                eq_refl ltac:(cbn; lia)) as P4.
  pose proof (write_step _ _ _ R _ 4 (length R) P4 eq_refl
                ltac:(lia)) as P5.
  pose proof (write_step _ _ _ [byte_of_Z 2] _ (4 + length R) 1 P5
                ltac:(lia) ltac:(cbn; lia)) as P6.
  pose proof (write_step _ _ _ [byte_of_Z (Z.of_nat (length S))] _
                (5 + length R) 1 P6 ltac:(lia) ltac:(cbn; lia)) as P7.
  pose proof (write_step _ _ _ S _ (length R + 6) (length S) P7
                ltac:(lia) ltac:(lia)) as P8.
  etransitivity; [exact (proj1 P8)|].
  rewrite !firstn_all. cbn [firstn].
  rewrite <- !app_assoc. cbn [app].
  replace (0 + 1 + 1 + 1 + 1 + length R + 1 + 1 + length S)%nat
    with (6 + length R + length S)%nat by lia.
  reflexivity.
Qed.

(** ** Parsing what the serialiser writes *)

Lemma order_n_bounds : 2 ^ 255 < order_n < 2 ^ 256.
Proof. split; reflexivity. Qed.

Lemma be_decode_tl (p : list byte) :
  u8 (byte_at p 0) = 0 -> be_decode (tl p) = be_decode p.
Proof.
  destruct p as [|b p]; [reflexivity|]. cbn [byte_at nth tl].
  intros H. rewrite be_decode_cons, H. lia.
Qed.

Lemma der_integer_octets_padding (v : Z) :
  0 <= v < 2 ^ 256 -> ~ der_excess_padding (der_integer_octets v).
Proof.
  intros Hv. destruct (der_integer_octets_spec v Hv) as (_ & _ & Hh & Hm & _).
  cbv zeta in Hh, Hm.
  destruct (der_integer_octets v) as [|b0 [|b1 p]]; cbn; try tauto.
  cbn [byte_at nth length] in Hh, Hm.
  intros [[H0 H1]|[H0 H1]]; [|lia].
  specialize (Hm ltac:(lia) H0). lia.
Qed.

Lemma der_integer_value_octets (v : Z) :
  0 <= v < order_n -> der_integer_value (der_integer_octets v) = v.
Proof.
  intros Hv.
  assert (Hv' : 0 <= v < 2 ^ 256) by (pose proof order_n_bounds; lia).
  destruct (der_integer_octets_spec v Hv') as (_ & Hne & Hh & _ & Hd).
  pose proof (der_integer_octets_length v Hv') as Hlen.
  cbv zeta in Hne, Hh, Hd. unfold der_integer_value.
  set (p := der_integer_octets v) in *.
  set (body := if u8 (byte_at p 0) =? 0 then tl p else p).
  assert (Hb : be_decode body = v).
  { subst body. destruct (u8 (byte_at p 0) =? 0) eqn:E; zbool;
      [rewrite be_decode_tl|]; assumption. }
  assert (Hl : Z.of_nat (length body) <= 32).
  { subst body. destruct p as [|b0 p]; [congruence|].
    cbn [byte_at nth tl length] in *.
    destruct (u8 b0 =? 0) eqn:E; zbool; [lia|].
    destruct (Nat.eq_dec (length p) 32) as [H32|]; [|cbn [length]; lia].
    exfalso. rewrite be_decode_cons, H32 in Hd.
    pose proof (u8_range b0). pose proof (be_decode_range p).
    change (256 ^ Z.of_nat 32) with (2 ^ 256) in Hd. nia. }
  rewrite Hb.
  destruct (128 <=? u8 (byte_at p 0)) eqn:E1; zbool; [lia|].
  destruct (32 <? Z.of_nat (length body)) eqn:E2; zbool; [lia|].
  destruct (order_n <=? v) eqn:E3; zbool; [lia|]. reflexivity.
Qed.

Lemma sig_parse_der_signature (r s : Z) :
  0 <= r < 2 ^ 256 -> 0 <= s < 2 ^ 256 ->
  secp256k1_ecdsa_sig_parse (der_signature r s)
  = Some (der_integer_value (der_integer_octets r),
          der_integer_value (der_integer_octets s)).
Proof.
  intros Hr Hs.
  pose proof (der_integer_octets_length r Hr) as HR.
  pose proof (der_integer_octets_length s Hs) as HS.
  unfold der_signature. cbv zeta.
  set (R := der_integer_octets r) in *.
  set (S := der_integer_octets s) in *.
  set (body := der_integer R ++ der_integer S).
  cbn [secp256k1_ecdsa_sig_parse]. change (u8 x30 =? 48) with true.
  cbn [negb].
  assert (Hbody : Z.of_nat (length body) < 128).
  { subst body. unfold der_integer.
    rewrite !der_length_octets_short by lia.
    rewrite length_app. cbn [length app]. lia. }
  rewrite der_read_len_octets by (unfold size_t_modulus; lia).
  rewrite Z.eqb_refl. cbn [negb]. subst body.
  rewrite der_parse_integer_wellformed;
    [| subst R; destruct (der_integer_octets_spec r Hr) as (_ & H & _);
       exact H
     | unfold size_t_modulus; lia
     | apply der_integer_octets_padding; exact Hr ].
  rewrite <- (app_nil_r (der_integer S)).
  rewrite der_parse_integer_wellformed;
    [| subst S; destruct (der_integer_octets_spec s Hs) as (_ & H & _);
       exact H
     | unfold size_t_modulus; lia
     | apply der_integer_octets_padding; exact Hs ].
  reflexivity.
Qed.

(** ** Rejections of the strict DER parser *)

Lemma der_read_len_violation (bs : list byte) :
  der_length_violation bs -> secp256k1_der_read_len bs = None.
Proof.
  destruct bs as [|b1 rest]; [reflexivity|].
  cbn [der_length_violation secp256k1_der_read_len].
  rewrite u8_land_0x80, u8_land_0x7F.
  pose proof (u8_range b1) as Hb.
  intros [H|[H|[Hr H]]].
  - rewrite H. reflexivity.
  - rewrite H. reflexivity.
  - destruct (u8 b1 =? 255) eqn:E1; [reflexivity|].
    destruct (u8 b1 <? 128) eqn:E2; zbool; [lia|].
    cbn [Z.eqb]. destruct (u8 b1 =? 128) eqn:E3; [reflexivity|].
    set (k := u8 b1 - 128) in *.
    destruct (k >? Z.of_nat (length rest)) eqn:E4; [reflexivity|].
    destruct (u8 (byte_at rest 0) =? 0) eqn:E5; [reflexivity|].
    destruct (k >? sizeof_size_t) eqn:E6; [reflexivity|].
    zbool. destruct H as [H|H]; [congruence|].
    unfold sizeof_size_t in E6.
    assert (Hk : length (firstn (Z.to_nat k) rest) = Z.to_nat k)
      by (apply firstn_length_le; lia).
    rewrite <- (firstn_skipn (Z.to_nat k) rest) at 1.
    rewrite <- Hk at 1.
    pose proof (be_decode_range (firstn (Z.to_nat k) rest)) as Hd.
    rewrite der_read_len_loop_spec by (unfold size_t_modulus; lia).
    cbn [Z.mul Z.add].
    destruct (_ >? _); [reflexivity|].
    destruct (be_decode (firstn (Z.to_nat k) rest) <? 128) eqn:E7;
      zbool; [reflexivity|lia].
Qed.

Lemma der_parse_integer_padding (tag : byte) (lenf cr : list byte)
    (rlen : Z) :
  secp256k1_der_read_len lenf = Some (rlen, cr) ->
  der_excess_padding (firstn (Z.to_nat rlen) cr) ->
  secp256k1_der_parse_integer (tag :: lenf) = None.
Proof.
  intros Hlen Hpad. cbn [secp256k1_der_parse_integer].
  destruct (negb (u8 tag =? 2)); [reflexivity|]. rewrite Hlen.
  destruct ((rlen =? 0) || (rlen >? Z.of_nat (length cr))); [reflexivity|].
  assert (Hshape : exists b0 b1 cr', cr = b0 :: b1 :: cr' /\ 1 < rlen
            /\ ((u8 b0 = 0 /\ u8 b1 < 128) \/ (u8 b0 = 255 /\ 128 <= u8 b1))).
  { destruct (Z.to_nat rlen) as [|[|n]] eqn:En; cbn in Hpad;
      try (destruct cr as [|? [|? ?]]; cbn in Hpad; tauto).
    destruct cr as [|b0 [|b1 cr']]; cbn in Hpad; try tauto.
    exists b0, b1, cr'. repeat split; [lia|exact Hpad]. }
  destruct Hshape as (b0 & b1 & cr' & -> & Hr & Hp).
  cbn [byte_at nth]. rewrite !u8_land_0x80.
  assert (Hg : (rlen >? 1) = true)
    by (rewrite Z.gtb_ltb; apply Z.ltb_lt; lia).
  rewrite Hg. destruct Hp as [[H0 H1]|[H0 H1]].
  - rewrite H0. cbn [Z.eqb andb].
    destruct (u8 b1 <? 128) eqn:E; zbool; [reflexivity|lia].
  - rewrite H0. cbn [Z.eqb andb].
    destruct (u8 b1 <? 128) eqn:E; zbool; [lia|reflexivity].
Qed.

Lemma der_parse_integer_violation (field : list byte) :
  der_integer_violation field -> secp256k1_der_parse_integer field = None.
Proof.
  destruct field as [|tag lenf]; [reflexivity|].
  cbn [der_integer_violation]. intros [H|(rlen & cr & Hlen & Hpad)].
  - cbn [secp256k1_der_parse_integer].
    rewrite (der_read_len_violation lenf H).
    destruct (negb (u8 tag =? 2)); reflexivity.
  - apply (der_parse_integer_padding tag lenf cr rlen Hlen Hpad).
Qed.

(** ** The claims about the DER codec *)

(** C3 -- DER round trip.  For scalars [r] and [s] strictly between 0 and
    the group order, with [s] at most half the order, serialising into a
    buffer whose announced capacity is at least the size of the encoding
    succeeds, reports that size, leaves the DER encoding in the buffer, and
    parsing these bytes succeeds and returns exactly [(r, s)]. *)
Theorem der_round_trip (sig : list byte) (size : Z) (r s : scalar) :
  0 < r < order_n -> 0 < s < order_n -> s <= order_n / 2 ->
  Z.of_nat (length (der_signature r s)) <= size ->
  exists sig' : list byte,
    secp256k1_ecdsa_sig_serialize sig size r s
    = (true, sig', Z.of_nat (length (der_signature r s)))
    /\ firstn (length (der_signature r s)) sig' = der_signature r s
    /\ secp256k1_ecdsa_sig_parse (firstn (length (der_signature r s)) sig')
       = Some (r, s).
Proof.
  intros Hr Hs _ Hsize. pose proof order_n_bounds as Hn.
  exists (der_signature r s ++ skipn (length (der_signature r s)) sig).
  rewrite sig_serialize_refines by lia. cbv zeta.
  destruct (size <? Z.of_nat (length (der_signature r s))) eqn:E; zbool;
    [lia|].
  rewrite firstn_app, firstn_all, Nat.sub_diag, firstn_O, app_nil_r.
  repeat split.
  rewrite sig_parse_der_signature, !der_integer_value_octets by lia.
  reflexivity.
Qed.

Lemma der_round_trip_witness :
  exists sig' : list byte,
    secp256k1_ecdsa_sig_serialize (repeat x00 72) 72 5 7
    = (true, sig', Z.of_nat (length (der_signature 5 7)))
    /\ firstn (length (der_signature 5 7)) sig' = der_signature 5 7
    /\ secp256k1_ecdsa_sig_parse (firstn (length (der_signature 5 7)) sig')
       = Some (5, 7).
Proof.
  apply (der_round_trip (repeat x00 72) 72 5 7); vm_compute;
    try split; congruence.
Defined.

(** C6 -- overflow canonicalisation.  A correctly DER-encoded INTEGER field
    (tag, shortest length octets, content without excessive padding) whose
    first content octet has its top bit set, or whose content is longer than
    32 octets after removal of at most one leading zero octet, or whose value
    is at least the group order, is parsed successfully: the scalar is 0 and
    parsing goes on behind the field. *)
Theorem der_overflow_is_zero (content rest : list byte) :
  content <> [] ->
  Z.of_nat (length content) < size_t_modulus ->
  ~ der_excess_padding content ->
  0x80 <= u8 (byte_at content 0)
  \/ 32 < Z.of_nat (length (if u8 (byte_at content 0) =? 0
                            then tl content else content))
  \/ order_n <= be_decode content ->
  secp256k1_der_parse_integer (der_integer content ++ rest) = Some (0, rest).
Proof.
  intros Hne Hmax Hpad Hover.
  rewrite der_parse_integer_wellformed by assumption.
  f_equal. f_equal. unfold der_integer_value.
  set (body := if u8 (byte_at content 0) =? 0 then tl content else content)
    in *.
  assert (Hb : be_decode body = be_decode content).
  { subst body. destruct (u8 (byte_at content 0) =? 0) eqn:E; zbool;
      [apply be_decode_tl; assumption|reflexivity]. }
  rewrite Hb.
  destruct (128 <=? u8 (byte_at content 0)) eqn:E1; [reflexivity|].
  destruct (32 <? Z.of_nat (length body)) eqn:E2; [reflexivity|].
  destruct (order_n <=? be_decode content) eqn:E3; [reflexivity|].
  zbool. lia.
Qed.

Lemma der_overflow_is_zero_witness :
  secp256k1_der_parse_integer
    (der_integer (x00 :: be_encode 32 order_n) ++ [x02; x01; x01])
  = Some (0, [x02; x01; x01]).
Proof.
  apply (der_overflow_is_zero (x00 :: be_encode 32 order_n) [x02; x01; x01]).
  - discriminate.
  - vm_compute. reflexivity.
  - vm_compute. intros [[_ H]|[H _]]; discriminate H.
  - right. right. vm_compute. discriminate.
Defined.

(** ** The stores of the parser *)

(** [secp256k1_der_parse_integer] writes its scalar on the path that returns
    1 and on no other. *)
Lemma der_parse_integer_stores (r : scalar) (sig : list byte) :
  OutParams.secp256k1_der_parse_integer r sig
  = match secp256k1_der_parse_integer sig with
    | Some (v, rest) => (v, Some rest)
    | None => (r, None)
    end.
Proof.
  destruct sig as [|tag sig1]; [reflexivity|].
  cbn [OutParams.secp256k1_der_parse_integer secp256k1_der_parse_integer].
  destruct (negb (u8 tag =? 2)); [reflexivity|].
  destruct (secp256k1_der_read_len sig1) as [[rlen sig2]|]; [|reflexivity].
  destruct ((rlen =? 0) || (rlen >? Z.of_nat (length sig2)));
    [reflexivity|].
  destruct ((u8 (byte_at sig2 0) =? 0) && (rlen >? 1)
            && (Z.land (u8 (byte_at sig2 1)) 128 =? 0)); [reflexivity|].
  destruct ((u8 (byte_at sig2 0) =? 255) && (rlen >? 1)
            && (Z.land (u8 (byte_at sig2 1)) 128 =? 128)); [reflexivity|].
  destruct ((rlen >? 0) && (u8 (byte_at sig2 0) =? 0)).
  - destruct (Z.land (u8 (byte_at sig2 0)) 128 =? 128), (rlen - 1 >? 32);
      reflexivity.
  - destruct (Z.land (u8 (byte_at sig2 0)) 128 =? 128), (rlen >? 32);
      reflexivity.
Qed.

(** The return value of [secp256k1_ecdsa_sig_parse] and, for a return of 1,
    the scalars it leaves behind [rr] and [rs]. *)
Lemma sig_parse_stores (rr rs : scalar) (sig : list byte) :
  match secp256k1_ecdsa_sig_parse sig with
  | Some (r, s) => OutParams.secp256k1_ecdsa_sig_parse rr rs sig = (true, r, s)
  | None => fst (fst (OutParams.secp256k1_ecdsa_sig_parse rr rs sig)) = false
  end.
Proof.
  destruct sig as [|b sig1]; [reflexivity|].
  cbn [OutParams.secp256k1_ecdsa_sig_parse secp256k1_ecdsa_sig_parse].
  destruct (negb (u8 b =? 48)); [reflexivity|].
  destruct (secp256k1_der_read_len sig1) as [[rlen sig2]|]; [|reflexivity].
  destruct (negb (rlen =? Z.of_nat (length sig2))); [reflexivity|].
  rewrite der_parse_integer_stores.
  destruct (secp256k1_der_parse_integer sig2) as [[r1 sig3]|];
    [|reflexivity].
  rewrite der_parse_integer_stores.
  destruct (secp256k1_der_parse_integer sig3) as [[s1 sig4]|];
    [|reflexivity].
  destruct sig4; reflexivity.
Qed.

(** C7 -- strict DER rejection.  The parser returns failure for a signature
    whose SEQUENCE length field, or either of whose INTEGER length fields,
    is the octet [0xFF], the indefinite form [0x80], a long form starting
    with a zero byte, or a long form for a length below 128; and for a
    signature either of whose INTEGERs has content with excessive padding.
    With the violation in the SEQUENCE length field or in the first INTEGER
    both scalars of the caller are left as they were.  With the violation in
    the second INTEGER the second scalar is left as it was, and the first
    one holds the value of the first INTEGER whenever the parser came to
    read it, that is, for the tag [0x30] and a SEQUENCE length equal to the
    number of bytes behind it. *)
Theorem der_strict_rejection (rr rs : scalar) (b : byte)
    (sig1 : list byte) :
  (der_length_violation sig1 ->
   OutParams.secp256k1_ecdsa_sig_parse rr rs (b :: sig1) = (false, rr, rs))
  /\ (forall rlen body,
        secp256k1_der_read_len sig1 = Some (rlen, body) ->
        (der_integer_violation body ->
         OutParams.secp256k1_ecdsa_sig_parse rr rs (b :: sig1)
         = (false, rr, rs))
        /\ (forall r1 body2,
              OutParams.secp256k1_der_parse_integer rr body
              = (r1, Some body2) ->
              der_integer_violation body2 ->
              OutParams.secp256k1_ecdsa_sig_parse rr rs (b :: sig1)
              = (false,
                 if (u8 b =? 0x30) && (rlen =? Z.of_nat (length body))
                 then r1 else rr,
                 rs))).
Proof.
  split.
  - intros H. cbn [OutParams.secp256k1_ecdsa_sig_parse].
    rewrite (der_read_len_violation sig1 H).
    destruct (negb (u8 b =? 48)); reflexivity.
  - intros rlen body H1. split.
    + intros H2. apply der_parse_integer_violation in H2.
      cbn [OutParams.secp256k1_ecdsa_sig_parse].
      rewrite H1, der_parse_integer_stores, H2.
      destruct (negb (u8 b =? 48)),
        (negb (rlen =? Z.of_nat (length body))); reflexivity.
    + intros r1 body2 H2 H3. apply der_parse_integer_violation in H3.
      cbn [OutParams.secp256k1_ecdsa_sig_parse].
      rewrite H1, H2, der_parse_integer_stores, H3.
      destruct (u8 b =? 48), (rlen =? Z.of_nat (length body)); reflexivity.
Qed.

Lemma der_strict_rejection_witness :
  OutParams.secp256k1_ecdsa_sig_parse 5 7
    [x30; x81; x08; x02; x01; x01; x02; x02; x00; x01] = (false, 5, 7)
  /\ OutParams.secp256k1_ecdsa_sig_parse 5 7
       [x30; x07; x02; x02; x00; x01; x02; x01; x01] = (false, 5, 7)
  /\ OutParams.secp256k1_ecdsa_sig_parse 5 7
       [x30; x07; x02; x01; x01; x02; x02; x00; x01] = (false, 1, 7).
Proof.
  split; [|split].
  - apply (proj1 (der_strict_rejection 5 7 x30
                    [x81; x08; x02; x01; x01; x02; x02; x00; x01])).
    cbn. right. right. split; [lia|]. right. vm_compute. reflexivity.
  - refine (proj1 (proj2 (der_strict_rejection 5 7 x30
                     [x07; x02; x02; x00; x01; x02; x01; x01])
                     7 [x02; x02; x00; x01; x02; x01; x01] eq_refl) _).
    cbn. right. exists 2, [x00; x01; x02; x01; x01].
    split; [reflexivity|].
    cbn. left. split; [reflexivity|]. vm_compute. reflexivity.
  - refine (proj2 (proj2 (der_strict_rejection 5 7 x30
                     [x07; x02; x01; x01; x02; x02; x00; x01])
                     7 [x02; x01; x01; x02; x02; x00; x01] eq_refl)
              1 [x02; x02; x00; x01] eq_refl _).
    cbn. right. exists 2, [x00; x01]. split; [reflexivity|].
    cbn. left. split; [reflexivity|]. vm_compute. reflexivity.
Defined.

(** The claim as the specification words it, that a rejection leaves no
    partial result, fails: the signature [30 07 02 01 01 02 02 00 01] has
    excessive padding in its second INTEGER, and the parser returns failure
    with the value 1 of the first INTEGER stored in the first scalar, which
    held 0 before the call. *)
Lemma der_strict_rejection_counterexample :
  secp256k1_der_read_len [x07; x02; x01; x01; x02; x02; x00; x01]
  = Some (7, [x02; x01; x01; x02; x02; x00; x01])
  /\ OutParams.secp256k1_der_parse_integer 0
       [x02; x01; x01; x02; x02; x00; x01]
     = (1, Some [x02; x02; x00; x01])
  /\ der_integer_violation [x02; x02; x00; x01]
  /\ OutParams.secp256k1_ecdsa_sig_parse 0 0
       [x30; x07; x02; x01; x01; x02; x02; x00; x01] = (false, 1, 0)
  /\ OutParams.secp256k1_ecdsa_sig_parse 0 0
       [x30; x07; x02; x01; x01; x02; x02; x00; x01] <> (false, 0, 0).
Proof.
  split; [reflexivity|]. split; [reflexivity|]. split.
  - cbn. right. exists 2, [x00; x01]. split; [reflexivity|].
    cbn. left. split; [reflexivity|]. vm_compute. reflexivity.
  - split; [reflexivity|]. intros H.
    assert (E : OutParams.secp256k1_ecdsa_sig_parse 0 0
                  [x30; x07; x02; x01; x01; x02; x02; x00; x01]
                = (false, 1, 0)) by reflexivity.
    rewrite E in H. discriminate H.
Qed.

(** C8 -- capacity shortfall.  When the announced capacity is below the size
    of the encoding, the serialiser returns failure, reports that size and
    leaves the buffer as it was; that size is the least capacity with which
    the call succeeds. *)
Theorem serialize_capacity_shortfall (sig : list byte) (size : Z)
    (r s : scalar) :
  0 <= r < order_n -> 0 <= s < order_n ->
  size < Z.of_nat (length (der_signature r s)) ->
  secp256k1_ecdsa_sig_serialize sig size r s
  = (false, sig, Z.of_nat (length (der_signature r s)))
  /\ (forall size',
        fst (fst (secp256k1_ecdsa_sig_serialize sig size' r s)) = true
        <-> Z.of_nat (length (der_signature r s)) <= size').
Proof.
  intros Hr Hs Hsize. pose proof order_n_bounds as Hn. split.
  - rewrite sig_serialize_refines by lia. cbv zeta.
    destruct (size <? Z.of_nat (length (der_signature r s))) eqn:E; zbool;
      [reflexivity|lia].
  - intros size'. rewrite sig_serialize_refines by lia. cbv zeta.
    destruct (size' <? Z.of_nat (length (der_signature r s))) eqn:E; zbool;
      cbn [fst]; split; intros; try lia; congruence.
Qed.

Lemma serialize_capacity_shortfall_witness :
  secp256k1_ecdsa_sig_serialize (repeat x01 10) 10 5 (order_n - 1)
  = (false, repeat x01 10, 40).
Proof.
  apply (proj1 (serialize_capacity_shortfall (repeat x01 10) 10 5
                  (order_n - 1) ltac:(vm_compute; split; congruence)
                  ltac:(vm_compute; split; congruence)
                  ltac:(vm_compute; reflexivity))).
Defined.

(** ** The encodings the parser accepts *)

(** A length [L] with [256 ^ (k - 1) <= L < 256 ^ k] takes [k] bytes. *)
Lemma long_form_count (L k : Z) :
  1 <= k -> 256 ^ (k - 1) <= L < 256 ^ k -> Z.log2 L / 8 + 1 = k.
Proof.
  intros Hk [Hlo Hhi]. rewrite !pow256 in * by lia.
  assert (Hp : 0 < 2 ^ (8 * (k - 1))) by (apply Z.pow_pos_nonneg; lia).
  assert (H1 : 8 * (k - 1) <= Z.log2 L) by (apply Z.log2_le_pow2; lia).
  assert (H2 : Z.log2 L < 8 * k) by (apply Z.log2_lt_pow2; lia).
  assert (Z.log2 L / 8 = k - 1); [|lia].
  symmetry. apply (Z.div_unique _ 8 (k - 1) (Z.log2 L - 8 * (k - 1))); lia.
Qed.

(** The short form is returned without a look at the bytes behind it. *)
Lemma der_read_len_short (L : Z) (tail : list byte) :
  0 <= L < 128 ->
  secp256k1_der_read_len (der_length_octets L ++ tail) = Some (L, tail).
Proof.
  intros HL. rewrite der_length_octets_short by lia.
  cbn [app secp256k1_der_read_len].
  rewrite u8_land_0x80, u8_byte_of_Z, Z.mod_small by lia.
  destruct (L =? 255) eqn:E1; zbool; [lia|].
  destruct (L <? 128) eqn:E2; zbool; [reflexivity|lia].
Qed.

Lemma der_read_len_inv (sigp : list byte) (len : Z) (rest : list byte) :
  secp256k1_der_read_len sigp = Some (len, rest) ->
  0 <= len < size_t_modulus
  /\ (128 <= len -> len <= Z.of_nat (length rest))
  /\ sigp = der_length_octets len ++ rest.
Proof.
  destruct sigp as [|b1 sigp1]; [discriminate|].
  cbn [secp256k1_der_read_len]. rewrite u8_land_0x80, u8_land_0x7F.
  pose proof (u8_range b1) as Hb.
  destruct (u8 b1 =? 255) eqn:E1; [discriminate|].
  destruct (u8 b1 <? 128) eqn:E2; zbool.
  - cbn [Z.eqb]. intros H. injection H as <- <-.
    rewrite der_length_octets_short, byte_of_Z_u8 by lia.
    unfold size_t_modulus. repeat split; lia.
  - cbn [Z.eqb]. destruct (u8 b1 =? 128) eqn:E3; [discriminate|].
    set (k := u8 b1 - 128) in *.
    destruct (k >? Z.of_nat (length sigp1)) eqn:E4; [discriminate|].
    destruct (u8 (byte_at sigp1 0) =? 0) eqn:E5; [discriminate|].
    destruct (k >? sizeof_size_t) eqn:E6; [discriminate|].
    zbool. unfold sizeof_size_t in E6.
    set (bs := firstn (Z.to_nat k) sigp1).
    assert (Hk : length bs = Z.to_nat k)
      by (apply firstn_length_le; lia).
    pose proof (be_decode_range bs) as Hd.
    assert (Hmax : 256 ^ Z.of_nat (length bs) <= size_t_modulus).
    { change size_t_modulus with (256 ^ 8).
      apply Z.pow_le_mono_r; lia. }
    rewrite <- (firstn_skipn (Z.to_nat k) sigp1) at 1. fold bs.
    rewrite <- Hk at 1.
    rewrite der_read_len_loop_spec by lia. cbn [Z.mul Z.add].
    destruct (_ >? _) eqn:E7; [discriminate|].
    destruct (be_decode bs <? 128) eqn:E8; [discriminate|].
    intros H. injection H as <- <-. zbool.
    split; [lia|]. split; [lia|].
    assert (Hhd : 256 ^ (k - 1) <= be_decode bs).
    { destruct bs as [|c bs'] eqn:Ebs; [cbn [length] in Hk; lia|].
      assert (Hc : byte_at sigp1 0 = c).
      { subst bs. destruct sigp1 as [|c0 ?];
          [rewrite firstn_nil in Ebs; discriminate|].
        destruct (Z.to_nat k); [discriminate|].
        cbn [firstn] in Ebs. injection Ebs as -> _. reflexivity. }
      rewrite Hc in *. rewrite be_decode_cons.
      cbn [length] in Hk.
      replace (Z.of_nat (length bs')) with (k - 1) by lia.
      pose proof (u8_range c). pose proof (be_decode_range bs').
      assert (0 < 256 ^ (k - 1)) by (apply Z.pow_pos_nonneg; lia). nia. }
    unfold der_length_octets.
    destruct (be_decode bs <? 128) eqn:E9; zbool; [lia|].
    rewrite (long_form_count (be_decode bs) k) by
      (try lia; replace k with (Z.of_nat (length bs)) at 2 by lia; lia).
    rewrite <- Hk, be_encode_decode.
    replace (128 + Z.of_nat (length bs)) with (u8 b1) by lia.
    rewrite byte_of_Z_u8. cbn [app]. f_equal.
    rewrite Hk. symmetry. apply firstn_skipn.
Qed.

(** X1 -- the length fields that [secp256k1_der_read_len] accepts.  The call
    succeeds with length [len] and the pointer moved to [rest] exactly when
    the bytes before [rest] are the shortest DER length octets of [len], for
    a [len] in the range of [size_t]; only a length of the long form (128 or
    more) is compared with the number of bytes that follow, so a short form
    length may exceed it. *)
Theorem der_read_len_accepts (sigp : list byte) (len : Z)
    (rest : list byte) :
  secp256k1_der_read_len sigp = Some (len, rest)
  <-> 0 <= len < size_t_modulus
      /\ (128 <= len -> len <= Z.of_nat (length rest))
      /\ sigp = der_length_octets len ++ rest.
Proof.
  split; [apply der_read_len_inv|].
  intros (Hr & Hb & ->).
  destruct (Z.lt_ge_cases len 128) as [Hs|Hl].
  - apply der_read_len_short. lia.
  - apply der_read_len_octets; lia.
Qed.

(** The next test of a cascade of early returns did not fire. *)
Ltac branch H E :=
  match type of H with
  | (if ?c then _ else _) = _ => destruct c eqn:E; [discriminate H|]
  end.

Lemma firstn_two (n : nat) (l : list byte) (b0 b1 : byte) (t : list byte) :
  firstn n l = b0 :: b1 :: t ->
  (1 < n)%nat /\ byte_at l 0 = b0 /\ byte_at l 1 = b1.
Proof.
  destruct n as [|[|n]], l as [|c0 [|c1 l]]; cbn; intros H;
    try discriminate H.
  injection H as -> -> _. repeat split. lia.
Qed.

Lemma der_parse_integer_shape (sig : list byte) (r : scalar)
    (rest : list byte) :
  secp256k1_der_parse_integer sig = Some (r, rest) ->
  exists content rest0,
    der_content content /\ sig = der_integer content ++ rest0.
Proof.
  intros H. destruct sig as [|tag sig1]; [discriminate|].
  cbn [secp256k1_der_parse_integer] in H.
  destruct (u8 tag =? 2) eqn:Et; [|discriminate]. cbn [negb] in H.
  destruct (secp256k1_der_read_len sig1) as [[rlen sig2]|] eqn:El;
    [|discriminate].
  apply der_read_len_inv in El as (Hr & _ & ->).
  branch H E1. branch H E2. branch H E3. clear H. zbool.
  exists (firstn (Z.to_nat rlen) sig2), (skipn (Z.to_nat rlen) sig2).
  assert (Hlen : length (firstn (Z.to_nat rlen) sig2) = Z.to_nat rlen)
    by (apply firstn_length_le; lia).
  unfold der_content. repeat split.
  - intros Hnil. rewrite Hnil in Hlen. cbn [length] in Hlen. lia.
  - lia.
  - destruct (firstn (Z.to_nat rlen) sig2) as [|b0 [|b1 t]] eqn:Ec;
      cbn [der_excess_padding]; try tauto.
    apply firstn_two in Ec as (Hn & <- & <-).
    rewrite !u8_land_0x80 in *.
    assert (Hg : (rlen >? 1) = true)
      by (rewrite Z.gtb_ltb; apply Z.ltb_lt; lia).
    rewrite Hg in *.
    intros [[P0 P1]|[P0 P1]].
    + rewrite P0 in E2. cbn [Z.eqb andb] in E2.
      destruct (u8 (byte_at sig2 1) <? 128) eqn:E; zbool; lia.
    + rewrite P0, Z.eqb_refl in E3. cbn [andb] in E3.
      destruct (u8 (byte_at sig2 1) <? 128) eqn:E; zbool; lia.
  - unfold der_integer. rewrite Hlen, Z2Nat.id by lia.
    apply (u8_inj tag x02) in Et. subst tag. cbn [app]. f_equal.
    rewrite <- app_assoc, firstn_skipn. reflexivity.
Qed.

Lemma der_parse_integer_inv (sig : list byte) (r : scalar)
    (rest : list byte) :
  secp256k1_der_parse_integer sig = Some (r, rest) ->
  exists content,
    der_content content
    /\ sig = der_integer content ++ rest
    /\ r = der_integer_value content.
Proof.
  intros H.
  destruct (der_parse_integer_shape sig r rest H)
    as (content & rest0 & (Hne & Hmax & Hpad) & ->).
  rewrite der_parse_integer_wellformed in H by assumption.
  injection H as <- <-. exists content. unfold der_content. tauto.
Qed.

(** X2 -- the INTEGER fields that [secp256k1_der_parse_integer] accepts.
    The call succeeds with scalar [r] and the pointer moved to [rest]
    exactly when the bytes before [rest] are a primitive INTEGER with
    shortest length octets and with content octets that are not empty and
    carry no excessive padding, and [r] is what these content octets stand
    for: their value, or 0 when they overflow. *)
Theorem der_parse_integer_accepts (sig : list byte) (r : scalar)
    (rest : list byte) :
  secp256k1_der_parse_integer sig = Some (r, rest)
  <-> exists content,
        der_content content
        /\ sig = der_integer content ++ rest
        /\ r = der_integer_value content.
Proof.
  split; [apply der_parse_integer_inv|].
  intros (content & (Hne & Hmax & Hpad) & -> & ->).
  apply der_parse_integer_wellformed; assumption.
Qed.

Lemma sig_parse_inv (sig : list byte) (r s : scalar) :
  secp256k1_ecdsa_sig_parse sig = Some (r, s) ->
  exists cr cs,
    der_content cr /\ der_content cs
    /\ Z.of_nat (length (der_integer cr ++ der_integer cs)) < size_t_modulus
    /\ sig = der_sequence cr cs
    /\ r = der_integer_value cr /\ s = der_integer_value cs.
Proof.
  intros H. destruct sig as [|b sig1]; [discriminate|].
  cbn [secp256k1_ecdsa_sig_parse] in H.
  destruct (u8 b =? 48) eqn:Eb; [|discriminate]. cbn [negb] in H.
  destruct (secp256k1_der_read_len sig1) as [[rlen sig2]|] eqn:El;
    [|discriminate].
  apply der_read_len_inv in El as (Hr & _ & ->).
  destruct (rlen =? Z.of_nat (length sig2)) eqn:Er; [|discriminate].
  cbn [negb] in H.
  destruct (secp256k1_der_parse_integer sig2) as [[rr sig3]|] eqn:E1;
    [|discriminate].
  destruct (secp256k1_der_parse_integer sig3) as [[rs sig4]|] eqn:E2;
    [|discriminate].
  destruct sig4; [|discriminate]. injection H as <- <-.
  apply der_parse_integer_inv in E1 as (cr & Hc1 & -> & ->).
  apply der_parse_integer_inv in E2 as (cs & Hc2 & -> & ->).
  rewrite app_nil_r in *. zbool. subst rlen.
  apply (u8_inj b x30) in Eb. subst b.
  exists cr, cs. unfold der_sequence. tauto.
Qed.

Lemma sig_parse_sequence (cr cs : list byte) :
  der_content cr -> der_content cs ->
  Z.of_nat (length (der_integer cr ++ der_integer cs)) < size_t_modulus ->
  secp256k1_ecdsa_sig_parse (der_sequence cr cs)
  = Some (der_integer_value cr, der_integer_value cs).
Proof.
  intros (Hne1 & Hmax1 & Hpad1) (Hne2 & Hmax2 & Hpad2) Hmax.
  unfold der_sequence. cbv zeta. cbn [secp256k1_ecdsa_sig_parse].
  change (u8 x30 =? 48) with true. cbn [negb].
  rewrite der_read_len_octets by lia.
  rewrite Z.eqb_refl. cbn [negb].
  rewrite der_parse_integer_wellformed by assumption.
  rewrite <- (app_nil_r (der_integer cs)).
  rewrite der_parse_integer_wellformed by assumption.
  reflexivity.
Qed.

(** X3 -- the signatures that [secp256k1_ecdsa_sig_parse] accepts.  Parsing
    succeeds with [(r, s)] exactly when the input is, with nothing before
    and nothing behind, the SEQUENCE of two well-formed INTEGER fields with
    shortest length octets throughout, and [r] and [s] are what the two
    contents stand for. *)
Theorem sig_parse_accepts (sig : list byte) (r s : scalar) :
  secp256k1_ecdsa_sig_parse sig = Some (r, s)
  <-> exists cr cs,
        der_content cr /\ der_content cs
        /\ Z.of_nat (length (der_integer cr ++ der_integer cs))
           < size_t_modulus
        /\ sig = der_sequence cr cs
        /\ r = der_integer_value cr /\ s = der_integer_value cs.
Proof.
  split; [apply sig_parse_inv|].
  intros (cr & cs & Hc1 & Hc2 & Hmax & -> & -> & ->).
  apply sig_parse_sequence; assumption.
Qed.

(** ** Canonical encodings *)

Lemma der_integer_value_range (content : list byte) :
  0 <= der_integer_value content < order_n.
Proof.
  unfold der_integer_value.
  set (body := if u8 (byte_at content 0) =? 0 then tl content else content).
  pose proof (be_decode_range body). pose proof order_n_bounds.
  destruct (_ || _ || _) eqn:E; [lia|]. zbool. lia.
Qed.

(** Content octets that stand for a non-zero scalar are the shortest
    encoding of that scalar. *)
Lemma der_integer_value_canonical (content : list byte) :
  der_content content -> der_integer_value content <> 0 ->
  content = der_integer_octets (der_integer_value content).
Proof.
  intros (Hne & _ & Hpad). unfold der_integer_value.
  set (body := if u8 (byte_at content 0) =? 0 then tl content else content).
  assert (Hb : be_decode body = be_decode content).
  { subst body. destruct (u8 (byte_at content 0) =? 0) eqn:E; zbool;
      [apply be_decode_tl; assumption|reflexivity]. }
  destruct (_ || _ || _) eqn:E; [congruence|]. intros _. zbool.
  rewrite Hb. unfold der_integer_octets.
  rewrite shortest_length, Nat2Z.id; [symmetry; apply be_encode_decode|..].
  - exact Hne.
  - lia.
  - intros Hlen Hz. destruct content as [|b0 [|b1 t]];
      cbn [length] in Hlen; try lia.
    cbn [byte_at nth] in *. cbn [der_excess_padding] in Hpad.
    destruct (Z.lt_ge_cases (u8 b1) 128); [tauto|lia].
Qed.

Lemma der_signature_sequence (r s : Z) :
  der_signature r s
  = der_sequence (der_integer_octets r) (der_integer_octets s).
Proof. reflexivity. Qed.

(** X4 -- accepted encodings are canonical.  A signature that parses to
    non-zero [r] and [s] is the one encoding of [(r, s)]: the DER encoding
    that the serialiser writes.  Serialising the parsed scalars with enough
    capacity reproduces the parsed bytes at the start of the buffer and
    reports their number. *)
Theorem sig_parse_canonical (sig : list byte) (r s : scalar) :
  secp256k1_ecdsa_sig_parse sig = Some (r, s) -> r <> 0 -> s <> 0 ->
  sig = der_signature r s
  /\ forall (buf : list byte) (size : Z),
       Z.of_nat (length sig) <= size ->
       secp256k1_ecdsa_sig_serialize buf size r s
       = (true, sig ++ skipn (length sig) buf, Z.of_nat (length sig)).
Proof.
  intros H Hr Hs.
  apply sig_parse_inv in H as (cr & cs & Hc1 & Hc2 & _ & -> & -> & ->).
  pose proof (der_integer_value_range cr) as Rr.
  pose proof (der_integer_value_range cs) as Rs.
  pose proof order_n_bounds as Hn.
  assert (E : der_sequence cr cs
              = der_signature (der_integer_value cr) (der_integer_value cs)).
  { rewrite der_signature_sequence.
    rewrite <- !der_integer_value_canonical by assumption. reflexivity. }
  split; [exact E|]. intros buf size Hsize.
  rewrite sig_serialize_refines by lia. cbv zeta. rewrite <- E.
  destruct (size <? _) eqn:Ez; zbool; [lia|reflexivity].
Qed.

Lemma sig_parse_canonical_witness :
  [x30; x06; x02; x01; x05; x02; x01; x07] = der_signature 5 7
  /\ secp256k1_ecdsa_sig_serialize (repeat xff 9) 8 5 7
     = (true, [x30; x06; x02; x01; x05; x02; x01; x07; xff], 8).
Proof.
  destruct (sig_parse_canonical [x30; x06; x02; x01; x05; x02; x01; x07] 5 7
              eq_refl ltac:(discriminate) ltac:(discriminate)) as [E F].
  split; [exact E|].
  exact (F (repeat xff 9) 8 ltac:(vm_compute; discriminate)).
Defined.

Lemma der_length_octets_nonempty (L : Z) :
  (1 <= length (der_length_octets L))%nat.
Proof.
  unfold der_length_octets. destruct (L <? 128); cbn [length]; lia.
Qed.

Lemma der_integer_min_length (content : list byte) :
  content <> [] -> (3 <= length (der_integer content))%nat.
Proof.
  intros Hne. unfold der_integer. cbn [length]. rewrite length_app.
  pose proof (der_length_octets_nonempty (Z.of_nat (length content))).
  assert (1 <= length content)%nat
    by (destruct content; [congruence|cbn [length]; lia]).
  lia.
Qed.

(** X5 -- what a successful parse returns.  Both scalars are reduced, that
    is, below the group order, and the input has at least 8 bytes; nothing
    shorter, the empty input included, is accepted. *)
Theorem sig_parse_range (sig : list byte) (r s : scalar) :
  secp256k1_ecdsa_sig_parse sig = Some (r, s) ->
  0 <= r < order_n /\ 0 <= s < order_n /\ (8 <= length sig)%nat.
Proof.
  intros H.
  apply sig_parse_inv in H
    as (cr & cs & (Hne1 & _) & (Hne2 & _) & _ & -> & -> & ->).
  split; [apply der_integer_value_range|].
  split; [apply der_integer_value_range|].
  pose proof (der_integer_min_length cr Hne1).
  pose proof (der_integer_min_length cs Hne2).
  unfold der_sequence. cbv zeta. cbn [length].
  rewrite !length_app.
  pose proof (der_length_octets_nonempty
                (Z.of_nat (length (der_integer cr ++ der_integer cs)))).
  rewrite length_app in *. lia.
Qed.

Lemma sig_parse_range_witness :
  0 <= 5 < order_n /\ 0 <= 7 < order_n
  /\ (8 <= length [x30; x06; x02; x01; x05; x02; x01; x07])%nat.
Proof.
  apply (sig_parse_range [x30; x06; x02; x01; x05; x02; x01; x07] 5 7).
  reflexivity.
Defined.

Lemma sig_parse_extension (sig extra : list byte) (r s : scalar) :
  secp256k1_ecdsa_sig_parse sig = Some (r, s) -> extra <> [] ->
  secp256k1_ecdsa_sig_parse (sig ++ extra) = None.
Proof.
  intros H Hne.
  apply sig_parse_inv in H as (cr & cs & _ & _ & Hmax & -> & _).
  unfold der_sequence. cbv zeta.
  set (body := der_integer cr ++ der_integer cs) in *.
  cbn [app secp256k1_ecdsa_sig_parse].
  change (u8 x30 =? 48) with true. cbn [negb].
  rewrite <- app_assoc, der_read_len_octets
    by (rewrite ?length_app; lia).
  assert (Hx : (1 <= length extra)%nat)
    by (destruct extra; [congruence|cbn [length]; lia]).
  destruct (_ =? _) eqn:E; zbool; [|reflexivity].
  rewrite length_app in E. lia.
Qed.

(** X6 -- the accepted signatures are prefix-free.  When an input parses,
    the parser rejects that input followed by any further byte, and it
    rejects every proper prefix of it. *)
Theorem sig_parse_prefix_free (sig : list byte) (r s : scalar) :
  secp256k1_ecdsa_sig_parse sig = Some (r, s) ->
  (forall extra, extra <> [] ->
   secp256k1_ecdsa_sig_parse (sig ++ extra) = None)
  /\ (forall k, (k < length sig)%nat ->
      secp256k1_ecdsa_sig_parse (firstn k sig) = None).
Proof.
  intros H. split.
  - intros extra Hne. exact (sig_parse_extension sig extra r s H Hne).
  - intros k Hk.
    destruct (secp256k1_ecdsa_sig_parse (firstn k sig)) as [[r' s']|] eqn:E;
      [exfalso|reflexivity].
    apply (sig_parse_extension _ (skipn k sig)) in E.
    + rewrite firstn_skipn in E. congruence.
    + intros Hnil. apply (f_equal (@length byte)) in Hnil.
      rewrite length_skipn in Hnil. cbn [length] in Hnil. lia.
Qed.

Lemma sig_parse_prefix_free_witness :
  secp256k1_ecdsa_sig_parse
    ([x30; x06; x02; x01; x05; x02; x01; x07] ++ [x00]) = None
  /\ secp256k1_ecdsa_sig_parse
       (firstn 7 [x30; x06; x02; x01; x05; x02; x01; x07]) = None.
Proof.
  destruct (sig_parse_prefix_free [x30; x06; x02; x01; x05; x02; x01; x07]
              5 7 eq_refl) as [E F].
  split.
  - apply E. discriminate.
  - apply F. cbn [length]. lia.
Defined.

(** ** The size of what the serialiser writes *)

(** X7 -- the size of an encoding.  For scalars below the group order the
    size that the serialiser reports lies between 8 and 72, whether the call
    succeeds or not; a capacity of 72 bytes is enough for every
    signature. *)
Theorem serialize_size_bounds (sig : list byte) (size : Z) (r s : scalar) :
  0 <= r < order_n -> 0 <= s < order_n ->
  let '(ret, _, required) := secp256k1_ecdsa_sig_serialize sig size r s in
  8 <= required <= 72 /\ (72 <= size -> ret = true).
Proof.
  intros Hr Hs. pose proof order_n_bounds as Hn.
  assert (Hr' : 0 <= r < 2 ^ 256) by lia.
  assert (Hs' : 0 <= s < 2 ^ 256) by lia.
  rewrite sig_serialize_refines by assumption. cbv zeta.
  destruct (der_signature_layout r s Hr' Hs') as [_ Hlen].
  cbv zeta in Hlen.
  pose proof (der_integer_octets_length r Hr').
  pose proof (der_integer_octets_length s Hs').
  destruct (size <? _) eqn:E; zbool; (split; [lia|]); intros; [lia|].
  reflexivity.
Qed.

Lemma serialize_size_bounds_witness :
  let '(ret, _, required) :=
    secp256k1_ecdsa_sig_serialize (repeat x00 72) 72
      (order_n - 1) (order_n - 1) in
  8 <= required <= 72 /\ (72 <= 72 -> ret = true).
Proof.
  apply (serialize_size_bounds (repeat x00 72) 72 (order_n - 1)
           (order_n - 1)); vm_compute; split; congruence.
Defined.

(** X8 -- the serialiser writes nothing behind the size it reports.  With
    an announced capacity that does not exceed the buffer, the buffer keeps
    its length and every byte from the reported size on is left as it
    was. *)
Theorem serialize_frame (sig : list byte) (size : Z) (r s : scalar) :
  0 <= r < order_n -> 0 <= s < order_n ->
  size <= Z.of_nat (length sig) ->
  let '(_, sig', written) := secp256k1_ecdsa_sig_serialize sig size r s in
  length sig' = length sig
  /\ skipn (Z.to_nat written) sig' = skipn (Z.to_nat written) sig.
Proof.
  intros Hr Hs Hcap. pose proof order_n_bounds as Hn.
  rewrite sig_serialize_refines by lia. cbv zeta.
  destruct (size <? _) eqn:E; zbool; [split; reflexivity|].
  rewrite Nat2Z.id. split.
  - rewrite length_app, length_skipn. lia.
  - rewrite skipn_app, skipn_all, Nat.sub_diag. reflexivity.
Qed.

Lemma serialize_frame_witness :
  let '(_, sig', written) :=
    secp256k1_ecdsa_sig_serialize (repeat xff 10) 9 5 7 in
  length sig' = length (repeat xff 10)
  /\ skipn (Z.to_nat written) sig'
     = skipn (Z.to_nat written) (repeat xff 10).
Proof.
  apply (serialize_frame (repeat xff 10) 9 5 7); vm_compute;
    try split; congruence.
Defined.

(** ** Parsing, then verification *)

Lemma der_integer_value_overflow (content : list byte) :
  der_overflows content -> der_integer_value content = 0.
Proof.
  unfold der_overflows, der_integer_value.
  set (body := if u8 (byte_at content 0) =? 0 then tl content else content).
  assert (Hb : be_decode body = be_decode content).
  { subst body. destruct (u8 (byte_at content 0) =? 0) eqn:E; zbool;
      [apply be_decode_tl; assumption|reflexivity]. }
  rewrite Hb. intros H.
  destruct (128 <=? u8 (byte_at content 0)) eqn:E1; [reflexivity|].
  destruct (32 <? Z.of_nat (length body)) eqn:E2; [reflexivity|].
  destruct (order_n <=? be_decode content) eqn:E3; [reflexivity|].
  zbool. lia.
Qed.

Section ParseThenVerify.

Variable secp256k1_ecmult :
  secp256k1_gej -> scalar -> scalar -> secp256k1_gej.
Variable secp256k1_gej_set_ge : secp256k1_ge -> secp256k1_gej.

Local Abbreviation sig_verify :=
  (secp256k1_ecdsa_sig_verify secp256k1_ecmult secp256k1_gej_set_ge).

(** X9 -- an overflowing INTEGER never verifies.  A signature whose [r] or
    [s] INTEGER is well-formed DER but does not fit a scalar (negative,
    longer than 32 bytes, or at least the group order) is accepted by the
    parser, and the scalars it returns are rejected by
    [secp256k1_ecdsa_sig_verify] for every public key and every message,
    whatever the curve arithmetic computes. *)
Theorem overflow_never_verifies (cr cs : list byte) (pubkey : secp256k1_ge)
    (message : scalar) :
  der_content cr -> der_content cs ->
  Z.of_nat (length (der_integer cr ++ der_integer cs)) < size_t_modulus ->
  der_overflows cr \/ der_overflows cs ->
  exists r s,
    secp256k1_ecdsa_sig_parse (der_sequence cr cs) = Some (r, s)
    /\ sig_verify r s pubkey message = false.
Proof.
  intros Hc1 Hc2 Hmax Hov.
  exists (der_integer_value cr), (der_integer_value cs). split.
  - apply sig_parse_sequence; assumption.
  - unfold secp256k1_ecdsa_sig_verify, secp256k1_scalar_is_zero.
    destruct Hov as [H|H]; rewrite (der_integer_value_overflow _ H).
    + reflexivity.
    + rewrite orb_true_r. reflexivity.
Qed.

End ParseThenVerify.

Lemma overflow_never_verifies_witness :
  exists r s,
    secp256k1_ecdsa_sig_parse
      (der_sequence (x00 :: be_encode 32 order_n) [x01]) = Some (r, s)
    /\ Curve.ecdsa_sig_verify r s
         (Curve.secp256k1_ge_set_gej Curve.generator) 5 = false.
Proof.
  apply (overflow_never_verifies Curve.secp256k1_ecmult
           Curve.secp256k1_gej_set_ge (x00 :: be_encode 32 order_n) [x01]
           (Curve.secp256k1_ge_set_gej Curve.generator) 5).
  - split; [discriminate|]. split; [vm_compute; reflexivity|].
    vm_compute. intros [[_ H]|[H _]]; discriminate H.
  - split; [discriminate|]. split; [vm_compute; reflexivity|].
    cbn. tauto.
  - vm_compute. reflexivity.
  - left. right. right. vm_compute. discriminate.
Defined.

(** ** Signing, verification and the stealth operations over any curve
       arithmetic *)

Lemma scalar_mul_range (a b : scalar) :
  0 <= secp256k1_scalar_mul a b < order_n.
Proof. apply Z.mod_pos_bound. reflexivity. Qed.

Lemma scalar_add_range (a b : scalar) :
  0 <= secp256k1_scalar_add a b < order_n.
Proof. apply Z.mod_pos_bound. reflexivity. Qed.

Lemma order_n_half : order_n = 2 * (order_n / 2) + 1.
Proof. reflexivity. Qed.

Lemma fe_of_scalar (a : scalar) :
  0 <= a < order_n ->
  fst (secp256k1_fe_set_b32_limit (secp256k1_scalar_get_b32 a)) = a.
Proof.
  intros Ha. pose proof order_n_bounds as Hn.
  unfold secp256k1_fe_set_b32_limit, secp256k1_scalar_get_b32. cbn [fst].
  rewrite firstn_all2 by (rewrite be_encode_length; lia).
  rewrite be_decode_encode_small
    by (change (256 ^ Z.of_nat 32) with (2 ^ 256); lia).
  apply Z.mod_small. unfold field_p. fold order_n.
  unfold secp256k1_ecdsa_const_p_minus_order. lia.
Qed.

Lemma gej_eq_x_var_spec (x : fe) (a : secp256k1_gej) :
  secp256k1_gej_eq_x_var x a = true
  <-> (x * (gej_z a * gej_z a)) mod field_p = gej_x a mod field_p.
Proof.
  unfold secp256k1_gej_eq_x_var, secp256k1_fe_mul, secp256k1_fe_normalize.
  rewrite Z.mul_mod_idemp_r by discriminate. apply Z.eqb_eq.
Qed.

Section SignProperties.

Variable secp256k1_ecmult_gen : scalar -> secp256k1_gej.
Variable secp256k1_ge_set_gej : secp256k1_gej -> secp256k1_ge.

Local Abbreviation sig_sign :=
  (secp256k1_ecdsa_sig_sign secp256k1_ecmult_gen secp256k1_ge_set_gej).
Local Abbreviation generate_stealth_J :=
  (secp256k1_generate_stealth_J secp256k1_ecmult_gen secp256k1_ge_set_gej).
Local Abbreviation generate_secure_k :=
  (secp256k1_generate_secure_k secp256k1_ecmult_gen secp256k1_ge_set_gej).

(** C4 -- low-s normalisation.  Every signature that signing returns with
    success has [s <= n/2]; a raw [s] in the high half is replaced by
    [n - s] and the low bit of the recovery id is flipped, a raw [s] in the
    low half is returned as it is with the recovery id unchanged. *)
Theorem sign_low_s (seckey message nonce : scalar) (want_recid : bool)
    (sigr sigs : scalar) (recid : option Z) :
  sig_sign seckey message nonce want_recid = (true, sigr, sigs, recid) ->
  let point := secp256k1_ge_set_gej (secp256k1_ecmult_gen nonce) in
  let overflow :=
    snd (secp256k1_scalar_set_b32
           (secp256k1_fe_get_b32 (secp256k1_fe_normalize (ge_x point)))) in
  let raw_recid :=
    Z.lor (Z.shiftl (Z.b2z overflow) 1)
      (Z.b2z (secp256k1_fe_is_odd (secp256k1_fe_normalize (ge_y point)))) in
  let raw_s :=
    secp256k1_scalar_mul (secp256k1_scalar_inverse nonce)
      (secp256k1_scalar_add (secp256k1_scalar_mul sigr seckey) message) in
  sigs <= order_n / 2
  /\ (order_n / 2 < raw_s ->
      sigs = order_n - raw_s
      /\ recid = if want_recid then Some (Z.lxor raw_recid 1) else None)
  /\ (raw_s <= order_n / 2 ->
      sigs = raw_s
      /\ recid = if want_recid then Some raw_recid else None).
Proof.
  unfold secp256k1_ecdsa_sig_sign.
  destruct (secp256k1_scalar_set_b32 _) as [r0 ov] eqn:Er.
  intros H.
  apply pair_equal_spec in H as [H Hrecid].
  apply pair_equal_spec in H as [H Hsigs].
  apply pair_equal_spec in H as [_ Hsigr].
  subst sigr sigs recid. cbn [snd].
  set (raw := secp256k1_scalar_mul (secp256k1_scalar_inverse nonce) _).
  pose proof (scalar_mul_range (secp256k1_scalar_inverse nonce)
                (secp256k1_scalar_add (secp256k1_scalar_mul r0 seckey)
                   message)) as Hraw.
  fold raw in Hraw. pose proof order_n_half as Hhalf.
  unfold secp256k1_scalar_is_high, secp256k1_scalar_cond_negate,
    secp256k1_scalar_negate.
  destruct (order_n / 2 <? raw) eqn:Eh; zbool.
  - assert (Hneg : - raw mod order_n = order_n - raw).
    { symmetry. apply (Z.mod_unique_pos _ _ (-1)); lia. }
    rewrite Hneg. repeat split; try lia; destruct want_recid; reflexivity.
  - repeat split; try lia; destruct want_recid; cbn [option_map Z.b2z];
      rewrite ?Z.lxor_0_r; reflexivity.
Qed.

(** C9 -- the stealth operations are total.  For every input, whether or not
    the bytes of the secret encode 0 or a value of at least the group order,
    [secp256k1_generate_stealth_J] and [secp256k1_generate_secure_k] return 1
    and produce 32 bytes for each output; the overflow flag of the scalar
    decoding plays no part, the secret enters reduced modulo the order. *)
Theorem stealth_operations_total (j dataHashPointer : list byte) :
  let jScalar := be_decode (firstn 32 j) mod order_n in
  let factor :=
    secp256k1_fe_get_b32
      (secp256k1_fe_normalize
         (ge_x (secp256k1_ge_set_gej (secp256k1_ecmult_gen jScalar)))) in
  generate_stealth_J j = (1, factor)
  /\ length factor = 32%nat
  /\ fst (fst (generate_secure_k j dataHashPointer)) = 1
  /\ snd (fst (generate_secure_k j dataHashPointer)) = factor
  /\ length (snd (generate_secure_k j dataHashPointer)) = 32%nat.
Proof.
  cbv zeta.
  unfold secp256k1_generate_stealth_J, secp256k1_generate_secure_k,
    secp256k1_scalar_set_b32, secp256k1_fe_get_b32, secp256k1_scalar_get_b32.
  cbn [fst snd]. rewrite !be_encode_length. repeat split.
Qed.

End SignProperties.

Section VerifyProperties.

Variable secp256k1_ecmult :
  secp256k1_gej -> scalar -> scalar -> secp256k1_gej.
Variable secp256k1_gej_set_ge : secp256k1_ge -> secp256k1_gej.

Local Abbreviation sig_verify :=
  (secp256k1_ecdsa_sig_verify secp256k1_ecmult secp256k1_gej_set_ge).

(** What verification computes, candidate by candidate. *)
Lemma sig_verify_spec (sigr sigs : scalar) (pubkey : secp256k1_ge)
    (message : scalar) :
  0 < sigr < order_n -> sigs <> 0 ->
  let sn := secp256k1_scalar_inverse_var sigs in
  let pr :=
    secp256k1_ecmult (secp256k1_gej_set_ge pubkey)
      (secp256k1_scalar_mul sn sigr) (secp256k1_scalar_mul sn message) in
  sig_verify sigr sigs pubkey message = true
  <-> gej_infinity pr = false
      /\ ((sigr * (gej_z pr * gej_z pr)) mod field_p = gej_x pr mod field_p
          \/ (sigr + order_n < field_p
              /\ ((sigr + order_n) * (gej_z pr * gej_z pr)) mod field_p
                 = gej_x pr mod field_p)).
Proof.
  intros Hr Hs sn pr.
  unfold secp256k1_ecdsa_sig_verify, secp256k1_scalar_is_zero.
  destruct (sigr =? 0) eqn:E1; zbool; [lia|].
  destruct (sigs =? 0) eqn:E2; zbool; [congruence|].
  cbn [orb]. fold sn. fold pr. unfold secp256k1_gej_is_infinity.
  destruct (gej_infinity pr) eqn:Hinf.
  { split; [discriminate|]. intros [H _]. discriminate H. }
  rewrite fe_of_scalar by lia.
  destruct (secp256k1_gej_eq_x_var sigr pr) eqn:Ex.
  - apply gej_eq_x_var_spec in Ex. tauto.
  - assert (Hx : (sigr * (gej_z pr * gej_z pr)) mod field_p
                 <> gej_x pr mod field_p).
    { intros H. apply gej_eq_x_var_spec in H. congruence. }
    unfold secp256k1_fe_cmp_var.
    destruct (sigr ?= secp256k1_ecdsa_const_p_minus_order) eqn:Ec.
    + apply Z.compare_eq in Ec. cbn [Z.geb Z.compare].
      split; [discriminate|]. intros [_ [H|[H _]]]; [tauto|].
      unfold field_p in H. fold order_n in H. lia.
    + rewrite Z.compare_lt_iff in Ec.
      change (-1 >=? 0) with false. cbv iota.
      assert (Hsum : secp256k1_fe_add sigr
                       secp256k1_ecdsa_const_order_as_fe = sigr + order_n).
      { unfold secp256k1_fe_add. fold order_n. apply Z.mod_small.
        unfold field_p. fold order_n. lia. }
      rewrite Hsum.
      destruct (secp256k1_gej_eq_x_var (sigr + order_n) pr) eqn:Ex2.
      * apply gej_eq_x_var_spec in Ex2. split; [|reflexivity].
        intros _. split; [reflexivity|]. right. split; [|exact Ex2].
        unfold field_p. fold order_n. lia.
      * split; [discriminate|]. intros [_ [H|[_ H]]]; [tauto|].
        apply gej_eq_x_var_spec in H. congruence.
    + rewrite Z.compare_gt_iff in Ec. change (1 >=? 0) with true.
      cbv iota. split; [discriminate|]. intros [_ [H|[H _]]]; [tauto|].
      unfold field_p in H. fold order_n in H. lia.
Qed.

(** C5 -- the two candidates of verification.  For non-zero [r] and [s] and
    a recomputed point [R'] that is not the point at infinity, verification
    accepts exactly when [r * R'.z^2 = R'.x] modulo [p], or [r + n < p] and
    [(r + n) * R'.z^2 = R'.x] modulo [p]; so a signature whose [R'] has an
    affine x-coordinate [X] in [[n, p)], with [r = X - n], is accepted. *)
Theorem verify_two_candidates (sigr sigs : scalar) (pubkey : secp256k1_ge)
    (message : scalar) :
  0 < sigr < order_n -> sigs <> 0 ->
  let sn := secp256k1_scalar_inverse_var sigs in
  let pr :=
    secp256k1_ecmult (secp256k1_gej_set_ge pubkey)
      (secp256k1_scalar_mul sn sigr) (secp256k1_scalar_mul sn message) in
  gej_infinity pr = false ->
  (sig_verify sigr sigs pubkey message = true
   <-> (sigr * (gej_z pr * gej_z pr)) mod field_p = gej_x pr mod field_p
       \/ (sigr + order_n < field_p
           /\ ((sigr + order_n) * (gej_z pr * gej_z pr)) mod field_p
              = gej_x pr mod field_p))
  /\ (forall X : Z,
        order_n <= X < field_p ->
        (X * (gej_z pr * gej_z pr)) mod field_p = gej_x pr mod field_p ->
        sigr = X - order_n ->
        sig_verify sigr sigs pubkey message = true).
Proof.
  intros Hr Hs sn pr Hinf.
  pose proof (sig_verify_spec sigr sigs pubkey message Hr Hs) as Hspec.
  cbv zeta in Hspec. fold sn in Hspec. fold pr in Hspec.
  split.
  - rewrite Hspec. tauto.
  - intros X HX Heq ->. apply Hspec. split; [exact Hinf|]. right.
    replace (X - order_n + order_n) with X by lia. split; [lia|exact Heq].
Qed.

End VerifyProperties.

(** ** The field arithmetic of the curve model *)

Lemma field_p_shape : field_p = 2 ^ 256 - 0x1000003D1.
Proof. reflexivity. Qed.

Lemma fe_fold_spec (x : Z) :
  0 <= x ->
  Curve.fe_fold x mod field_p = x mod field_p
  /\ 0 <= Curve.fe_fold x <= 2 ^ 256 - 1 + 0x1000003D1 * (x / 2 ^ 256).
Proof.
  intros Hx.
  assert (E : Curve.fe_fold x = x mod 2 ^ 256 + 0x1000003D1 * (x / 2 ^ 256)).
  { unfold Curve.fe_fold. change (2 ^ 256 - 1) with (Z.ones 256).
    rewrite Z.land_ones, Z.shiftr_div_pow2 by lia. reflexivity. }
  rewrite E.
  pose proof (Z.mod_pos_bound x (2 ^ 256) eq_refl) as Hlo.
  assert (Hq : 0 <= x / 2 ^ 256) by (apply Z.div_pos; lia).
  split; [|lia].
  rewrite (Z.div_mod x (2 ^ 256)) at 3 by discriminate.
  rewrite field_p_shape.
  set (q := x / 2 ^ 256) in *. set (lo := x mod 2 ^ 256) in *.
  replace (2 ^ 256 * q + lo)
    with (lo + 4294968273 * q + q * (2 ^ 256 - 4294968273)) by ring.
  rewrite Z_mod_plus_full. reflexivity.
Qed.

Lemma fe_reduce_spec (x : Z) :
  0 <= x < 2 ^ 512 -> Curve.fe_reduce x = x mod field_p.
Proof.
  intros Hx. unfold Curve.fe_reduce.
  destruct (fe_fold_spec x ltac:(lia)) as [E1 B1].
  destruct (fe_fold_spec (Curve.fe_fold x) ltac:(lia)) as [E2 B2].
  set (y := Curve.fe_fold (Curve.fe_fold x)) in *.
  assert (Hq1 : x / 2 ^ 256 < 2 ^ 256)
    by (apply Z.div_lt_upper_bound; [reflexivity|];
        change (2 ^ 256 * 2 ^ 256) with (2 ^ 512); lia).
  assert (Hq2 : Curve.fe_fold x / 2 ^ 256 <= 0x1000003D1).
  { apply Z.lt_succ_r. apply Z.div_lt_upper_bound; [reflexivity|]. lia. }
  rewrite <- E1, <- E2. pose proof field_p_shape as Hp.
  destruct (field_p <=? y) eqn:E; zbool.
  - apply (Z.mod_unique_pos y field_p 1); lia.
  - symmetry. apply Z.mod_small. lia.
Qed.

Lemma fmul_spec (a b : fe) :
  0 <= a < field_p -> 0 <= b < field_p ->
  Curve.fmul a b = secp256k1_fe_mul a b.
Proof.
  intros Ha Hb. unfold Curve.fmul, secp256k1_fe_mul.
  apply fe_reduce_spec. pose proof field_p_shape.
  change (2 ^ 512) with (2 ^ 256 * 2 ^ 256). nia.
Qed.

Lemma fsub_spec (a b : fe) :
  0 <= a < field_p -> 0 <= b < field_p ->
  Curve.fsub a b = (a - b) mod field_p.
Proof.
  intros Ha Hb. unfold Curve.fsub.
  destruct (a - b <? 0) eqn:E; zbool.
  - apply (Z.mod_unique_pos (a - b) field_p (-1)); lia.
  - symmetry. apply Z.mod_small. lia.
Qed.

(** ** Evaluation on secp256k1 *)

Lemma curve_points_on_curve :
  ge_on_curve (Curve.secp256k1_ge_set_gej Curve.generator) = true
  /\ ge_on_curve point_x_above_order = true
  /\ ge_on_curve half_point_x_above_order = true.
Proof. vm_compute. repeat split. Qed.

(** Signing with secret key 2 and nonce 6, then verifying against the public
    key [2 * G]. *)
Lemma secp256k1_sign_then_verify :
  let m :=
    0xfff97bd5755eeea420453a14355235d382f6472f8568a18b2f057a1460297556 in
  let '(ok, sigr, sigs, recid) := Curve.ecdsa_sig_sign 2 m 6 true in
  ok = true
  /\ sigs
     = 0x7ffcbdeabaaf775210229d0a1aa91ae9c17b2397c2b450c59782bd0a3014baab
  /\ Curve.ecdsa_sig_verify sigr sigs
       (Curve.secp256k1_ge_set_gej (Curve.secp256k1_ecmult_gen 2)) m
     = true.
Proof. vm_compute. repeat split. Qed.


Lemma sign_low_s_witness :
  Curve.ecdsa_sig_sign 1 high_s_message 1 true
  = (true, Curve.generator_x, 1, Some 1)
  /\ 1 <= order_n / 2
  /\ 1 = order_n - (order_n - 1)
  /\ Some 1 = Some (Z.lxor 0 1).
Proof.
  assert (H : Curve.ecdsa_sig_sign 1 high_s_message 1 true
              = (true, Curve.generator_x, 1, Some 1))
    by (vm_compute; reflexivity).
  pose proof (sign_low_s Curve.secp256k1_ecmult_gen
                Curve.secp256k1_ge_set_gej 1 high_s_message 1 true
                Curve.generator_x 1 (Some 1) H) as (Hlow & Hhigh & _).
  split; [exact H|]. split; [exact Hlow|].
  apply Hhigh. vm_compute. reflexivity.
Defined.

Lemma verify_two_candidates_witness :
  Curve.ecdsa_sig_verify 2 1 half_point_x_above_order 0 = true.
Proof.
  refine (proj2 (verify_two_candidates Curve.secp256k1_ecmult
                   Curve.secp256k1_gej_set_ge 2 1 half_point_x_above_order 0
                   _ _ _) (order_n + 2) _ _ _).
  - vm_compute. split; reflexivity.
  - discriminate.
  - vm_compute. reflexivity.
  - vm_compute. split; congruence.
  - vm_compute. reflexivity.
  - vm_compute. reflexivity.
Defined.

(** The fallback candidate is the one that accepts this signature: the first
    comparison fails. *)
Lemma verify_fallback_taken :
  let pr := Curve.secp256k1_ecmult
              (Curve.secp256k1_gej_set_ge half_point_x_above_order) 2 0 in
  secp256k1_gej_eq_x_var 2 pr = false
  /\ secp256k1_gej_eq_x_var (2 + order_n) pr = true
  /\ Curve.secp256k1_ge_set_gej pr = point_x_above_order.
Proof. vm_compute. repeat split. Qed.

(** C1 -- the commitment round trip fails on the code.  For the secret
    [j = 1] and the all-zero data hash, [secp256k1_generate_secure_k] returns
    a stealth factor and a nonce [k]; signing with [k] succeeds and yields
    [r], and [secp256k1_ecdsa_verify_timestamped_r] on the same data hash,
    that factor and that [r] returns false: the sum of the x-coordinates of
    [j * G] and [h * G] is not the x-coordinate of [(j + h) * G]. *)
Theorem commitment_round_trip_fails :
  let '(ret, stealthFactor, k) :=
    Curve.generate_secure_k stealth_secret_one data_hash_zero in
  let nonce := fst (secp256k1_scalar_set_b32 k) in
  let '(ok, sigr, sigs, recid) := Curve.ecdsa_sig_sign 1 0 nonce true in
  ret = 1
  /\ ok = true
  /\ sigr = 0x8d33fea86f8a5f082849cd1ad574a7256a8e94b70152637ae96f8daf64ee649f
  /\ Curve.ecdsa_verify_timestamped_r data_hash_zero stealthFactor sigr
     = false.
Proof. vm_compute. repeat split. Qed.

(** ** Modular powers and the Lucas primality test *)

Lemma modpow_pos_spec (a : Z) (e : positive) (m : Z) :
  modpow_pos a e m = a ^ Zpos e mod m.
Proof.
  induction e as [e IH|e IH|]; cbn [modpow_pos].
  - rewrite IH, Pos2Z.inj_xI.
    replace (2 * Z.pos e + 1) with (Z.pos e + Z.pos e + 1) by lia.
    rewrite !Z.pow_add_r, Z.pow_1_r by lia.
    rewrite <- Zmult_mod, Zmult_mod_idemp_l. reflexivity.
  - rewrite IH, Pos2Z.inj_xO.
    replace (2 * Z.pos e) with (Z.pos e + Z.pos e) by lia.
    rewrite Z.pow_add_r by lia. now rewrite <- Zmult_mod.
  - now rewrite Z.pow_1_r.
Qed.

Lemma modpow_spec (a e m : Z) : 0 <= e -> modpow a e m = a ^ e mod m.
Proof.
  intros He. destruct e as [|e|e]; [reflexivity| |lia].
  apply modpow_pos_spec.
Qed.

Section Lucas.

Variables N g : Z.
Hypothesis N_gt_1 : 1 < N.
Hypothesis g_full : g ^ (N - 1) mod N = 1.

Lemma pow_mod_add (a b : Z) :
  0 <= a -> 0 <= b -> g ^ (a + b) mod N = (g ^ a mod N * (g ^ b mod N)) mod N.
Proof. intros. rewrite Z.pow_add_r, Zmult_mod by lia. reflexivity. Qed.

Lemma pow_mod_mul (a b : Z) :
  0 <= a -> 0 <= b -> g ^ a mod N = 1 -> g ^ (a * b) mod N = 1.
Proof.
  intros Ha Hb H1. rewrite Z.pow_mul_r, <- Z.mod_pow_l, H1, Z.pow_1_l by lia.
  apply Z.mod_1_l. lia.
Qed.

(** The exponents that send [g] to 1 are closed under [gcd]. *)
Lemma pow_mod_gcd (b : Z) :
  0 <= b -> forall a, 0 <= a ->
  g ^ a mod N = 1 -> g ^ b mod N = 1 -> g ^ Z.gcd a b mod N = 1.
Proof.
  intros Hb. pattern b. apply Z_lt_induction; [|exact Hb].
  clear b Hb. intros b IH a Ha H1 H2.
  destruct (Z.eq_dec b 0) as [->|Hnz].
  - rewrite Z.gcd_0_r, Z.abs_eq by lia. exact H1.
  - assert (Hb : 0 <= b).
    { destruct (Z.le_gt_cases 0 b); [assumption|].
      rewrite Z.pow_neg_r in H2 by lia. rewrite Z.mod_0_l in H2; lia. }
    pose proof (Z.mod_pos_bound a b ltac:(lia)) as Hr.
    rewrite Z.gcd_comm, <- (Z.gcd_mod a b) by lia. rewrite Z.gcd_comm.
    apply IH; [lia|lia|exact H2|].
    rewrite (Z.div_mod a b Hnz) in H1.
    rewrite pow_mod_add in H1; try lia;
      [|apply Z.mul_nonneg_nonneg; [lia|apply Z.div_pos; lia]].
    rewrite (pow_mod_mul b (a / b)) in H1;
      try lia; try assumption; [|apply Z.div_pos; lia].
    rewrite Z.mul_1_l, Z.mod_mod in H1 by lia. exact H1.
Qed.

Variable fs : list Z.
Hypothesis fs_prime : forall q, In q fs -> Z.prime q.
Hypothesis fs_product : fold_right Z.mul 1 fs = N - 1.
Hypothesis g_proper : forall q, In q fs -> g ^ ((N - 1) / q) mod N <> 1.

Lemma prime_factor_listed (l : list Z) (c : Z) :
  (forall q, In q l -> Z.prime q) -> 1 < c -> (c | fold_right Z.mul 1 l) ->
  exists q, In q l /\ (q | c).
Proof.
  induction l as [|q l IH]; intros Hp Hc Hd; cbn [fold_right] in Hd.
  - exfalso. apply Z.divide_1_r_nonneg in Hd; lia.
  - destruct (Z.BoolSpec_divide q c) as [Hq|Hq].
    + exists q. split; [left; reflexivity|exact Hq].
    + assert (Hcop : Z.coprime q c)
        by (apply Z.coprime_prime_l; [apply Hp; left; reflexivity|exact Hq]).
      assert (Hd' : (c | fold_right Z.mul 1 l)).
      { apply Z.gauss with q; [exact Hd|].
        unfold Z.coprime in Hcop. rewrite Z.gcd_comm. exact Hcop. }
      destruct (IH (fun x Hx => Hp x (or_intror Hx)) Hc Hd') as (x & Hx & Hxc).
      exists x. split; [right; exact Hx|exact Hxc].
Qed.

Lemma no_smaller_order (d : Z) : 0 < d < N - 1 -> g ^ d mod N <> 1.
Proof.
  intros Hd H1.
  pose proof (pow_mod_gcd (N - 1) ltac:(lia) d ltac:(lia) H1 g_full) as He.
  set (e := Z.gcd d (N - 1)) in *.
  assert (He0 : 0 < e).
  { pose proof (Z.gcd_nonneg d (N - 1)). fold e in H.
    destruct (Z.eq_dec e 0) as [E|]; [|lia].
    apply Z.gcd_eq_0_l in E. lia. }
  assert (Hed : (e | d)) by apply Z.gcd_divide_l.
  assert (HeN : (e | N - 1)) by apply Z.gcd_divide_r.
  assert (Hle : e <= d) by (apply Z.divide_pos_le; [lia|exact Hed]).
  destruct HeN as [c Hc].
  assert (Hc1 : 1 < c) by nia.
  destruct (prime_factor_listed fs c fs_prime Hc1) as (q & Hq & [c' Hc']).
  { rewrite fs_product. exists e. lia. }
  pose proof (Z.prime_ge_2 q (fs_prime q Hq)) as Hq2.
  apply (g_proper q Hq).
  replace ((N - 1) / q) with (e * c').
  - apply pow_mod_mul; [lia|nia|exact He].
  - apply Z.div_unique_exact; [lia|]. rewrite Hc, Hc'. ring.
Qed.

Lemma pow_mod_unit (i : Z) :
  0 <= i <= N - 1 -> (g ^ i mod N * (g ^ (N - 1 - i) mod N)) mod N = 1.
Proof.
  intros Hi. rewrite <- pow_mod_add by lia.
  replace (i + (N - 1 - i)) with (N - 1) by lia. exact g_full.
Qed.

Lemma pow_mod_injective (i j : Z) :
  0 <= i < j -> j < N - 1 -> g ^ i mod N <> g ^ j mod N.
Proof.
  intros Hi Hj E. apply (no_smaller_order (j - i)); [lia|].
  assert (Hj' : g ^ j mod N = (g ^ i mod N * (g ^ (j - i) mod N)) mod N).
  { rewrite <- pow_mod_add by lia. f_equal. f_equal. lia. }
  pose proof (pow_mod_unit i ltac:(lia)) as Hu.
  set (x := g ^ i mod N) in *. set (y := g ^ (N - 1 - i) mod N) in *.
  set (z := g ^ (j - i) mod N) in *.
  assert (Hz : 0 <= z < N) by (apply Z.mod_pos_bound; lia).
  assert (Hxz : (x * z) mod N = x) by congruence.
  assert (E2 : z mod N = 1).
  { rewrite <- (Z.mul_1_l z), <- Hu, Zmult_mod_idemp_l.
    replace (x * y * z) with (y * (x * z)) by ring.
    rewrite <- Zmult_mod_idemp_r, Hxz, Z.mul_comm. reflexivity. }
  rewrite Z.mod_small in E2 by lia. exact E2.
Qed.

Lemma lucas_units (x : Z) :
  1 <= x < N -> exists y, (x * y) mod N = 1.
Proof.
  intros Hx.
  set (k := Z.to_nat (N - 1)).
  set (L := map (fun i => g ^ Z.of_nat i mod N) (seq 0 k)).
  set (T := map Z.of_nat (seq 1 k)).
  assert (HL : NoDup L).
  { apply NoDup_map_NoDup_ForallPairs; [|apply seq_NoDup].
    intros i j Hi Hj E. apply in_seq in Hi, Hj.
    destruct (Nat.lt_trichotomy i j) as [Hlt|[Heq|Hgt]]; [|exact Heq|].
    - exfalso. apply (pow_mod_injective (Z.of_nat i) (Z.of_nat j)); lia.
    - exfalso. apply (pow_mod_injective (Z.of_nat j) (Z.of_nat i)); lia. }
  assert (Hincl : incl L T).
  { intros v Hv. apply in_map_iff in Hv as (i & <- & Hi).
    apply in_seq in Hi.
    pose proof (pow_mod_unit (Z.of_nat i) ltac:(lia)) as Hu.
    assert (Hr : 0 <= g ^ Z.of_nat i mod N < N)
      by (apply Z.mod_pos_bound; lia).
    assert (Hnz : g ^ Z.of_nat i mod N <> 0).
    { intros E0. rewrite E0, Z.mul_0_l, Z.mod_0_l in Hu; lia. }
    apply in_map_iff. exists (Z.to_nat (g ^ Z.of_nat i mod N)).
    split; [lia|]. apply in_seq. lia. }
  assert (Hback : incl T L).
  { apply NoDup_length_incl; [exact HL| |exact Hincl].
    subst L T. rewrite !length_map, !length_seq. lia. }
  assert (Hin : In x L).
  { apply Hback. apply in_map_iff. exists (Z.to_nat x).
    split; [lia|]. apply in_seq. lia. }
  apply in_map_iff in Hin as (i & <- & Hi). apply in_seq in Hi.
  exists (g ^ (N - 1 - Z.of_nat i) mod N). apply pow_mod_unit. lia.
Qed.

Theorem lucas_prime : Z.prime N.
Proof.
  split; [exact N_gt_1|]. intros d Hd [c Hc].
  destruct (lucas_units d ltac:(lia)) as [y Hy].
  assert (Hc0 : 0 < c) by nia.
  assert (E : (c * (d * y)) mod N = c mod N)
    by (rewrite <- Zmult_mod_idemp_r, Hy, Z.mul_1_r; reflexivity).
  replace (c * (d * y)) with (y * N) in E by (rewrite Hc; ring).
  rewrite Z.mod_mul in E by lia.
  rewrite Z.mod_small in E by nia. lia.
Qed.

End Lucas.

Lemma lucas_check_entry_sound (known : list Z) (N g : Z) (fs : list Z) :
  (forall q, In q known -> Z.prime q) ->
  lucas_check_entry known (N, g, fs) = true -> Z.prime N.
Proof.
  intros Hknown H. unfold lucas_check_entry in H.
  apply andb_prop in H as [H Hfs]. apply andb_prop in H as [H Hfull].
  apply andb_prop in H as [HN Hprod].
  apply Z.ltb_lt in HN. apply Z.eqb_eq in Hprod, Hfull.
  rewrite modpow_spec in Hfull by lia.
  rewrite forallb_forall in Hfs.
  assert (Hq : forall q, In q fs ->
                 Z.prime q /\ modpow g ((N - 1) / q) N <> 1).
  { intros q Hin. apply (nodup_In Z.eq_dec) in Hin.
    specialize (Hfs q Hin). apply andb_prop in Hfs as [Hk Hne].
    apply existsb_exists in Hk as (x & Hx & Exq). apply Z.eqb_eq in Exq.
    subst x. split; [apply Hknown; exact Hx|].
    apply negb_true_iff, Z.eqb_neq in Hne. exact Hne. }
  apply (lucas_prime N g HN Hfull fs).
  - intros q Hin. apply (Hq q Hin).
  - exact Hprod.
  - intros q Hin. destruct (Hq q Hin) as [Hp Hne].
    rewrite <- modpow_spec; [exact Hne|].
    apply Z.div_pos; [lia|]. pose proof (Z.prime_ge_2 q Hp). lia.
Qed.

Lemma lucas_check_sound (cs : list (Z * Z * list Z)) :
  lucas_check cs = true ->
  forall q, In q (2 :: map (fun c => fst (fst c)) cs) -> Z.prime q.
Proof.
  induction cs as [|[[N g] fs] cs IH]; intros H q Hq.
  - destruct Hq as [<-|[]]. exact Z.prime_2.
  - cbn [lucas_check] in H. apply andb_prop in H as [Hcs He].
    specialize (IH Hcs).
    cbn [map fst In] in Hq. destruct Hq as [<-|[<-|Hq]].
    + apply IH. left. reflexivity.
    + apply (lucas_check_entry_sound _ N g fs IH He).
    + apply IH. right. exact Hq.
Qed.

(** The group order is prime. *)
Lemma order_n_prime : Z.prime order_n.
Proof.
  apply (lucas_check_sound order_n_certificate);
    [vm_cast_no_check (eq_refl true)|right; left; reflexivity].
Qed.

(** ** The scalar field *)

Lemma scalar_inverse_range (a : scalar) :
  0 <= secp256k1_scalar_inverse a < order_n.
Proof.
  unfold secp256k1_scalar_inverse. rewrite <- Z.mod_invmod.
  apply Z.mod_pos_bound. reflexivity.
Qed.

Lemma scalar_inverse_spec (a : scalar) :
  0 < a < order_n ->
  secp256k1_scalar_mul (secp256k1_scalar_inverse a) a = 1.
Proof.
  intros Ha. unfold secp256k1_scalar_mul, secp256k1_scalar_inverse.
  apply Z.invmod_prime; [exact order_n_prime|].
  rewrite Z.mod_small; lia.
Qed.

(** Cancellation in the scalar field. *)
Lemma scalar_mul_cancel (a x y : Z) :
  0 < a < order_n -> (a * x) mod order_n = (a * y) mod order_n ->
  x mod order_n = y mod order_n.
Proof.
  intros Ha E. pose proof (scalar_inverse_spec a Ha) as Hi.
  unfold secp256k1_scalar_mul in Hi.
  set (i := secp256k1_scalar_inverse a) in *.
  rewrite <- (Z.mul_1_l x), <- (Z.mul_1_l y), <- Hi.
  rewrite !Zmult_mod_idemp_l, <- !Z.mul_assoc.
  rewrite <- Zmult_mod_idemp_r, E, Zmult_mod_idemp_r. reflexivity.
Qed.

(** ** Congruences *)

#[local] Existing Instance eqm_setoid.
#[local] Existing Instance Zplus_eqm.
#[local] Existing Instance Zminus_eqm.
#[local] Existing Instance Zmult_eqm.
#[local] Existing Instance Zopp_eqm.

Section Congruences.

Variable n : Z.

Local Infix "==" := (eqm n) (at level 70).

Lemma cong_eq (a b : Z) : a = b -> a == b.
Proof. intros ->. reflexivity. Qed.

Lemma cong_signature (sn r sk m : Z) :
  (sn * r mod n) * sk + (sn * m mod n) == sn * ((r * sk + m) mod n).
Proof. rewrite !Zmod_eqm. apply cong_eq. ring. Qed.

Lemma cong_recover (k kinv s sn t : Z) :
  kinv * k == 1 -> sn * s == 1 -> s == kinv * t -> sn * t == k.
Proof.
  intros Hk Hs Hst.
  transitivity (sn * t * (kinv * k)).
  - rewrite Hk. apply cong_eq. ring.
  - transitivity (sn * (kinv * t) * k); [apply cong_eq; ring|].
    rewrite <- Hst, Hs. apply cong_eq. ring.
Qed.

Lemma cong_recover_opp (k kinv s sn t : Z) :
  kinv * k == 1 -> sn * s == 1 -> s == - (kinv * t) -> sn * t == - k.
Proof.
  intros Hk Hs Hst.
  transitivity (sn * t * (kinv * k)).
  - rewrite Hk. apply cong_eq. ring.
  - transitivity (- (sn * (- (kinv * t))) * k); [apply cong_eq; ring|].
    rewrite <- Hst, Hs. apply cong_eq. ring.
Qed.

Lemma cong_inverse_opp (s a b : Z) :
  a * s == 1 -> b * (n - s) == 1 -> b == - a.
Proof.
  intros Ha Hb.
  transitivity (b * (a * s)).
  - rewrite Ha. apply cong_eq. ring.
  - transitivity (- (b * (n - s)) * a + (b * a) * n);
      [apply cong_eq; ring|].
    rewrite Hb. unfold eqm. rewrite Z_mod_plus_full. f_equal; try ring.
Qed.

Lemma cong_cancel_square (z zi a b : Z) :
  z * zi == 1 -> a * (z * z) == b * (z * z) -> a == b.
Proof.
  intros Hz E.
  transitivity (a * (z * z) * (zi * zi)).
  - transitivity (a * ((z * zi) * (z * zi))); [|apply cong_eq; ring].
    rewrite Hz. apply cong_eq. ring.
  - rewrite E.
    transitivity (b * ((z * zi) * (z * zi))); [apply cong_eq; ring|].
    rewrite Hz. apply cong_eq. ring.
Qed.

End Congruences.

(** ** Signing and verification under the contract of the curve arithmetic *)

Lemma order_lt_field : order_n < field_p < 2 * order_n.
Proof. split; reflexivity. Qed.

Lemma field_lt_2_256 : field_p < 2 ^ 256.
Proof. reflexivity. Qed.

Lemma scalar_negate_nonzero (a : scalar) :
  0 < a < order_n -> secp256k1_scalar_negate a = order_n - a.
Proof.
  intros Ha. unfold secp256k1_scalar_negate. symmetry.
  apply (Z.mod_unique_pos _ _ (-1)); lia.
Qed.

Lemma scalar_inverse_unit (s : scalar) :
  0 < s < order_n -> eqm order_n (secp256k1_scalar_inverse s * s) 1.
Proof.
  intros Hs. unfold eqm. pose proof (scalar_inverse_spec s Hs) as H.
  unfold secp256k1_scalar_mul in H. rewrite H. symmetry.
  apply Z.mod_1_l. pose proof order_n_bounds. lia.
Qed.

(** The exponent of the recomputed point for [n - s] is the opposite of the
    one for [s]. *)
Lemma negated_s_exponent (k r s m : scalar) :
  0 < s < order_n ->
  let sn := secp256k1_scalar_inverse s in
  let sn' := secp256k1_scalar_inverse (order_n - s) in
  (secp256k1_scalar_mul sn' r * k + secp256k1_scalar_mul sn' m) mod order_n
  = (- ((secp256k1_scalar_mul sn r * k + secp256k1_scalar_mul sn m)
        mod order_n)) mod order_n.
Proof.
  intros Hs sn sn'.
  assert (Hopp : eqm order_n sn' (- sn)).
  { apply (cong_inverse_opp order_n s).
    - apply scalar_inverse_unit. exact Hs.
    - apply scalar_inverse_unit. lia. }
  unfold secp256k1_scalar_mul. change (eqm order_n
    ((sn' * r) mod order_n * k + (sn' * m) mod order_n)
    (- (((sn * r) mod order_n * k + (sn * m) mod order_n) mod order_n))).
  rewrite !Zmod_eqm, Hopp. apply cong_eq. ring.
Qed.

(** ** The signing equation *)

(** The raw [s] of a signature, times the nonce, is the signed value. *)
Lemma raw_s_equation (nonce t : Z) :
  0 < nonce < order_n ->
  eqm order_n
    (secp256k1_scalar_mul (secp256k1_scalar_inverse nonce) t * nonce) t.
Proof.
  intros Hk. pose proof (scalar_inverse_unit nonce Hk) as Hu.
  unfold secp256k1_scalar_mul. rewrite Zmod_eqm.
  transitivity (secp256k1_scalar_inverse nonce * nonce * t);
    [apply cong_eq; ring|].
  rewrite Hu. apply cong_eq. ring.
Qed.

(** The normalisation of [s] to the low half. *)
Lemma cond_negate_high (a : scalar) :
  0 <= a < order_n ->
  let b := secp256k1_scalar_cond_negate a (secp256k1_scalar_is_high a) in
  0 <= b <= order_n / 2
  /\ (b = 0 <-> a = 0)
  /\ eqm order_n b (if secp256k1_scalar_is_high a then - a else a).
Proof.
  intros Ha. pose proof order_n_half as Hh.
  unfold secp256k1_scalar_cond_negate, secp256k1_scalar_is_high.
  destruct (order_n / 2 <? a) eqn:E; zbool; cbv zeta.
  - rewrite scalar_negate_nonzero by lia.
    repeat split; try lia.
    unfold eqm. replace (order_n - a) with (- a + 1 * order_n) by ring.
    apply Z_mod_plus_full.
  - repeat split; lia.
Qed.

(** The exponent [e] of the point that verification recomputes for
    [(r, s)], used as the nonce, gives back [s] as the raw value of
    signing. *)
Lemma verified_exponent_congruence (seckey r s m : scalar) :
  eqm order_n
    ((secp256k1_scalar_mul (secp256k1_scalar_inverse s) r * seckey
      + secp256k1_scalar_mul (secp256k1_scalar_inverse s) m) mod order_n)
    (secp256k1_scalar_inverse s
     * secp256k1_scalar_add (secp256k1_scalar_mul r seckey) m).
Proof.
  rewrite Zmod_eqm. unfold secp256k1_scalar_mul.
  rewrite cong_signature. unfold secp256k1_scalar_add.
  rewrite Zplus_mod_idemp_l. reflexivity.
Qed.

Lemma raw_s_recovered (e en s sn t : Z) :
  0 < s < order_n ->
  eqm order_n (sn * s) 1 -> eqm order_n (en * e) 1 ->
  eqm order_n e (sn * t) ->
  secp256k1_scalar_mul en t = s.
Proof.
  intros Hs Hsn Hen Het.
  transitivity (s mod order_n); [|apply Z.mod_small; lia].
  unfold secp256k1_scalar_mul. change (eqm order_n (en * t) s).
  transitivity (en * e * s); [|rewrite Hen; apply cong_eq; ring].
  transitivity (en * (sn * s) * t); [rewrite Hsn; apply cong_eq; ring|].
  transitivity (en * s * (sn * t)); [apply cong_eq; ring|].
  rewrite <- Het. apply cong_eq. ring.
Qed.

Lemma verified_exponent (seckey r s m e : scalar) :
  0 < s < order_n ->
  e = (secp256k1_scalar_mul (secp256k1_scalar_inverse s) r * seckey
       + secp256k1_scalar_mul (secp256k1_scalar_inverse s) m) mod order_n ->
  e <> 0 ->
  0 < e < order_n
  /\ secp256k1_scalar_mul (secp256k1_scalar_inverse e)
       (secp256k1_scalar_add (secp256k1_scalar_mul r seckey) m) = s.
Proof.
  intros Hs Ee He0.
  assert (He : 0 < e < order_n).
  { pose proof (Z.mod_pos_bound
                  (secp256k1_scalar_mul (secp256k1_scalar_inverse s) r
                   * seckey
                   + secp256k1_scalar_mul (secp256k1_scalar_inverse s) m)
                  order_n eq_refl) as H.
    rewrite <- Ee in H. lia. }
  split; [exact He|].
  apply (raw_s_recovered e _ s (secp256k1_scalar_inverse s)).
  - exact Hs.
  - apply scalar_inverse_unit. exact Hs.
  - apply scalar_inverse_unit. exact He.
  - rewrite Ee. apply verified_exponent_congruence.
Qed.

Section SignEquation.

Variable secp256k1_ecmult_gen : scalar -> secp256k1_gej.
Variable secp256k1_ge_set_gej : secp256k1_gej -> secp256k1_ge.

Local Abbreviation sig_sign :=
  (secp256k1_ecdsa_sig_sign secp256k1_ecmult_gen secp256k1_ge_set_gej).

(** What signing reads as [r]: the x-coordinate of the nonce point, taken
    as 32 big-endian bytes and reduced modulo the group order. *)
Local Abbreviation nonce_r nonce :=
  (fst (secp256k1_scalar_set_b32
          (secp256k1_fe_get_b32
             (secp256k1_fe_normalize
                (ge_x (secp256k1_ge_set_gej
                         (secp256k1_ecmult_gen nonce))))))).

Lemma sign_s_congruence (seckey message nonce : scalar)
    (want_recid : bool) :
  0 < nonce < order_n ->
  let '(ret, sigr, sigs, _) := sig_sign seckey message nonce want_recid in
  sigr = nonce_r nonce
  /\ (eqm order_n (sigs * nonce) (sigr * seckey + message)
      \/ eqm order_n (sigs * nonce) (- (sigr * seckey + message)))
  /\ (ret = false
      <-> sigr = 0 \/ (sigr * seckey + message) mod order_n = 0).
Proof.
  intros Hk. unfold secp256k1_ecdsa_sig_sign.
  destruct (secp256k1_scalar_set_b32 _) as [r0 ov]. cbn [fst].
  set (t := secp256k1_scalar_add (secp256k1_scalar_mul r0 seckey) message).
  set (raw := secp256k1_scalar_mul (secp256k1_scalar_inverse nonce) t).
  assert (Ht : t = (r0 * seckey + message) mod order_n).
  { subst t. unfold secp256k1_scalar_add, secp256k1_scalar_mul.
    apply Zplus_mod_idemp_l. }
  assert (Ht' : eqm order_n t (r0 * seckey + message))
    by (rewrite Ht; apply Zmod_eqm).
  pose proof (raw_s_equation nonce t Hk) as Hraw. fold raw in Hraw.
  pose proof (scalar_mul_range (secp256k1_scalar_inverse nonce) t) as Rraw.
  fold raw in Rraw.
  destruct (cond_negate_high raw Rraw) as (_ & Hz & Hs).
  cbv zeta in Hz, Hs.
  split; [reflexivity|]. split.
  - rewrite Hs. destruct (secp256k1_scalar_is_high raw); [right|left].
    + rewrite <- Ht', <- Hraw. apply cong_eq. ring.
    + rewrite <- Ht', <- Hraw. reflexivity.
  - assert (Hrt : raw = 0 <-> t = 0).
    { pose proof order_n_bounds as Hn. split; intros E.
      - rewrite E in Hraw. unfold eqm in Hraw. cbn [Z.mul] in Hraw.
        rewrite Z.mod_0_l in Hraw by lia.
        rewrite Ht in *. rewrite Z.mod_mod in Hraw by lia. congruence.
      - subst raw. rewrite E. unfold secp256k1_scalar_mul.
        rewrite Z.mul_0_r. reflexivity. }
    unfold secp256k1_scalar_is_zero. rewrite <- Ht.
    destruct (r0 =? 0) eqn:E1; zbool; cbn [negb andb].
    + split; [left; assumption|reflexivity].
    + destruct (_ =? 0) eqn:E2; zbool; cbn [negb].
      * split; [right; tauto|reflexivity].
      * split; [discriminate|]. intros [H|H]; [contradiction|tauto].
Qed.

Lemma sign_scalars_range (seckey message nonce : scalar)
    (want_recid : bool) :
  let '(_, sigr, sigs, _) := sig_sign seckey message nonce want_recid in
  0 <= sigr < order_n /\ 0 <= sigs <= order_n / 2.
Proof.
  unfold secp256k1_ecdsa_sig_sign.
  destruct (secp256k1_scalar_set_b32 _) as [r0 ov] eqn:Er.
  unfold secp256k1_scalar_set_b32 in Er.
  apply pair_equal_spec in Er as [Er _].
  split; [subst r0; apply Z.mod_pos_bound; reflexivity|].
  apply cond_negate_high, scalar_mul_range.
Qed.

(** X10 -- the range of what signing returns.  Whatever the inputs and
    whether or not the call succeeds, [r] is a reduced scalar, [s] lies
    between 0 and half the group order, and a recovery id is written
    exactly when the caller asks for one and then lies between 0 and 3. *)
Theorem sign_outputs_range (seckey message nonce : scalar)
    (want_recid : bool) :
  let '(_, sigr, sigs, recid) := sig_sign seckey message nonce want_recid in
  0 <= sigr < order_n
  /\ 0 <= sigs <= order_n / 2
  /\ match recid with
     | Some v => want_recid = true /\ 0 <= v <= 3
     | None => want_recid = false
     end.
Proof.
  pose proof (sign_scalars_range seckey message nonce want_recid) as H.
  unfold secp256k1_ecdsa_sig_sign in *.
  destruct (secp256k1_scalar_set_b32 _) as [r0 ov].
  destruct H as [Hr Hs]. split; [exact Hr|]. split; [exact Hs|].
  destruct want_recid; cbn [option_map]; [split; [reflexivity|]|reflexivity].
  destruct ov, (secp256k1_fe_is_odd _), (secp256k1_scalar_is_high _);
    cbn; lia.
Qed.

(** X11 -- the signing equation.  For a non-zero nonce [k], the returned
    [s] satisfies [s * k = r * seckey + message] modulo the group order, up
    to the sign that the normalisation to the low half may have flipped. *)
Theorem sign_equation (seckey message nonce : scalar) (want_recid : bool) :
  0 < nonce < order_n ->
  let '(_, sigr, sigs, _) := sig_sign seckey message nonce want_recid in
  (sigs * nonce) mod order_n = (sigr * seckey + message) mod order_n
  \/ (sigs * nonce) mod order_n = (- (sigr * seckey + message)) mod order_n.
Proof.
  intros Hk.
  pose proof (sign_s_congruence seckey message nonce want_recid Hk) as H.
  destruct (sig_sign seckey message nonce want_recid)
    as [[[ret sigr] sigs] recid].
  exact (proj1 (proj2 H)).
Qed.

(** X12 -- when signing fails.  For a non-zero nonce, signing returns 0
    exactly when the x-coordinate of the nonce point reduces to [r = 0] or
    the signed value [r * seckey + message] is 0 modulo the group order. *)
Theorem sign_fails_iff (seckey message nonce : scalar) (want_recid : bool) :
  0 < nonce < order_n ->
  let '(ret, sigr, _, _) := sig_sign seckey message nonce want_recid in
  ret = false
  <-> sigr = 0 \/ (sigr * seckey + message) mod order_n = 0.
Proof.
  intros Hk.
  pose proof (sign_s_congruence seckey message nonce want_recid Hk) as H.
  destruct (sig_sign seckey message nonce want_recid)
    as [[[ret sigr] sigs] recid].
  exact (proj2 (proj2 H)).
Qed.

(** X13 -- a nonce used twice.  Two signatures made with the same secret
    key and the same non-zero nonce [k] have the same [r], and one of the
    four combinations [s1 - s2], [s1 + s2], [- s1 - s2], [s2 - s1], times
    [k], is the difference of the two messages modulo the group order. *)
Theorem sign_nonce_reuse (seckey m1 m2 nonce : scalar) (w1 w2 : bool) :
  0 < nonce < order_n ->
  let '(_, r1, s1, _) := sig_sign seckey m1 nonce w1 in
  let '(_, r2, s2, _) := sig_sign seckey m2 nonce w2 in
  r1 = r2
  /\ exists c,
       (c = s1 - s2 \/ c = s1 + s2 \/ c = - s1 - s2 \/ c = s2 - s1)
       /\ (c * nonce) mod order_n = (m1 - m2) mod order_n.
Proof.
  intros Hk.
  pose proof (sign_s_congruence seckey m1 nonce w1 Hk) as H1.
  pose proof (sign_s_congruence seckey m2 nonce w2 Hk) as H2.
  destruct (sig_sign seckey m1 nonce w1) as [[[ret1 r1] s1] recid1].
  destruct (sig_sign seckey m2 nonce w2) as [[[ret2 r2] s2] recid2].
  destruct H1 as (E1 & C1 & _), H2 as (E2 & C2 & _).
  split; [congruence|]. rewrite <- E1 in E2. subst r2.
  assert (Hd : forall a b x y : Z,
            eqm order_n (a * nonce) x -> eqm order_n (b * nonce) y ->
            eqm order_n ((a - b) * nonce) (x - y)).
  { intros a b x y Ha Hb. rewrite <- Ha, <- Hb. apply cong_eq. ring. }
  assert (Ho : forall a x : Z,
            eqm order_n (a * nonce) (- x) -> eqm order_n (- a * nonce) x).
  { intros a x Ha. transitivity (- (a * nonce)); [apply cong_eq; ring|].
    rewrite Ha. apply cong_eq. ring. }
  destruct C1 as [C1|C1], C2 as [C2|C2].
  - exists (s1 - s2). split; [tauto|].
    change (eqm order_n ((s1 - s2) * nonce) (m1 - m2)).
    rewrite (Hd _ _ _ _ C1 C2). apply cong_eq. ring.
  - exists (s1 + s2). split; [tauto|].
    change (eqm order_n ((s1 + s2) * nonce) (m1 - m2)).
    replace (s1 + s2) with (s1 - - s2) by ring.
    rewrite (Hd _ _ _ _ C1 (Ho _ _ C2)). apply cong_eq. ring.
  - exists (- s1 - s2). split; [tauto|].
    change (eqm order_n ((- s1 - s2) * nonce) (m1 - m2)).
    rewrite (Hd _ _ _ _ (Ho _ _ C1) C2). apply cong_eq. ring.
  - exists (s2 - s1). split; [tauto|].
    change (eqm order_n ((s2 - s1) * nonce) (m1 - m2)).
    replace (s2 - s1) with (- s1 - - s2) by ring.
    rewrite (Hd _ _ _ _ (Ho _ _ C1) (Ho _ _ C2)). apply cong_eq. ring.
Qed.

(** X14 -- signing, then the codec.  Whatever signing returns, with success
    or not, can be serialised into 72 bytes, and parsing the bytes written
    gives back the same [r] and [s]. *)
Theorem sign_serialize_parse (seckey message nonce : scalar)
    (want_recid : bool) (buf : list byte) (size : Z) :
  72 <= size ->
  let '(_, sigr, sigs, _) := sig_sign seckey message nonce want_recid in
  exists (sig' : list byte) (written : Z),
    secp256k1_ecdsa_sig_serialize buf size sigr sigs = (true, sig', written)
    /\ written <= 72
    /\ secp256k1_ecdsa_sig_parse (firstn (Z.to_nat written) sig')
       = Some (sigr, sigs).
Proof.
  intros Hsize.
  pose proof (sign_scalars_range seckey message nonce want_recid) as H.
  destruct (sig_sign seckey message nonce want_recid)
    as [[[ret sigr] sigs] recid].
  destruct H as [Hr Hs]. pose proof order_n_bounds as Hn.
  pose proof order_n_half as Hh.
  assert (Hr' : 0 <= sigr < 2 ^ 256) by lia.
  assert (Hs' : 0 <= sigs < 2 ^ 256) by lia.
  destruct (der_signature_layout sigr sigs Hr' Hs') as [_ Hlen].
  cbv zeta in Hlen.
  pose proof (der_integer_octets_length sigr Hr').
  pose proof (der_integer_octets_length sigs Hs').
  exists (der_signature sigr sigs
          ++ skipn (length (der_signature sigr sigs)) buf),
    (Z.of_nat (length (der_signature sigr sigs))).
  rewrite sig_serialize_refines by assumption. cbv zeta.
  destruct (size <? _) eqn:E; zbool; [lia|].
  split; [reflexivity|]. split; [lia|].
  rewrite Nat2Z.id, firstn_app, firstn_all, Nat.sub_diag, firstn_O.
  rewrite app_nil_r, sig_parse_der_signature by assumption.
  rewrite !der_integer_value_octets by lia. reflexivity.
Qed.

End SignEquation.

(** ** The nonce of the stealth protocol *)

(** A reduced scalar written as 32 bytes is read back as it was. *)
Lemma scalar_b32_round_trip (a : scalar) :
  0 <= a < order_n ->
  secp256k1_scalar_set_b32 (secp256k1_scalar_get_b32 a) = (a, false).
Proof.
  intros Ha. pose proof order_n_bounds as Hn.
  unfold secp256k1_scalar_set_b32, secp256k1_scalar_get_b32.
  rewrite firstn_all2 by (rewrite be_encode_length; lia).
  rewrite be_decode_encode_small
    by (change (256 ^ Z.of_nat 32) with (2 ^ 256); lia).
  rewrite Z.mod_small by lia.
  destruct (order_n <=? a) eqn:E; zbool; [lia|reflexivity].
Qed.

Section StealthNonce.

Variable secp256k1_ecmult_gen : scalar -> secp256k1_gej.
Variable secp256k1_ge_set_gej : secp256k1_gej -> secp256k1_ge.

Local Abbreviation generate_secure_k :=
  (secp256k1_generate_secure_k secp256k1_ecmult_gen secp256k1_ge_set_gej).

(** X15 -- the nonce that [secp256k1_generate_secure_k] writes.  The 32
    bytes of [k] are a reduced scalar: read back as a scalar they give,
    without overflow, the sum modulo the group order of the secret [j] and
    of the tagged hash of the stealth factor and the data hash. *)
Theorem secure_k_scalar (j dataHashPointer : list byte) :
  let jScalar := fst (secp256k1_scalar_set_b32 j) in
  let '(_, stealthFactor, k) := generate_secure_k j dataHashPointer in
  let hashResult :=
    fst (secp256k1_scalar_set_b32
           (stealth_hash stealthFactor dataHashPointer)) in
  secp256k1_scalar_set_b32 k
  = ((jScalar + hashResult) mod order_n, false).
Proof.
  unfold secp256k1_generate_secure_k, secp256k1_scalar_set_b32.
  cbv beta iota zeta. cbn [fst].
  exact (scalar_b32_round_trip _ (scalar_add_range _ _)).
Qed.

End StealthNonce.

Lemma sign_serialize_parse_witness :
  let '(_, sigr, sigs, _) := Curve.ecdsa_sig_sign 3 5 2 true in
  exists (sig' : list byte) (written : Z),
    secp256k1_ecdsa_sig_serialize (repeat x00 72) 72 sigr sigs
    = (true, sig', written)
    /\ written <= 72
    /\ secp256k1_ecdsa_sig_parse (firstn (Z.to_nat written) sig')
       = Some (sigr, sigs).
Proof.
  apply (sign_serialize_parse Curve.secp256k1_ecmult_gen
           Curve.secp256k1_ge_set_gej 3 5 2 true (repeat x00 72) 72).
  lia.
Defined.

Lemma sign_equation_witness :
  let '(_, sigr, sigs, _) := Curve.ecdsa_sig_sign 3 5 2 true in
  (sigs * 2) mod order_n = (sigr * 3 + 5) mod order_n
  \/ (sigs * 2) mod order_n = (- (sigr * 3 + 5)) mod order_n.
Proof.
  apply (sign_equation Curve.secp256k1_ecmult_gen
           Curve.secp256k1_ge_set_gej 3 5 2 true).
  split; reflexivity.
Defined.

Lemma sign_fails_iff_witness :
  let '(ret, sigr, _, _) :=
    Curve.ecdsa_sig_sign 1 (order_n - Curve.generator_x) 1 true in
  ret = false
  <-> sigr = 0
      \/ (sigr * 1 + (order_n - Curve.generator_x)) mod order_n = 0.
Proof.
  apply (sign_fails_iff Curve.secp256k1_ecmult_gen
           Curve.secp256k1_ge_set_gej 1 (order_n - Curve.generator_x) 1
           true).
  split; reflexivity.
Defined.

Lemma sign_nonce_reuse_witness :
  let '(_, r1, s1, _) := Curve.ecdsa_sig_sign 3 5 2 true in
  let '(_, r2, s2, _) := Curve.ecdsa_sig_sign 3 6 2 false in
  r1 = r2
  /\ exists c,
       (c = s1 - s2 \/ c = s1 + s2 \/ c = - s1 - s2 \/ c = s2 - s1)
       /\ (c * 2) mod order_n = (5 - 6) mod order_n.
Proof.
  apply (sign_nonce_reuse Curve.secp256k1_ecmult_gen
           Curve.secp256k1_ge_set_gej 3 5 6 2 true false).
  split; reflexivity.
Defined.

Section CurveContract.

Variable secp256k1_ecmult_gen : scalar -> secp256k1_gej.
Variable secp256k1_ecmult :
  secp256k1_gej -> scalar -> scalar -> secp256k1_gej.
Variable secp256k1_ge_set_gej : secp256k1_gej -> secp256k1_ge.
Variable secp256k1_gej_set_ge : secp256k1_ge -> secp256k1_gej.

(** The contract.  The curve group is cyclic of prime order [n] with
    generator [G]: [point_x k] is the affine x-coordinate of [k * G],
    [ge_is a k] says that the affine group element [a] is [k * G], and
    [gej_is a k] says that the Jacobian group element [a] is [k * G]. *)
Variable point_x : scalar -> fe.
Variable ge_is : secp256k1_ge -> scalar -> Prop.
Variable gej_is : secp256k1_gej -> scalar -> Prop.

(** Opposite points have the same x-coordinate. *)
Hypothesis point_x_range :
  forall k, 0 < k < order_n -> 0 <= point_x k < field_p.
Hypothesis point_x_negate :
  forall k, 0 < k < order_n -> point_x (order_n - k) = point_x k.

(** What the coordinates of a group element are. *)
Hypothesis ge_is_coordinates :
  forall a k, 0 < k < order_n -> ge_is a k ->
  ge_x a mod field_p = point_x k.
Hypothesis gej_is_infinity :
  forall a k, 0 <= k < order_n -> gej_is a k ->
  gej_infinity a = (k =? 0).
Hypothesis gej_is_coordinates :
  forall a k, 0 < k < order_n -> gej_is a k ->
  gej_x a mod field_p = (point_x k * (gej_z a * gej_z a)) mod field_p
  /\ exists zi, (gej_z a * zi) mod field_p = 1.

(** What the four operations compute. *)
Hypothesis ecmult_gen_is :
  forall k, 0 <= k < order_n -> gej_is (secp256k1_ecmult_gen k) k.
Hypothesis ge_set_gej_is :
  forall a k, 0 < k < order_n -> gej_is a k ->
  ge_is (secp256k1_ge_set_gej a) k.
Hypothesis gej_set_ge_is :
  forall a k, 0 < k < order_n -> ge_is a k ->
  gej_is (secp256k1_gej_set_ge a) k.
Hypothesis ecmult_is :
  forall a k na ng,
  0 < k < order_n -> 0 <= na < order_n -> 0 <= ng < order_n ->
  gej_is a k ->
  gej_is (secp256k1_ecmult a na ng) ((na * k + ng) mod order_n).

Local Abbreviation sig_sign :=
  (secp256k1_ecdsa_sig_sign secp256k1_ecmult_gen secp256k1_ge_set_gej).
Local Abbreviation sig_verify :=
  (secp256k1_ecdsa_sig_verify secp256k1_ecmult secp256k1_gej_set_ge).

Lemma candidates_contract (a : secp256k1_gej) (e r : Z) :
  0 < e < order_n -> gej_is a e -> 0 < r < order_n ->
  ((r * (gej_z a * gej_z a)) mod field_p = gej_x a mod field_p
   \/ (r + order_n < field_p
       /\ ((r + order_n) * (gej_z a * gej_z a)) mod field_p
          = gej_x a mod field_p))
  <-> (r = point_x e \/ r + order_n = point_x e).
Proof.
  intros He Ha Hr. pose proof order_lt_field as Hnp.
  destruct (gej_is_coordinates a e He Ha) as [Hx [zi Hzi]].
  pose proof (point_x_range e He) as HX.
  assert (Hcancel : forall v, 0 <= v < field_p ->
            (v * (gej_z a * gej_z a)) mod field_p = gej_x a mod field_p ->
            v = point_x e).
  { intros v Hv H. rewrite Hx in H.
    apply (cong_cancel_square field_p (gej_z a) zi) in H.
    - unfold eqm in H. rewrite !Z.mod_small in H by lia. exact H.
    - unfold eqm. rewrite Hzi. symmetry. apply Z.mod_1_l. lia. }
  split.
  - intros [H|[Hlt H]].
    + left. apply Hcancel; [lia|exact H].
    + right. apply Hcancel; [lia|exact H].
  - intros [H|H].
    + left. rewrite Hx, H. reflexivity.
    + right. split; [lia|]. rewrite Hx, H. reflexivity.
Qed.

(** Verification of [(r, s)] against the public key [k * G] accepts exactly
    when [r] is the x-coordinate, reduced modulo [n], of
    [(s^-1 * r * k + s^-1 * m) * G]. *)
Lemma sig_verify_contract (pubkey : secp256k1_ge) (k r s m : scalar) :
  0 < k < order_n -> ge_is pubkey k ->
  0 < r < order_n -> 0 < s < order_n -> 0 <= m < order_n ->
  let sn := secp256k1_scalar_inverse s in
  let e := (secp256k1_scalar_mul sn r * k + secp256k1_scalar_mul sn m)
           mod order_n in
  sig_verify r s pubkey m = true
  <-> e <> 0 /\ (r = point_x e \/ r + order_n = point_x e).
Proof.
  intros Hk HQ Hr Hs Hm sn e.
  pose proof (sig_verify_spec secp256k1_ecmult secp256k1_gej_set_ge
                r s pubkey m Hr ltac:(lia)) as Hspec.
  cbv zeta in Hspec. unfold secp256k1_scalar_inverse_var in Hspec.
  fold sn in Hspec.
  set (pr := secp256k1_ecmult (secp256k1_gej_set_ge pubkey)
               (secp256k1_scalar_mul sn r) (secp256k1_scalar_mul sn m))
    in *.
  assert (He : 0 <= e < order_n) by (apply Z.mod_pos_bound; reflexivity).
  assert (Hpr : gej_is pr e).
  { apply ecmult_is; try apply scalar_mul_range; [exact Hk|].
    apply gej_set_ge_is; assumption. }
  rewrite Hspec, (gej_is_infinity pr e He Hpr).
  destruct (e =? 0) eqn:E0; zbool.
  - split; [intros [H _]; discriminate H|intros [H _]; congruence].
  - rewrite (candidates_contract pr e r ltac:(lia) Hpr Hr). tauto.
Qed.

(** C10 -- verification does not enforce low [s].  For every [r], every
    public key [k * G], every message and every non-zero [s], verification
    accepts [(r, s)] exactly when it accepts [(r, n - s)]: the recomputed
    points are opposite and have the same x-coordinate. *)
Theorem verify_ignores_s_sign (pubkey : secp256k1_ge) (k r s m : scalar) :
  0 < k < order_n -> ge_is pubkey k ->
  0 <= r < order_n -> 0 < s < order_n -> 0 <= m < order_n ->
  sig_verify r s pubkey m = true
  <-> sig_verify r (order_n - s) pubkey m = true.
Proof.
  intros Hk HQ Hr Hs Hm.
  destruct (Z.eq_dec r 0) as [->|Hr0].
  { unfold secp256k1_ecdsa_sig_verify, secp256k1_scalar_is_zero.
    cbn [Z.eqb orb]. tauto. }
  rewrite (sig_verify_contract pubkey k r s m) by (assumption || lia).
  rewrite (sig_verify_contract pubkey k r (order_n - s) m)
    by (assumption || lia).
  cbv zeta. rewrite (negated_s_exponent k r s m Hs). cbv zeta.
  set (e := (secp256k1_scalar_mul (secp256k1_scalar_inverse s) r * k
             + secp256k1_scalar_mul (secp256k1_scalar_inverse s) m)
            mod order_n).
  assert (He : 0 <= e < order_n) by (apply Z.mod_pos_bound; reflexivity).
  destruct (Z.eq_dec e 0) as [E0|E0].
  - rewrite E0. cbn [Z.opp]. rewrite Z.mod_0_l by discriminate. tauto.
  - fold (secp256k1_scalar_negate e).
    rewrite scalar_negate_nonzero, point_x_negate by lia.
    split; intros [_ H]; (split; [lia|exact H]).
Qed.

(** The x-coordinate of the nonce point, as signing reads it. *)
Lemma sign_r_contract (nonce : scalar) :
  0 < nonce < order_n ->
  secp256k1_scalar_set_b32
    (secp256k1_fe_get_b32
       (secp256k1_fe_normalize
          (ge_x (secp256k1_ge_set_gej (secp256k1_ecmult_gen nonce)))))
  = (point_x nonce mod order_n, order_n <=? point_x nonce).
Proof.
  intros Hk. pose proof (point_x_range nonce Hk) as HX.
  pose proof field_lt_2_256 as Hp.
  unfold secp256k1_fe_normalize.
  rewrite (ge_is_coordinates _ nonce Hk)
    by (apply ge_set_gej_is; [exact Hk|apply ecmult_gen_is; lia]).
  unfold secp256k1_scalar_set_b32, secp256k1_fe_get_b32.
  rewrite firstn_all2 by (rewrite be_encode_length; lia).
  rewrite be_decode_encode_small
    by (change (256 ^ Z.of_nat 32) with (2 ^ 256); lia).
  reflexivity.
Qed.

(** C2 -- consistency of signing and verification.  For a non-zero secret
    key, a non-zero nonce and a message scalar, whenever signing succeeds
    with [(r, s)], verification of [(r, s)] against the public key
    [seckey * G] and the same message accepts. *)
Theorem sign_then_verify (seckey message nonce : scalar)
    (want_recid : bool) (sigr sigs : scalar) (recid : option Z) :
  0 < seckey < order_n -> 0 < nonce < order_n -> 0 <= message < order_n ->
  sig_sign seckey message nonce want_recid = (true, sigr, sigs, recid) ->
  sig_verify sigr sigs
    (secp256k1_ge_set_gej (secp256k1_ecmult_gen seckey)) message = true.
Proof.
  intros Hsk Hk Hm H. pose proof order_lt_field as Hnp.
  pose proof (point_x_range nonce Hk) as HX.
  unfold secp256k1_ecdsa_sig_sign in H.
  rewrite (sign_r_contract nonce Hk) in H.
  apply pair_equal_spec in H as [H _].
  apply pair_equal_spec in H as [H Hsigs].
  apply pair_equal_spec in H as [Hret Hsigr].
  set (t := secp256k1_scalar_add (secp256k1_scalar_mul sigr seckey) message)
    in *.
  rewrite Hsigr in Hsigs, Hret. fold t in Hsigs, Hret.
  set (raw := secp256k1_scalar_mul (secp256k1_scalar_inverse nonce) t) in *.
  apply andb_prop in Hret as [Hr0 Hs0].
  unfold secp256k1_scalar_is_zero in Hr0, Hs0. rewrite Hsigs in Hs0. zbool.
  assert (Hraw : 0 <= raw < order_n) by apply scalar_mul_range.
  assert (Hr : 0 < sigr < order_n).
  { pose proof (Z.mod_pos_bound (point_x nonce) order_n eq_refl).
    rewrite Hsigr in *. lia. }
  assert (Hs : 0 < sigs < order_n).
  { rewrite <- Hsigs in Hs0 |- *.
    unfold secp256k1_scalar_cond_negate, secp256k1_scalar_negate in *.
    destruct (secp256k1_scalar_is_high raw);
      [pose proof (Z.mod_pos_bound (- raw) order_n eq_refl)|]; lia. }
  assert (Hpub : ge_is (secp256k1_ge_set_gej (secp256k1_ecmult_gen seckey))
                   seckey)
    by (apply ge_set_gej_is; [exact Hsk|apply ecmult_gen_is; lia]).
  apply (sig_verify_contract _ seckey sigr sigs message Hsk Hpub Hr Hs Hm).
  cbv zeta. set (sn := secp256k1_scalar_inverse sigs).
  assert (Ht : eqm order_n
                 (secp256k1_scalar_mul sn sigr * seckey
                  + secp256k1_scalar_mul sn message) (sn * t)).
  { unfold secp256k1_scalar_mul. rewrite cong_signature.
    subst t. unfold secp256k1_scalar_add, secp256k1_scalar_mul.
    rewrite Zplus_mod_idemp_l. reflexivity. }
  assert (Hsn : eqm order_n (sn * sigs) 1)
    by (apply scalar_inverse_unit; exact Hs).
  assert (Hkinv : eqm order_n (secp256k1_scalar_inverse nonce * nonce) 1)
    by (apply scalar_inverse_unit; exact Hk).
  assert (Hx : point_x nonce mod order_n = point_x nonce
               \/ point_x nonce mod order_n + order_n = point_x nonce).
  { destruct (Z.lt_ge_cases (point_x nonce) order_n) as [Hlt|Hge].
    - left. apply Z.mod_small. lia.
    - right. rewrite <- (Z.mod_unique_pos (point_x nonce) order_n 1
                           (point_x nonce - order_n)); lia. }
  unfold secp256k1_scalar_cond_negate in Hsigs.
  destruct (secp256k1_scalar_is_high raw).
  - assert (He : (secp256k1_scalar_mul sn sigr * seckey
                  + secp256k1_scalar_mul sn message) mod order_n
                 = order_n - nonce).
    { rewrite <- scalar_negate_nonzero by exact Hk.
      unfold secp256k1_scalar_negate. change (eqm order_n
        (secp256k1_scalar_mul sn sigr * seckey
         + secp256k1_scalar_mul sn message) (- nonce)).
      rewrite Ht.
      apply (cong_recover_opp order_n nonce
               (secp256k1_scalar_inverse nonce) sigs sn t Hkinv Hsn).
      rewrite <- Hsigs. unfold secp256k1_scalar_negate, raw,
        secp256k1_scalar_mul. rewrite !Zmod_eqm. reflexivity. }
    rewrite He, point_x_negate, <- Hsigr by exact Hk.
    split; [lia|exact Hx].
  - assert (He : (secp256k1_scalar_mul sn sigr * seckey
                  + secp256k1_scalar_mul sn message) mod order_n = nonce).
    { transitivity (nonce mod order_n); [|apply Z.mod_small; lia].
      change (eqm order_n
        (secp256k1_scalar_mul sn sigr * seckey
         + secp256k1_scalar_mul sn message) nonce).
      rewrite Ht.
      apply (cong_recover order_n nonce
               (secp256k1_scalar_inverse nonce) sigs sn t Hkinv Hsn).
      rewrite <- Hsigs. unfold raw, secp256k1_scalar_mul.
      rewrite Zmod_eqm. reflexivity. }
    rewrite He, <- Hsigr. split; [lia|exact Hx].
Qed.

(** A reduced [r] is the x-coordinate [X < p] modulo [n] exactly when it is
    one of the two candidates [X] and [X - n]. *)
Lemma reduced_x_candidates (r X : Z) :
  0 <= r < order_n -> 0 <= X < field_p ->
  r = X mod order_n <-> (r = X \/ r + order_n = X).
Proof.
  intros Hr HX. pose proof order_lt_field as Hnp.
  destruct (Z.lt_ge_cases X order_n) as [Hlt|Hge].
  - rewrite Z.mod_small by lia. split; [tauto|lia].
  - rewrite <- (Z.mod_unique_pos X order_n 1 (X - order_n)) by lia.
    split; lia.
Qed.

(** X16 -- what verification accepts.  For a public key [k * G],
    [secp256k1_ecdsa_sig_verify] accepts [(r, s)] for the message [m]
    exactly when [r] and [s] are not zero, the point
    [(s^-1 * m) * G + (s^-1 * r) * (k * G)] is not the point at infinity,
    and [r] is the x-coordinate of that point reduced modulo the group
    order: the two comparisons in Jacobian coordinates decide the
    comparison that the comment in the source sets out to make. *)
Theorem verify_accepts_iff (pubkey : secp256k1_ge) (k r s m : scalar) :
  0 < k < order_n -> ge_is pubkey k ->
  0 <= r < order_n -> 0 <= s < order_n -> 0 <= m < order_n ->
  let sn := secp256k1_scalar_inverse s in
  let e := (secp256k1_scalar_mul sn r * k + secp256k1_scalar_mul sn m)
           mod order_n in
  sig_verify r s pubkey m = true
  <-> r <> 0 /\ s <> 0 /\ e <> 0 /\ r = point_x e mod order_n.
Proof.
  intros Hk HQ Hr Hs Hm sn e.
  destruct (Z.eq_dec r 0) as [->|Hr0].
  { unfold secp256k1_ecdsa_sig_verify, secp256k1_scalar_is_zero.
    cbn [Z.eqb orb]. split; [discriminate|tauto]. }
  destruct (Z.eq_dec s 0) as [Hs0|Hs0].
  { unfold secp256k1_ecdsa_sig_verify, secp256k1_scalar_is_zero.
    rewrite Hs0, orb_true_r. split; [discriminate|tauto]. }
  rewrite (sig_verify_contract pubkey k r s m) by (assumption || lia).
  cbv zeta. fold sn. fold e.
  assert (He : 0 <= e < order_n) by (apply Z.mod_pos_bound; reflexivity).
  destruct (Z.eq_dec e 0) as [E0|E0]; [tauto|].
  rewrite (reduced_x_candidates r (point_x e))
    by (try apply point_x_range; lia).
  tauto.
Qed.

Lemma scalar_set_b32_range (b32 : list byte) :
  0 <= fst (secp256k1_scalar_set_b32 b32) < order_n.
Proof. apply Z.mod_pos_bound. reflexivity. Qed.

(** X17 -- what the timestamp check compares.  Let the nonce be the one
    that [secp256k1_generate_secure_k] derives from the secret [j] and the
    data hash, with [j], the tagged hash [h] and the nonce [j + h] not zero
    modulo the group order.  Signing with this nonce returns as [r] the
    x-coordinate of [(j + h) * G] reduced modulo the group order, and
    [secp256k1_ecdsa_verify_timestamped_r] accepts this [r], for the same
    data hash and the stealth factor that was derived with the nonce,
    exactly when that x-coordinate equals, modulo the group order, the sum
    of the x-coordinates of [j * G] and of [h * G]. *)
Theorem timestamped_r_accepts_iff (j dataHashPointer : list byte)
    (seckey message : scalar) (want_recid : bool) :
  let jScalar := fst (secp256k1_scalar_set_b32 j) in
  let out :=
    secp256k1_generate_secure_k secp256k1_ecmult_gen secp256k1_ge_set_gej
      j dataHashPointer in
  let stealthFactor := snd (fst out) in
  let hashResult :=
    fst (secp256k1_scalar_set_b32
           (stealth_hash stealthFactor dataHashPointer)) in
  let nonce := fst (secp256k1_scalar_set_b32 (snd out)) in
  let sigr := snd (fst (fst (sig_sign seckey message nonce want_recid))) in
  jScalar <> 0 -> hashResult <> 0 -> nonce <> 0 ->
  sigr = point_x nonce mod order_n
  /\ (secp256k1_ecdsa_verify_timestamped_r secp256k1_ecmult_gen
        secp256k1_ge_set_gej dataHashPointer stealthFactor sigr = true
      <-> point_x nonce mod order_n
          = (point_x jScalar mod order_n + point_x hashResult mod order_n)
            mod order_n).
Proof.
  cbv zeta. unfold secp256k1_generate_secure_k.
  pose proof (scalar_set_b32_range j) as Rj.
  destruct (secp256k1_scalar_set_b32 j) as [jS ovj].
  cbn [fst snd] in *.
  set (factor :=
         secp256k1_fe_get_b32
           (secp256k1_fe_normalize
              (ge_x (secp256k1_ge_set_gej (secp256k1_ecmult_gen jS))))).
  pose proof (scalar_set_b32_range (stealth_hash factor dataHashPointer))
    as Rh.
  destruct (secp256k1_scalar_set_b32 (stealth_hash factor dataHashPointer))
    as [hS ovh] eqn:Eh.
  cbn [fst snd] in *. rewrite Eh. cbn [fst].
  rewrite (scalar_b32_round_trip _ (scalar_add_range jS hS)).
  cbn [fst]. pose proof (scalar_add_range jS hS) as Rk.
  set (nonce := secp256k1_scalar_add jS hS) in *.
  intros Hj Hh Hk.
  unfold secp256k1_ecdsa_sig_sign.
  rewrite (sign_r_contract nonce) by lia. cbn [fst snd].
  split; [reflexivity|].
  unfold secp256k1_ecdsa_verify_timestamped_r. rewrite Eh.
  rewrite (sign_r_contract hS) by lia.
  subst factor. rewrite (sign_r_contract jS) by lia.
  unfold secp256k1_scalar_eq, secp256k1_scalar_add.
  rewrite Z.eqb_eq. subst nonce. unfold secp256k1_scalar_add.
  split; intros H; symmetry; exact H.
Qed.

(** X18 -- the stealth factor.  For a secret [j] that is not zero modulo
    the group order, [secp256k1_generate_stealth_J] writes the x-coordinate
    of [j * G] as 32 big-endian bytes; the opposite secret [n - j] gives
    the same stealth factor. *)
Theorem stealth_factor_x_coordinate (j : list byte) :
  let jScalar := fst (secp256k1_scalar_set_b32 j) in
  jScalar <> 0 ->
  secp256k1_generate_stealth_J secp256k1_ecmult_gen secp256k1_ge_set_gej j
  = (1, be_encode 32 (point_x jScalar))
  /\ secp256k1_generate_stealth_J secp256k1_ecmult_gen secp256k1_ge_set_gej
       (secp256k1_scalar_get_b32 (secp256k1_scalar_negate jScalar))
     = secp256k1_generate_stealth_J secp256k1_ecmult_gen
         secp256k1_ge_set_gej j.
Proof.
  cbv zeta. unfold secp256k1_generate_stealth_J.
  pose proof (scalar_set_b32_range j) as Rj.
  destruct (secp256k1_scalar_set_b32 j) as [jS ovj].
  cbn [fst] in *. intros Hj.
  assert (Hx : forall a, 0 < a < order_n ->
            secp256k1_fe_normalize
              (ge_x (secp256k1_ge_set_gej (secp256k1_ecmult_gen a)))
            = point_x a).
  { intros a Ha. unfold secp256k1_fe_normalize.
    apply ge_is_coordinates; [exact Ha|].
    apply ge_set_gej_is; [exact Ha|apply ecmult_gen_is; lia]. }
  rewrite scalar_negate_nonzero by lia.
  rewrite (scalar_b32_round_trip (order_n - jS)) by lia.
  rewrite !Hx by lia. rewrite point_x_negate by lia.
  split; reflexivity.
Qed.

(** X19 -- verification accepts nothing but what signing makes.  For the key
    pair of a non-zero secret key, every [(r, s)] with [s] in the low half
    that [secp256k1_ecdsa_sig_verify] accepts for a message is returned,
    with success, by [secp256k1_ecdsa_sig_sign] for that secret key and
    message with some non-zero nonce. *)
Theorem verified_signature_is_signed (seckey r s m : scalar) :
  0 < seckey < order_n ->
  0 <= r < order_n -> 0 <= s <= order_n / 2 -> 0 <= m < order_n ->
  sig_verify r s (secp256k1_ge_set_gej (secp256k1_ecmult_gen seckey)) m
  = true ->
  exists nonce,
    0 < nonce < order_n
    /\ sig_sign seckey m nonce false = (true, r, s, None).
Proof.
  intros Hsk Hr Hs Hm Hv. pose proof order_n_half as Hh.
  assert (Hnz : r <> 0 /\ s <> 0).
  { unfold secp256k1_ecdsa_sig_verify, secp256k1_scalar_is_zero in Hv.
    destruct (r =? 0) eqn:E1; [discriminate|].
    destruct (s =? 0) eqn:E2; [discriminate|]. zbool. tauto. }
  destruct Hnz as [Hr0 Hs0].
  assert (Hpub : ge_is (secp256k1_ge_set_gej (secp256k1_ecmult_gen seckey))
                   seckey)
    by (apply ge_set_gej_is; [exact Hsk|apply ecmult_gen_is; lia]).
  apply (sig_verify_contract _ seckey r s m Hsk Hpub) in Hv; try lia.
  cbv zeta in Hv.
  remember ((secp256k1_scalar_mul (secp256k1_scalar_inverse s) r * seckey
             + secp256k1_scalar_mul (secp256k1_scalar_inverse s) m)
            mod order_n) as e eqn:Ee.
  destruct Hv as [He0 Hx].
  destruct (verified_exponent seckey r s m e ltac:(lia) Ee He0)
    as [He Hraw].
  apply (reduced_x_candidates r (point_x e)) in Hx;
    [|lia|apply point_x_range; exact He].
  exists e. split; [exact He|].
  unfold secp256k1_ecdsa_sig_sign.
  rewrite (sign_r_contract e He), <- Hx. cbv beta iota zeta.
  rewrite Hraw.
  unfold secp256k1_scalar_is_high, secp256k1_scalar_cond_negate,
    secp256k1_scalar_is_zero.
  destruct (order_n / 2 <? s) eqn:E1; zbool; [lia|].
  destruct (r =? 0) eqn:E2; zbool; [lia|].
  destruct (s =? 0) eqn:E3; zbool; [lia|].
  reflexivity.
Qed.

End CurveContract.

(** ** The contract holds in the model *)

Lemma log_point_x_range (k : scalar) :
  0 < k < order_n -> 0 <= LogModel.point_x k < field_p.
Proof. intros _. apply Z.mod_pos_bound. reflexivity. Qed.

Lemma log_point_x_negate (k : scalar) :
  0 < k < order_n -> LogModel.point_x (order_n - k) = LogModel.point_x k.
Proof. intros _. unfold LogModel.point_x. f_equal. ring. Qed.

Lemma log_ge_is_coordinates (a : secp256k1_ge) (k : scalar) :
  0 < k < order_n -> LogModel.ge_is a k ->
  ge_x a mod field_p = LogModel.point_x k.
Proof.
  intros _ H. unfold LogModel.ge_is in H. subst a. cbn [ge_x].
  unfold LogModel.point_x. apply Z.mod_mod. discriminate.
Qed.

Lemma log_gej_is_infinity (a : secp256k1_gej) (k : scalar) :
  0 <= k < order_n -> LogModel.gej_is a k -> gej_infinity a = (k =? 0).
Proof.
  intros _ H. unfold LogModel.gej_is in H. subst a. reflexivity.
Qed.

Lemma log_gej_is_coordinates (a : secp256k1_gej) (k : scalar) :
  0 < k < order_n -> LogModel.gej_is a k ->
  gej_x a mod field_p
  = (LogModel.point_x k * (gej_z a * gej_z a)) mod field_p
  /\ exists zi, (gej_z a * zi) mod field_p = 1.
Proof.
  intros _ H. unfold LogModel.gej_is in H. subst a.
  cbn [gej_x gej_z LogModel.secp256k1_ecmult_gen]. split.
  - f_equal. lia.
  - exists 1. reflexivity.
Qed.

Lemma log_ecmult_gen_is (k : scalar) :
  0 <= k < order_n -> LogModel.gej_is (LogModel.secp256k1_ecmult_gen k) k.
Proof. intros _. reflexivity. Qed.

Lemma log_ge_set_gej_is (a : secp256k1_gej) (k : scalar) :
  0 < k < order_n -> LogModel.gej_is a k ->
  LogModel.ge_is (LogModel.secp256k1_ge_set_gej a) k.
Proof.
  intros Hk H. unfold LogModel.gej_is in H. subst a.
  unfold LogModel.ge_is, LogModel.secp256k1_ge_set_gej.
  cbn [gej_x gej_y gej_infinity LogModel.secp256k1_ecmult_gen].
  destruct (k =? 0) eqn:E; zbool; [lia|reflexivity].
Qed.

Lemma log_gej_set_ge_is (a : secp256k1_ge) (k : scalar) :
  0 < k < order_n -> LogModel.ge_is a k ->
  LogModel.gej_is (LogModel.secp256k1_gej_set_ge a) k.
Proof.
  intros Hk H. unfold LogModel.ge_is in H. subst a.
  unfold LogModel.gej_is, LogModel.secp256k1_gej_set_ge,
    LogModel.secp256k1_ecmult_gen. cbn [ge_x ge_y ge_infinity].
  destruct (k =? 0) eqn:E; zbool; [lia|reflexivity].
Qed.

Lemma log_ecmult_is (a : secp256k1_gej) (k na ng : scalar) :
  0 < k < order_n -> 0 <= na < order_n -> 0 <= ng < order_n ->
  LogModel.gej_is a k ->
  LogModel.gej_is (LogModel.secp256k1_ecmult a na ng)
    ((na * k + ng) mod order_n).
Proof.
  intros _ _ _ H. unfold LogModel.gej_is in H. subst a. reflexivity.
Qed.

Lemma sign_then_verify_witness :
  LogModel.ecdsa_sig_sign 3 5 7 true = (true, log_sig_r, log_sig_s, Some 0)
  /\ LogModel.ecdsa_sig_verify log_sig_r log_sig_s
       (LogModel.secp256k1_ge_set_gej (LogModel.secp256k1_ecmult_gen 3)) 5
     = true.
Proof.
  assert (H : LogModel.ecdsa_sig_sign 3 5 7 true
              = (true, log_sig_r, log_sig_s, Some 0))
    by (vm_compute; reflexivity).
  split; [exact H|].
  refine (sign_then_verify LogModel.secp256k1_ecmult_gen
            LogModel.secp256k1_ecmult LogModel.secp256k1_ge_set_gej
            LogModel.secp256k1_gej_set_ge LogModel.point_x LogModel.ge_is
            LogModel.gej_is log_point_x_range log_point_x_negate
            log_ge_is_coordinates log_gej_is_infinity log_gej_is_coordinates
            log_ecmult_gen_is log_ge_set_gej_is log_gej_set_ge_is
            log_ecmult_is 3 5 7 true _ _ (Some 0) _ _ _ H);
    vm_compute; split; congruence.
Defined.

Lemma verify_ignores_s_sign_witness :
  LogModel.ecdsa_sig_verify log_sig_r (order_n - log_sig_s)
    (mk_ge (LogModel.point_x 3) 3 false) 5
  = true.
Proof.
  refine (proj1 (verify_ignores_s_sign LogModel.secp256k1_ecmult
                   LogModel.secp256k1_gej_set_ge LogModel.point_x
                   LogModel.ge_is LogModel.gej_is log_point_x_range
                   log_point_x_negate log_gej_is_infinity
                   log_gej_is_coordinates log_gej_set_ge_is log_ecmult_is
                   (mk_ge (LogModel.point_x 3) 3 false) 3
                   log_sig_r log_sig_s 5 _ _ _ _ _) _);
    try reflexivity; vm_compute; try split; congruence.
Defined.

(** ** Witnesses in the model of the curve contract *)

Lemma verify_accepts_iff_witness :
  let sn := secp256k1_scalar_inverse log_sig_s in
  let e := (secp256k1_scalar_mul sn log_sig_r * 3
            + secp256k1_scalar_mul sn 5) mod order_n in
  LogModel.ecdsa_sig_verify log_sig_r log_sig_s
    (mk_ge (LogModel.point_x 3) 3 false) 5 = true
  <-> log_sig_r <> 0 /\ log_sig_s <> 0 /\ e <> 0
      /\ log_sig_r = LogModel.point_x e mod order_n.
Proof.
  refine (verify_accepts_iff LogModel.secp256k1_ecmult
            LogModel.secp256k1_gej_set_ge LogModel.point_x LogModel.ge_is
            LogModel.gej_is log_point_x_range log_gej_is_infinity
            log_gej_is_coordinates log_gej_set_ge_is log_ecmult_is
            (mk_ge (LogModel.point_x 3) 3 false) 3 log_sig_r log_sig_s 5
            _ _ _ _ _);
    try reflexivity; vm_compute; split; congruence.
Defined.

Lemma timestamped_r_accepts_iff_witness :
  let jScalar := fst (secp256k1_scalar_set_b32 stealth_secret_one) in
  let out :=
    secp256k1_generate_secure_k LogModel.secp256k1_ecmult_gen
      LogModel.secp256k1_ge_set_gej stealth_secret_one data_hash_zero in
  let stealthFactor := snd (fst out) in
  let hashResult :=
    fst (secp256k1_scalar_set_b32
           (stealth_hash stealthFactor data_hash_zero)) in
  let nonce := fst (secp256k1_scalar_set_b32 (snd out)) in
  let sigr := snd (fst (fst (LogModel.ecdsa_sig_sign 3 5 nonce true))) in
  sigr = LogModel.point_x nonce mod order_n
  /\ (secp256k1_ecdsa_verify_timestamped_r LogModel.secp256k1_ecmult_gen
        LogModel.secp256k1_ge_set_gej data_hash_zero stealthFactor sigr
      = true
      <-> LogModel.point_x nonce mod order_n
          = (LogModel.point_x jScalar mod order_n
             + LogModel.point_x hashResult mod order_n) mod order_n).
Proof.
  refine (timestamped_r_accepts_iff LogModel.secp256k1_ecmult_gen
            LogModel.secp256k1_ge_set_gej LogModel.point_x LogModel.ge_is
            LogModel.gej_is log_point_x_range log_ge_is_coordinates
            log_ecmult_gen_is log_ge_set_gej_is stealth_secret_one
            data_hash_zero 3 5 true _ _ _);
    vm_compute; discriminate.
Defined.

Lemma verified_signature_is_signed_witness :
  exists nonce,
    0 < nonce < order_n
    /\ LogModel.ecdsa_sig_sign 3 5 nonce false
       = (true, log_sig_r, log_sig_s, None).
Proof.
  refine (verified_signature_is_signed LogModel.secp256k1_ecmult_gen
            LogModel.secp256k1_ecmult LogModel.secp256k1_ge_set_gej
            LogModel.secp256k1_gej_set_ge LogModel.point_x LogModel.ge_is
            LogModel.gej_is log_point_x_range log_ge_is_coordinates
            log_gej_is_infinity log_gej_is_coordinates log_ecmult_gen_is
            log_ge_set_gej_is log_gej_set_ge_is log_ecmult_is
            3 log_sig_r log_sig_s 5 _ _ _ _ _);
    vm_compute; try split; congruence.
Defined.

Lemma stealth_factor_x_coordinate_witness :
  let jScalar := fst (secp256k1_scalar_set_b32 stealth_secret_one) in
  secp256k1_generate_stealth_J LogModel.secp256k1_ecmult_gen
    LogModel.secp256k1_ge_set_gej stealth_secret_one
  = (1, be_encode 32 (LogModel.point_x jScalar))
  /\ secp256k1_generate_stealth_J LogModel.secp256k1_ecmult_gen
       LogModel.secp256k1_ge_set_gej
       (secp256k1_scalar_get_b32 (secp256k1_scalar_negate jScalar))
     = secp256k1_generate_stealth_J LogModel.secp256k1_ecmult_gen
         LogModel.secp256k1_ge_set_gej stealth_secret_one.
Proof.
  refine (stealth_factor_x_coordinate LogModel.secp256k1_ecmult_gen
            LogModel.secp256k1_ge_set_gej LogModel.point_x LogModel.ge_is
            LogModel.gej_is log_point_x_negate log_ge_is_coordinates
            log_ecmult_gen_is log_ge_set_gej_is stealth_secret_one _).
  vm_compute. discriminate.
Defined.

(** ** The midstate of the stealth hash *)

Lemma sha_absorb_block (k : nat) (s : list Z) (pending : list byte) :
  (64 <= length pending)%nat ->
  sha_absorb (S k) s pending
  = sha_absorb k (secp256k1_sha256_transform s (firstn 64 pending))
      (skipn 64 pending).
Proof.
  intros H. cbn [sha_absorb].
  destruct (64 <=? length pending)%nat eqn:E; [reflexivity|].
  apply Nat.leb_gt in E. lia.
Qed.

Lemma sha_absorb_short (k : nat) (s : list Z) (pending : list byte) :
  (length pending < 64)%nat -> sha_absorb k s pending = (s, pending).
Proof.
  intros H. destruct k as [|k]; [reflexivity|]. cbn [sha_absorb].
  destruct (64 <=? length pending)%nat eqn:E; [|reflexivity].
  apply Nat.leb_le in E. lia.
Qed.

(** One full block in the pending bytes is compressed and nothing is left
    over. *)
Lemma sha_absorb_one_block (k : nat) (s : list Z) (block : list byte) :
  length block = 64%nat ->
  sha_absorb (S k) s block = (secp256k1_sha256_transform s block, []).
Proof.
  intros H. rewrite sha_absorb_block by lia.
  rewrite firstn_all2, skipn_all2 by lia.
  apply sha_absorb_short. cbn [length]. lia.
Qed.

Lemma bip340_challenge_midstate :
  length (sha256 bip340_challenge_tag) = 32%nat
  /\ secp256k1_sha256_transform (sha_s secp256k1_sha256_initialize)
       (sha256 bip340_challenge_tag ++ sha256 bip340_challenge_tag)
     = stealth_midstate.
Proof. split; vm_compute; reflexivity. Qed.

(** X20 -- the tagged hash of the stealth operations.  The midstate that
    [secp256k1_generate_secure_k] and [secp256k1_ecdsa_verify_timestamped_r]
    install, with 64 bytes counted as absorbed, is the state of SHA-256
    after the block made of the SHA-256 digest of [BIP0340/challenge] written
    twice: for a 32-byte stealth factor and a 32-byte data hash both compute
    the SHA-256 digest of that block followed by the stealth factor and the
    data hash. *)
Theorem stealth_hash_tagged (stealthFactor dataHashPointer : list byte) :
  length stealthFactor = 32%nat -> length dataHashPointer = 32%nat ->
  stealth_hash stealthFactor dataHashPointer
  = sha256 (sha256 bip340_challenge_tag ++ sha256 bip340_challenge_tag
            ++ stealthFactor ++ dataHashPointer).
Proof.
  intros Hf Hd. destruct bip340_challenge_midstate as [HT Hmid].
  set (T := sha256 bip340_challenge_tag) in *.
  unfold stealth_hash, sha256 at 1.
  f_equal. unfold secp256k1_sha256_write.
  cbn [sha_s sha_buf sha_bytes secp256k1_sha256_initialize app].
  rewrite !firstn_all2 by lia.
  rewrite (sha_absorb_short _ _ stealthFactor) by lia.
  cbn [sha_s sha_buf sha_bytes].
  assert (Hfd : length (stealthFactor ++ dataHashPointer) = 64%nat)
    by (rewrite length_app; lia).
  rewrite Hfd, sha_absorb_one_block by exact Hfd.
  assert (HM : length (T ++ T ++ stealthFactor ++ dataHashPointer) = 128%nat)
    by (rewrite !length_app; lia).
  rewrite HM, sha_absorb_block by lia.
  rewrite (app_assoc T T).
  rewrite firstn_app, skipn_app.
  assert (HTT : length (T ++ T) = 64%nat) by (rewrite length_app; lia).
  rewrite HTT, Nat.sub_diag, firstn_O, skipn_O, app_nil_r.
  rewrite firstn_all2, skipn_all2 by lia. cbn [app].
  cbn [sha_s secp256k1_sha256_initialize] in Hmid.
  rewrite Hmid, sha_absorb_one_block by exact Hfd.
  reflexivity.
Qed.

Lemma stealth_hash_tagged_witness :
  stealth_hash data_hash_zero data_hash_zero
  = sha256 (sha256 bip340_challenge_tag ++ sha256 bip340_challenge_tag
            ++ data_hash_zero ++ data_hash_zero).
Proof.
  apply (stealth_hash_tagged data_hash_zero data_hash_zero); reflexivity.
Defined.


(** ** The file text of the [timestampdata] call *)

Module RpcFacts.

Import String.
Import Rpc.

Lemma append_assoc (a b c : string) : ((a ++ b) ++ c = a ++ (b ++ c))%string.
Proof. induction a as [|x a IH]; cbn; [reflexivity|]. now rewrite IH. Qed.

Lemma append_empty_r (a : string) : (a ++ "")%string = a.
Proof. induction a as [|x a IH]; cbn; [reflexivity|]. now rewrite IH. Qed.

Lemma numerals_cons (b : byte) (bs : list byte) :
  numerals (b :: bs)
  = (DecimalString.NilZero.string_of_int (Z.to_int (u8 b))
     ++ numerals bs)%string.
Proof.
  unfold numerals. cbn [map]. destruct bs as [|b' bs]; cbn [map concat].
  - now rewrite append_empty_r.
  - reflexivity.
Qed.

Lemma numerals_app (a b : list byte) :
  numerals (a ++ b) = (numerals a ++ numerals b)%string.
Proof.
  induction a as [|x a IH]; [reflexivity|].
  cbn [app]. rewrite !numerals_cons, IH, append_assoc. reflexivity.
Qed.

Lemma while_file_spec (fuel : nat) (bs : list byte) (data : string) :
  (List.length bs < fuel)%nat ->
  while_file fuel (mk_ifstream bs true) data
  = (data ++ numerals bs ++ "-1")%string.
Proof.
  revert bs data. induction fuel as [|fuel IH]; intros bs data Hf; [lia|].
  destruct bs as [|b bs]; cbn [while_file good ifstream_get remaining].
  - destruct fuel; reflexivity.
  - cbn [List.length] in Hf. rewrite IH by lia.
    unfold ostream_put_int. rewrite numerals_cons, !append_assoc.
    reflexivity.
Qed.

(** X21 -- the text read from the file.  For a file that opens, the loop
    ends after one turn more than the file has bytes, and the text is the
    decimal numeral of each byte in turn, with nothing between them,
    followed by [-1], the value that [get] returns at the end of the file;
    for a file that does not open the text is empty. *)
Theorem file_text_numerals (fuel : nat) (bs : list byte) :
  (List.length bs < fuel)%nat ->
  file_text fuel (Some bs) = (numerals bs ++ "-1")%string
  /\ file_text fuel None = ""%string.
Proof.
  intros Hf. split; [|reflexivity].
  unfold file_text. cbn [ifstream_open good].
  rewrite while_file_spec by exact Hf. reflexivity.
Qed.

Lemma file_text_numerals_witness :
  file_text 3 (Some [x41; xff]) = (numerals [x41; xff] ++ "-1")%string
  /\ file_text 3 None = ""%string.
Proof. apply (file_text_numerals 3 [x41; xff]). cbn [List.length]. lia. Defined.

(** X22 -- the text does not determine the file.  Anywhere in a file, the
    two bytes 1 and 2 and the single byte 12 leave the same numerals, so
    files that differ in this way give the same text. *)
Theorem file_text_collision (fuel : nat) (pre post : list byte) :
  (List.length pre + List.length post + 2 < fuel)%nat ->
  file_text fuel (Some (pre ++ [x01; x02] ++ post))
  = file_text fuel (Some (pre ++ [x0c] ++ post)).
Proof.
  intros Hf. unfold file_text. cbn [ifstream_open good].
  rewrite !while_file_spec by (rewrite !length_app; cbn [List.length]; lia).
  rewrite !numerals_app. reflexivity.
Qed.

Lemma file_text_collision_witness :
  file_text 4 (Some ([] ++ [x01; x02] ++ [x33]))
  = file_text 4 (Some ([] ++ [x0c] ++ [x33])).
Proof. apply (file_text_collision 4 [] [x33]). cbn [List.length]. lia. Defined.

End RpcFacts.
